(** * SwiftDepGraph: the dependency resolver and the graph analyzer

    A shallow embedding of [main.py] (the resolver that downloads
    [Package.swift] manifests and follows their dependencies) and of
    [dependency_graph_analyzer.py] (the analyzer that rebuilds the graph
    from the stored manifests and computes its metrics), with the
    properties of the specification stated over it.

    Conventions.
    - Text is a sequence of 8-bit characters ([string], [list ascii]).
    - A Python [dict] is a [gmap]; a [defaultdict(list)] is a [gmap] read
      through [getitem], which inserts the empty list under a missing key
      as Python does.
    - A Python [set] that is only tested for membership is a [gset]; a set
      that is iterated ([self.nodes], [found_urls]) is a duplicate-free
      list holding its elements in iteration order.
    - A function that can raise returns in [py]; a loop or a recursion
      that is not structural takes fuel and answers [None] when it runs
      dry. *)

From stdpp Require Import gmap strings list fin_maps pretty sorting.
From Stdlib Require Import Ascii.

Local Open Scope string_scope.
Local Open Scope nat_scope.
Local Open Scope list_scope.

(** ** Results of code that can raise *)

Inductive py (A : Type) : Type :=
| Ok (a : A)
| Raise.
Arguments Ok {A} a.
Arguments Raise {A}.

#[global] Instance py_bind : MBind py := fun A B f m =>
  match m with
  | Ok a => f a
  | Raise => Raise
  end.

(** ** Python string operations *)

Module Py.

Definition chars (s : string) : list ascii := String.list_ascii_of_string s.
Definition str (l : list ascii) : string := String.string_of_list_ascii l.

Definition eqc (a b : ascii) : bool := Ascii.eqb a b.
Definition code (c : ascii) : nat := nat_of_ascii c.

(** [s.startswith(p)] on character lists. *)
Fixpoint starts_with (p s : list ascii) : bool :=
  match p, s with
  | [], _ => true
  | a :: p', b :: s' => eqc a b && starts_with p' s'
  | _ :: _, [] => false
  end.

(** [s.endswith(p)]. *)
Definition ends_with (p s : list ascii) : bool :=
  starts_with (rev p) (rev s).

(** [p in s] for strings. *)
Fixpoint contains (p s : list ascii) : bool :=
  starts_with p s ||
  match s with
  | [] => false
  | _ :: s' => contains p s'
  end.

(** [s.lstrip(c)] for a one-character set. *)
Fixpoint lstrip (c : ascii) (s : list ascii) : list ascii :=
  match s with
  | a :: s' => if eqc a c then lstrip c s' else s
  | [] => []
  end.

Definition rstrip (c : ascii) (s : list ascii) : list ascii :=
  rev (lstrip c (rev s)).

(** [s.strip(c)]. *)
Definition strip (c : ascii) (s : list ascii) : list ascii :=
  rstrip c (lstrip c s).

(** [s.split(sep)] with a one-character separator: the pieces between
    the separators, empty pieces kept, never an empty list. *)
Fixpoint split (sep : ascii) (s : list ascii) : list (list ascii) :=
  match s with
  | [] => [[]]
  | a :: s' =>
      if eqc a sep then [] :: split sep s'
      else match split sep s' with
           | p :: ps => (a :: p) :: ps
           | [] => [[a]]
           end
  end.

(** [s.replace(a, b)] for single characters. *)
Definition replace (a b : ascii) (s : list ascii) : list ascii :=
  List.map (fun c => if eqc c a then b else c) s.

(** [s.find(c)] as the split at the first [c]: [None] when absent. *)
Fixpoint cut (c : ascii) (s : list ascii) : option (list ascii * list ascii) :=
  match s with
  | [] => None
  | a :: s' =>
      if eqc a c then Some ([], s')
      else match cut c s' with
           | Some (l, r) => Some (a :: l, r)
           | None => None
           end
  end.

(** The part of [s] before the first [c], all of [s] when absent
    ([s.split(c, 1)[0]]). *)
Definition before (c : ascii) (s : list ascii) : list ascii :=
  match cut c s with
  | Some (l, _) => l
  | None => s
  end.

Definition mem (c : ascii) (s : list ascii) : bool :=
  existsb (eqc c) s.

Definition is_lower (c : ascii) : bool := (97 <=? code c) && (code c <=? 122).
Definition is_upper (c : ascii) : bool := (65 <=? code c) && (code c <=? 90).
Definition is_alpha (c : ascii) : bool := is_lower c || is_upper c.
Definition is_digit (c : ascii) : bool := (48 <=? code c) && (code c <=? 57).

Definition lower (c : ascii) : ascii :=
  if is_upper c then ascii_of_nat (code c + 32) else c.

(** Truthiness of a string: non-empty. *)
Definition truthy (s : string) : bool :=
  match s with
  | EmptyString => false
  | _ => true
  end.

End Py.

(** ** [urllib.parse.urlparse(url).path]

    The standard library's URL splitter, as far as the path component
    goes (CPython 3.12 [urlsplit] followed by [urlparse]'s parameter
    split), over 8-bit text.  It raises [ValueError] on a network location
    with an unmatched square bracket; the further validation of a
    bracketed host that recent releases perform is not modelled, and no
    theorem below depends on which inputs raise. *)

Module Url.
Import Py.

Definition scheme_char (c : ascii) : bool :=
  is_alpha c || is_digit c || mem c (chars "+-.").

Definition c0_or_space (c : ascii) : bool := code c <=? 32.

Fixpoint lstrip_c0 (s : list ascii) : list ascii :=
  match s with
  | a :: s' => if c0_or_space a then lstrip_c0 s' else s
  | [] => []
  end.

Definition unsafe_byte (c : ascii) : bool :=
  (code c =? 9) || (code c =? 10) || (code c =? 13).

(** The scheme and what follows it: [url[:i].lower(), url[i+1:]] when
    [url[:i]] is a well-formed scheme, and no scheme otherwise. *)
Definition split_scheme (url : list ascii) : list ascii * list ascii :=
  match cut ":" url with
  | Some (a :: sch, rest) =>
      if is_alpha a && forallb scheme_char (a :: sch)
      then (List.map lower (a :: sch), rest)
      else ([], url)
  | _ => ([], url)
  end.

(** [_splitnetloc(url, 2)]: the network location runs up to the first
    of [/], [?] and [#]. *)
Fixpoint split_netloc (s : list ascii) : list ascii * list ascii :=
  match s with
  | [] => ([], [])
  | a :: s' =>
      if mem a (chars "/?#") then ([], s)
      else let '(n, r) := split_netloc s' in (a :: n, r)
  end.

Definition uses_params : list string :=
  [""; "ftp"; "hdl"; "prospero"; "http"; "imap"; "https"; "shttp";
   "rtsp"; "rtspu"; "sip"; "sips"; "mms"; "sftp"; "tel"].

(** [_splitparams(url)[0]]: the parameters start at the first [;] of
    the last path segment. *)
Definition split_params (url : list ascii) : list ascii :=
  if mem "/" url then
    let last := List.last (split "/" url) [] in
    match cut ";" last with
    | Some (l, _) => take (length url - length last) url ++ l
    | None => url
    end
  else before ";" url.

Definition urlparse_path (url : string) : py string :=
  let u := List.filter (fun c => negb (unsafe_byte c)) (lstrip_c0 (chars url)) in
  let '(scheme, u) := split_scheme u in
  u ←
    (if starts_with (chars "//") u then
       let '(netloc, rest) := split_netloc (drop 2 u) in
       if xorb (mem "[" netloc) (mem "]" netloc) then Raise
       else Ok rest
     else Ok u);
  let u := before "#" u in
  let u := before "?" u in
  let u :=
    if bool_decide (str scheme ∈ uses_params) && mem ";" u
    then split_params u else u in
  Ok (str u).

End Url.

(** ** The identifier normalizer *)

(** [github_url[:-4]] when [github_url.endswith('.git')]. *)
Definition strip_git (github_url : string) : string :=
  let u := Py.chars github_url in
  if Py.ends_with (Py.chars ".git") u
  then Py.str (take (length u - 4) u)
  else github_url.

(** [parsed.path.strip('/').split('/')] *)
Definition path_parts (path : string) : list string :=
  List.map Py.str (Py.split "/" (Py.strip "/" (Py.chars path))).

(** [main.extract_repo_info]: the pair [(owner, repo)], or [None] for the
    pair [(None, None)]. *)
Definition extract_repo_info (github_url : string) : py (option (string * string)) :=
  path ← Url.urlparse_path (strip_git github_url);
  match path_parts path with
  | owner :: repo :: _ => Ok (Some (owner, repo))
  | _ => Ok None
  end.

(** [DependencyGraphAnalyzer.extract_repo_info_from_url]: the string
    [f"{owner}/{repo}"], or [None]. *)
Definition extract_repo_info_from_url (github_url : string) : py (option string) :=
  path ← Url.urlparse_path (strip_git github_url);
  match path_parts path with
  | owner :: repo :: _ => Ok (Some (owner +:+ "/" +:+ repo))
  | _ => Ok None
  end.

(** The identifier [main.py] forms from a locator, the same way at the
    entry of [download_package_swift], for each dependency in its loop
    and for each seed in [process_all_repositories]: the call
    [owner, repo = extract_repo_info(url)], the test that [owner] and
    [repo] are both truthy, and the text made of [owner], a slash and
    [repo].  [Ok None] stands for the test failing. *)
Definition repo_key_of (github_url : string) : py (option string) :=
  r ← extract_repo_info github_url;
  match r with
  | Some (owner, repo) =>
      if Py.truthy owner && Py.truthy repo
      then Ok (Some (owner +:+ "/" +:+ repo))
      else Ok None
  | None => Ok None
  end.

(** ** Regular expressions

    The patterns of the two programs use single characters and character
    classes, each possibly repeated ([*], [+], [?], [*?], [+?]),
    capturing groups that are not nested, and one alternation at top
    level.  [match_here] is a backtracking matcher with the priorities of
    Python's [re]: a greedy repetition tries the longest run first, a lazy
    one the shortest, and the first alternative that leads to a match
    wins. *)

Module Re.

Definition cls : Type := ascii -> bool.

Inductive atom : Type :=
| One (p : cls)                         (* one character of the class *)
| Many (greedy least : bool) (p : cls)  (* [p*], [p+], [p*?], [p+?] *)
| Opt (p : cls)                         (* [p?] *)
| GOpen                                 (* ( *)
| GClose (i : nat).                     (* ) closing group number i *)

Definition seq : Type := list atom.
(** A pattern: its alternatives, in order. *)
Definition re : Type := list seq.

Definition caps : Type := list (nat * list ascii).

Fixpoint greedy {R : Type} (p : cls) (s : list ascii)
    (k : list ascii -> option R) : option R :=
  match s with
  | c :: s' =>
      if p c then
        match greedy p s' k with
        | Some r => Some r
        | None => k s
        end
      else k s
  | [] => k s
  end.

Fixpoint lazy {R : Type} (p : cls) (s : list ascii)
    (k : list ascii -> option R) : option R :=
  match k s with
  | Some r => Some r
  | None =>
      match s with
      | c :: s' => if p c then lazy p s' k else None
      | [] => None
      end
  end.

(** [match_here r s mark cs]: match the atoms [r] at the start of [s];
    [mark] is the text from the last opening parenthesis on, [cs] the
    groups closed so far.  The answer is the text left after the match
    and the groups. *)
Fixpoint match_here (r : seq) (s mark : list ascii) (cs : caps)
  : option (list ascii * caps) :=
  match r with
  | [] => Some (s, cs)
  | One p :: r' =>
      match s with
      | c :: s' => if p c then match_here r' s' mark cs else None
      | [] => None
      end
  | Many g least p :: r' =>
      let k := fun s' => match_here r' s' mark cs in
      let star := if g then greedy p else lazy p in
      if least then
        match s with
        | c :: s' => if p c then star s' k else None
        | [] => None
        end
      else star s k
  | Opt p :: r' =>
      match s with
      | c :: s' =>
          if p c then
            match match_here r' s' mark cs with
            | Some x => Some x
            | None => match_here r' s mark cs
            end
          else match_here r' s mark cs
      | [] => match_here r' s mark cs
      end
  | GOpen :: r' => match_here r' s s cs
  | GClose i :: r' =>
      match_here r' s mark ((i, take (length mark - length s) mark) :: cs)
  end.

Fixpoint match_alts (alts : re) (s : list ascii) : option (list ascii * caps) :=
  match alts with
  | [] => None
  | r :: alts' =>
      match match_here r s s [] with
      | Some x => Some x
      | None => match_alts alts' s
      end
  end.

(** A match: the matched text, its groups, and the text after it. *)
Record found : Type := Found {
  whole : list ascii;
  groups : caps;
  rest : list ascii
}.

Definition found_at (s : list ascii) (x : list ascii * caps) : found :=
  {| whole := take (length s - length x.1) s; groups := x.2; rest := x.1 |}.

(** [m.group(i)]: [None] for a group that took no part in the match. *)
Fixpoint group (i : nat) (cs : caps) : option string :=
  match cs with
  | [] => None
  | (j, t) :: cs' => if i =? j then Some (Py.str t) else group i cs'
  end.

(** [re.search(pattern, s)]: the leftmost match. *)
Fixpoint search_from (p : re) (s : list ascii) : option found :=
  match match_alts p s with
  | Some x => Some (found_at s x)
  | None =>
      match s with
      | _ :: s' => search_from p s'
      | [] => None
      end
  end.

Definition search (p : re) (s : string) : option found :=
  search_from p (Py.chars s).

(** The matches [re.findall] and [re.finditer] go through: leftmost
    first, the next search starting where the last match ended (one
    character further after an empty match).  [skip] counts the
    characters still covered by the last match. *)
Fixpoint finditer_from (p : re) (s : list ascii) (skip : nat) : list found :=
  match skip with
  | S n =>
      match s with
      | _ :: s' => finditer_from p s' n
      | [] => []
      end
  | 0 =>
      match match_alts p s with
      | Some x =>
          found_at s x ::
            match s with
            | _ :: s' => finditer_from p s' (length s - length x.1 - 1)
            | [] => []
            end
      | None =>
          match s with
          | _ :: s' => finditer_from p s' 0
          | [] => []
          end
      end
  end.

(** [re.findall] for a pattern with one group: the texts of group 1. *)
Definition findall (p : re) (s : string) : list string :=
  omap (fun m => group 1 (groups m)) (finditer_from p (Py.chars s) 0).

(** [re.findall] for a pattern without groups: the matched texts. *)
Definition findall_whole (p : re) (s : string) : list string :=
  List.map (fun m => Py.str (whole m)) (finditer_from p (Py.chars s) 0).

(** *** Character classes *)

Definition chr (c : ascii) : cls := Py.eqc c.
(** [.] under [re.DOTALL] *)
Definition any : cls := fun _ => true.
(** [.] without [re.DOTALL] *)
Definition dot : cls := fun c => negb (Py.eqc c "010").
(** [\s]: tab to carriage return, the four separators 28 to 31, space *)
Definition space : cls := fun c =>
  let n := Py.code c in
  ((9 <=? n) && (n <=? 13)) || ((28 <=? n) && (n <=? 32)).
(** [\d] *)
Definition digit : cls := Py.is_digit.
(** the class of the two quote characters *)
Definition quote : cls := fun c => Py.eqc c "034" || Py.eqc c "039".
Definition not_quote : cls := fun c => negb (quote c).
(** [[^)]] *)
Definition not_rparen : cls := fun c => negb (Py.eqc c ")").

Definition lit (s : string) : seq := List.map (fun c => One (chr c)) (Py.chars s).
Definition star (p : cls) : atom := Many true false p.
Definition plus (p : cls) : atom := Many true true p.
Definition star_lazy (p : cls) : atom := Many false false p.
Definition plus_lazy (p : cls) : atom := Many false true p.
(** A quoted text: a quote, group [i] holding one or more characters
    that are no quotes, a quote. *)
Definition quoted (i : nat) : seq :=
  [One quote; GOpen; plus not_quote; GClose i; One quote].

End Re.

(** ** The patterns of the manifest parsers *)

Module Pat.
Import Re.

(** dependencies:\s*\[(.*?)\] under re.DOTALL *)
Definition dependencies : re :=
  [lit "dependencies:" ++ [star space; One (chr "[");
     GOpen; star_lazy any; GClose 1; One (chr "]")]].

(** \.package\s*\(\s*url:\s* and a quoted text, then [^)]*\) *)
Definition package_url : re :=
  [lit ".package" ++ [star space; One (chr "("); star space] ++
   lit "url:" ++ [star space] ++ quoted 1 ++ [star not_rparen; One (chr ")")]].

(** \.package\s*\(\s* and a quoted text, then [^)]*\) *)
Definition package_short : re :=
  [lit ".package" ++ [star space; One (chr "("); star space] ++
   quoted 1 ++ [star not_rparen; One (chr ")")]].

Definition package_patterns : list re := [package_url; package_short].

(** name:\s* and a quoted text *)
Definition name : re := [lit "name:" ++ [star space] ++ quoted 1].

(** \.package\s*\([^)]+\) *)
Definition full_package : re :=
  [lit ".package" ++ [star space; One (chr "("); plus not_rparen; One (chr ")")]].

(** url:\s* and a quoted text (group 1), or a quoted text (group 2) *)
Definition url_or_quoted : re :=
  [lit "url:" ++ [star space] ++ quoted 1; quoted 2].

(** from:\s* and a quoted text *)
Definition from : re := [lit "from:" ++ [star space] ++ quoted 1].

(** \.upToNextMajor\s*\(\s*from:\s* quoted \s*\) *)
Definition upToNextMajor : re :=
  [lit ".upToNextMajor" ++ [star space; One (chr "("); star space] ++
   lit "from:" ++ [star space] ++ quoted 1 ++ [star space; One (chr ")")]].

Definition upToNextMinor : re :=
  [lit ".upToNextMinor" ++ [star space; One (chr "("); star space] ++
   lit "from:" ++ [star space] ++ quoted 1 ++ [star space; One (chr ")")]].

(** \.exact\s*\(\s* quoted \s*\) *)
Definition exact : re :=
  [lit ".exact" ++ [star space; One (chr "("); star space] ++
   quoted 1 ++ [star space; One (chr ")")]].

(** quoted .+? quoted *)
Definition range : re := [quoted 1 ++ [plus_lazy dot] ++ quoted 2].

(** quoted, three dots, a quote, \s*, group 2 of non-quotes, a quote *)
Definition closedRange : re :=
  [quoted 1 ++ lit "..." ++
   [One quote; star space; GOpen; plus not_quote; GClose 2; One quote]].

(** quoted \s* \.\.\.? \s* quoted *)
Definition rangeOperator : re :=
  [quoted 1 ++ [star space] ++ lit ".." ++ [Opt (chr "."); star space] ++ quoted 2].

Definition branch : re := [lit "branch:" ++ [star space] ++ quoted 1].
Definition revision : re := [lit "revision:" ++ [star space] ++ quoted 1].

(** a quote, group 1 = \d+\.\d+\.\d+[^quote]*, a quote *)
Definition bare_version : re :=
  [[One quote; GOpen; plus digit; One (chr "."); plus digit; One (chr ".");
    plus digit; star not_quote; GClose 1; One quote]].

End Pat.

(** ** Sets kept as lists in iteration order *)

(** [s.add(x)] *)
Definition set_add (x : string) (s : list string) : list string :=
  if bool_decide (x ∈ s) then s else s ++ [x].

(** ['github.com' in url] *)
Definition mentions_github (url : string) : bool :=
  Py.contains (Py.chars "github.com") (Py.chars url).

(** ** [main.py]: the version constraint of a declaration *)

(** [int(s)] for the decimal texts a version holds: digits, a sign in
    front allowed.  (Python also accepts blanks around and underscores
    between the digits.) *)
Fixpoint digits_value (acc : nat) (s : list ascii) : option nat :=
  match s with
  | [] => Some acc
  | c :: s' =>
      if Py.is_digit c then digits_value (10 * acc + (Py.code c - 48)) s'
      else None
  end.

Definition py_int (s : string) : py Z :=
  match Py.chars s with
  | [] => Raise
  | c :: s' =>
      let '(neg, ds) :=
        if Py.eqc c "-" then (true, s')
        else if Py.eqc c "+" then (false, s') else (false, c :: s') in
      match ds, digits_value 0 ds with
      | _ :: _, Some n => Ok (if neg then (- Z.of_nat n)%Z else Z.of_nat n)
      | _, _ => Raise
      end
  end.

(** [version.split('.')] *)
Definition split_dots (version : string) : list string :=
  List.map Py.str (Py.split "." (Py.chars version)).

Inductive constraint_type : Type :=
| c_from | c_upToNextMajor | c_upToNextMinor | c_exact
| c_range | c_closedRange | c_rangeOperator | c_branch | c_revision.

(** [version_patterns], in the order the dictionary is written and
    therefore iterated. *)
Definition version_patterns : list (constraint_type * Re.re) :=
  [(c_from, Pat.from);
   (c_upToNextMajor, Pat.upToNextMajor);
   (c_upToNextMinor, Pat.upToNextMinor);
   (c_exact, Pat.exact);
   (c_range, Pat.range);
   (c_closedRange, Pat.closedRange);
   (c_rangeOperator, Pat.rangeOperator);
   (c_branch, Pat.branch);
   (c_revision, Pat.revision)].

(** The text returned when nothing matches (it says: no version
    constraint). *)
Definition no_constraint : string := "버전 제약 조건 없음".

(** The body of the loop for one pattern that matched: [Some] text to
    return, or [None] to go on with the next pattern. *)
Definition describe (t : constraint_type) (m : Re.found) : py (option string) :=
  let g1 := default "" (Re.group 1 (Re.groups m)) in
  match t with
  | c_from => Ok (Some ("from " +:+ g1))
  | c_upToNextMajor =>
      n ← py_int (default "" (head (split_dots g1)));
      Ok (Some ("from " +:+ g1 +:+ " up to next major (< " +:+
                pretty (n + 1)%Z +:+ ".0.0)"))
  | c_upToNextMinor =>
      match split_dots g1 with
      | p0 :: p1 :: _ =>
          n ← py_int p1;
          Ok (Some ("from " +:+ g1 +:+ " up to next minor (< " +:+
                    p0 +:+ "." +:+ pretty (n + 1)%Z +:+ ".0)"))
      | _ => Raise
      end
  | c_exact => Ok (Some ("exact " +:+ g1))
  | c_range | c_closedRange | c_rangeOperator =>
      match Re.group 2 (Re.groups m) with
      | Some g2 => Ok (Some ("range " +:+ g1 +:+ " ... " +:+ g2))
      | None => Ok None
      end
  | c_branch => Ok (Some ("branch: " +:+ g1))
  | c_revision =>
      Ok (Some ("revision: " +:+ Py.str (take 8 (Py.chars g1)) +:+ "..."))
  end.

Fixpoint first_constraint (ps : list (constraint_type * Re.re))
    (package_declaration : string) : py (option string) :=
  match ps with
  | [] => Ok None
  | (t, p) :: ps' =>
      match Re.search p package_declaration with
      | Some m =>
          r ← describe t m;
          match r with
          | Some text => Ok (Some text)
          | None => first_constraint ps' package_declaration
          end
      | None => first_constraint ps' package_declaration
      end
  end.

(** [analyze_version_constraint] *)
Definition analyze_version_constraint (package_declaration : string) : py string :=
  r ← first_constraint version_patterns package_declaration;
  match r with
  | Some text => Ok text
  | None =>
      match Re.search Pat.bare_version package_declaration with
      | Some m => Ok ("version " +:+ default "" (Re.group 1 (Re.groups m)))
      | None => Ok no_constraint
      end
  end.


(** ** [main.py]: the dependencies of a manifest *)

(** The locators the two [.package] patterns find in the dependencies
    section: the matches of the first pattern, then those of the
    second. *)
Definition declared_urls (deps_content : string) : list string :=
  flat_map (fun p => Re.findall p deps_content) Pat.package_patterns.

(** [found_urls] after the two loops of [extract_dependencies_from_content].
    Python goes through a set in an order of its own; the list keeps the
    order of insertion, and nothing proved below depends on the order. *)
Definition found_urls (deps_content : string) : list string :=
  fold_left (fun found url => if mentions_github url then set_add url found else found)
    (declared_urls deps_content) [].

(** [m.group(1) or m.group(2)] *)
Definition group1_or_group2 (m : Re.found) : string :=
  match Re.group 1 (Re.groups m) with
  | Some g => if Py.truthy g then g else default "" (Re.group 2 (Re.groups m))
  | None => default "" (Re.group 2 (Re.groups m))
  end.

(** The report loop over the declarations: the lines it prints, each a
    locator with the text of its version constraint. *)
Fixpoint report_versions (package_declarations : list string)
  : py (list (string * string)) :=
  match package_declarations with
  | [] => Ok []
  | decl :: decls =>
      line ←
        match Re.search Pat.url_or_quoted decl with
        | Some m =>
            let url := group1_or_group2 m in
            if mentions_github url then
              version_info ← analyze_version_constraint decl;
              Ok [(url, version_info)]
            else Ok []
        | None => Ok []
        end;
      lines ← report_versions decls;
      Ok (line ++ lines)
  end.

(** [extract_dependencies_from_content] *)
Definition extract_dependencies_from_content (content : string) : py (list string) :=
  match Re.search Pat.dependencies content with
  | Some m =>
      let deps_content := default "" (Re.group 1 (Re.groups m)) in
      let dependencies := found_urls deps_content in
      _ ← match dependencies with
          | [] => Ok []
          | _ => report_versions (Re.findall_whole Pat.full_package deps_content)
          end;
      Ok dependencies
  | None => Ok []
  end.

(** ** [dependency_graph_analyzer.py]: parsing a stored manifest *)

Record manifest_info : Type := ManifestInfo {
  dependencies : list string;
  package_name : option string;
  has_package_swift : bool
}.

(** The record of the [except] branch (its [error] text is not kept). *)
Definition parse_failed : manifest_info :=
  {| dependencies := []; package_name := None; has_package_swift := false |}.

(** [found_urls] of [parse_package_swift]: identifiers, not locators,
    again in the order of insertion. *)
Fixpoint found_repo_keys (urls : list string) (found : list string) : py (list string) :=
  match urls with
  | [] => Ok found
  | url :: urls' =>
      if mentions_github url then
        repo_key ← extract_repo_info_from_url url;
        match repo_key with
        | Some k => found_repo_keys urls' (if Py.truthy k then set_add k found else found)
        | None => found_repo_keys urls' found
        end
      else found_repo_keys urls' found
  end.

(** The [try] block of [parse_package_swift] once the file is read. *)
Definition parse_content (content : string) : py manifest_info :=
  deps ←
    match Re.search Pat.dependencies content with
    | Some m =>
        let deps_content := default "" (Re.group 1 (Re.groups m)) in
        found_repo_keys (declared_urls deps_content) []
    | None => Ok []
    end;
  let name_match := Re.search Pat.name content in
  Ok {| dependencies := deps;
        package_name := m ← name_match; Re.group 1 (Re.groups m);
        has_package_swift := true |}.

(** [parse_package_swift]: [file] is the text read from [file_path], or
    [None] when opening, reading or decoding it raises. *)
Definition parse_package_swift (file : option string) : manifest_info :=
  match file with
  | Some content =>
      match parse_content content with
      | Ok info => info
      | Raise => parse_failed
      end
  | None => parse_failed
  end.

(** ** [main.py]: the resolver *)

(** What asking the hosting service for the manifest of an identifier
    comes to: the decoded text of [Package.swift]; no such file on any of
    the branches tried ([package_file is None]); or an exception on the
    way ([get_repo], decoding, storing the file). *)
Inductive fetch_result : Type :=
| Manifest (content : string)
| NoManifest
| FetchFailed.

(** The module's global state.  [fetched] is a ghost field: the
    identifiers whose manifest was asked for, oldest first. *)
Record globals : Type := Globals {
  processed_repos : gset string;
  failed_repos : gset string;
  dependency_graph : gmap string (list string);
  successful_downloads : nat;
  failed_downloads : nat;
  dependencies_found : nat;
  fetched : list string
}.

Definition initial : globals :=
  {| processed_repos := ∅; failed_repos := ∅; dependency_graph := ∅;
     successful_downloads := 0; failed_downloads := 0;
     dependencies_found := 0; fetched := [] |}.

Definition log_fetch (repo_key : string) (st : globals) : globals :=
  {| processed_repos := processed_repos st; failed_repos := failed_repos st;
     dependency_graph := dependency_graph st;
     successful_downloads := successful_downloads st;
     failed_downloads := failed_downloads st;
     dependencies_found := dependencies_found st;
     fetched := fetched st ++ [repo_key] |}.

(** [failed_repos.add(repo_key)] *)
Definition add_failed (repo_key : string) (st : globals) : globals :=
  {| processed_repos := processed_repos st;
     failed_repos := {[repo_key]} ∪ failed_repos st;
     dependency_graph := dependency_graph st;
     successful_downloads := successful_downloads st;
     failed_downloads := failed_downloads st;
     dependencies_found := dependencies_found st;
     fetched := fetched st |}.

(** [stats['failed_downloads'] += 1] *)
Definition count_failure (st : globals) : globals :=
  {| processed_repos := processed_repos st; failed_repos := failed_repos st;
     dependency_graph := dependency_graph st;
     successful_downloads := successful_downloads st;
     failed_downloads := S (failed_downloads st);
     dependencies_found := dependencies_found st;
     fetched := fetched st |}.

(** The [except] branch once [repo_key] is bound. *)
Definition on_exception (repo_key : string) (st : globals) : globals :=
  count_failure (add_failed repo_key st).

(** [processed_repos.add(repo_key); stats['successful_downloads'] += 1] *)
Definition add_processed (repo_key : string) (st : globals) : globals :=
  {| processed_repos := {[repo_key]} ∪ processed_repos st;
     failed_repos := failed_repos st;
     dependency_graph := dependency_graph st;
     successful_downloads := S (successful_downloads st);
     failed_downloads := failed_downloads st;
     dependencies_found := dependencies_found st;
     fetched := fetched st |}.

(** [stats['dependencies_found'] += len(dependencies)], and the empty
    list under [repo_key] when [dependency_graph] has no such key. *)
Definition found_dependencies (repo_key : string) (n : nat) (st : globals) : globals :=
  {| processed_repos := processed_repos st; failed_repos := failed_repos st;
     dependency_graph :=
       match dependency_graph st !! repo_key with
       | Some _ => dependency_graph st
       | None => <[repo_key := []]> (dependency_graph st)
       end;
     successful_downloads := successful_downloads st;
     failed_downloads := failed_downloads st;
     dependencies_found := dependencies_found st + n;
     fetched := fetched st |}.

(** [dependency_graph[repo_key].append(dep_key)]; the key is there. *)
Definition add_edge (repo_key dep_key : string) (st : globals) : globals :=
  {| processed_repos := processed_repos st; failed_repos := failed_repos st;
     dependency_graph := alter (fun deps => deps ++ [dep_key]) repo_key (dependency_graph st);
     successful_downloads := successful_downloads st;
     failed_downloads := failed_downloads st;
     dependencies_found := dependencies_found st;
     fetched := fetched st |}.

(** The loop over the dependencies of [repo_key].  [recur] is the
    recursive call.  The answer holds [true] when the loop ran to its
    end and [false] when an exception left it, with the state reached;
    [None] when the recursion ran out of fuel. *)
Fixpoint resolve_dependencies (recur : string -> globals -> option (bool * globals))
    (repo_key : string) (dependencies : list string) (st : globals)
  : option (bool * globals) :=
  match dependencies with
  | [] => Some (true, st)
  | dep_url :: rest =>
      match repo_key_of dep_url with
      | Ok (Some dep_key) =>
          match recur dep_url (add_edge repo_key dep_key st) with
          | Some (_, st') => resolve_dependencies recur repo_key rest st'
          | None => None
          end
      | Ok None => resolve_dependencies recur repo_key rest st
      | Raise => Some (false, st)
      end
  end.

(** What [download_package_swift] returns once the loop is over. *)
Definition after_dependencies (repo_key : string) (r : option (bool * globals))
  : option (bool * globals) :=
  match r with
  | Some (true, st) => Some (true, st)
  | Some (false, st) => Some (false, on_exception repo_key st)
  | None => None
  end.

(** [download_package_swift(github_url, root_repo_key, depth)].  The
    arguments [root_repo_key] and [depth] only choose the directory the
    manifest is stored in and the indentation of what is printed; they
    are left out.  The answer is the Boolean returned and the state;
    [fuel] is the depth the recursion may reach, and [None] stands for a
    recursion that goes deeper. *)
Fixpoint download_package_swift (fetch : string -> fetch_result) (fuel : nat)
    (github_url : string) (st : globals) : option (bool * globals) :=
  match fuel with
  | 0 => None
  | S fuel' =>
      match repo_key_of github_url with
      | Raise => Some (false, count_failure st)
      | Ok None => Some (false, st)
      | Ok (Some repo_key) =>
          if bool_decide (repo_key ∈ processed_repos st ∨ repo_key ∈ failed_repos st)
          then Some (true, st)
          else
            let st := log_fetch repo_key st in
            match fetch repo_key with
            | NoManifest => Some (false, add_failed repo_key st)
            | FetchFailed => Some (false, on_exception repo_key st)
            | Manifest content =>
                let st := add_processed repo_key st in
                match extract_dependencies_from_content content with
                | Raise => Some (false, on_exception repo_key st)
                | Ok [] => Some (true, st)
                | Ok dependencies =>
                    after_dependencies repo_key
                      (resolve_dependencies (download_package_swift fetch fuel')
                         repo_key dependencies
                         (found_dependencies repo_key (length dependencies) st))
                end
            end
      end
  end.

(** [process_all_repositories] over the locators of the seed list.  The
    call of [extract_repo_info] stands outside any [try]: when it raises
    the run ends there ([Raise]). *)
Fixpoint process_all_repositories (fetch : string -> fetch_result) (fuel : nat)
    (urls : list string) (st : globals) : option (py globals) :=
  match urls with
  | [] => Some (Ok st)
  | github_url :: urls' =>
      match repo_key_of github_url with
      | Raise => Some Raise
      | Ok (Some _) =>
          match download_package_swift fetch fuel github_url st with
          | Some (_, st') => process_all_repositories fetch fuel urls' st'
          | None => None
          end
      | Ok None => process_all_repositories fetch fuel urls' st
      end
  end.

(** ** [dependency_graph_analyzer.py]: the graph model *)

(** [d[k]] on a [defaultdict(list)]: the list under [k], and the
    dictionary afterwards, which has gained the key when it was missing. *)
Definition getitem (d : gmap string (list string)) (k : string)
  : list string * gmap string (list string) :=
  match d !! k with
  | Some l => (l, d)
  | None => ([], <[k := []]> d)
  end.

(** [d.get(k, [])], which leaves [d] alone. *)
Definition adj (d : gmap string (list string)) (k : string) : list string :=
  default [] (d !! k).

(** [d[k].append(x)] on a [defaultdict(list)] *)
Definition append_item (d : gmap string (list string)) (k x : string)
  : gmap string (list string) :=
  <[k := adj d k ++ [x]]> d.

Record statistics : Type := Statistics {
  total_nodes : nat;
  total_edges : nat;
  root_packages : nat;
  leaf_packages : nat;
  max_depth : nat;
  circular_dependencies : list (list string)
}.

Record analyzer : Type := Analyzer {
  graph : gmap string (list string);
  reverse_graph : gmap string (list string);
  nodes : list string;
  package_info : gmap string manifest_info;
  stats : statistics
}.

(** The analyzer as [__init__] leaves it. *)
Definition new_analyzer : analyzer :=
  {| graph := ∅; reverse_graph := ∅; nodes := []; package_info := ∅;
     stats := {| total_nodes := 0; total_edges := 0; root_packages := 0;
                 leaf_packages := 0; max_depth := 0;
                 circular_dependencies := [] |} |}.

(** *** Scanning the directory of stored manifests *)

(** A directory entry under a root directory: its name, whether it is a
    directory, and its [Package.swift]: [None] when there is none,
    [Some None] when it cannot be read, [Some (Some text)] otherwise. *)
Record package_entry : Type := PackageEntry {
  entry_name : string;
  entry_isdir : bool;
  entry_manifest : option (option string)
}.

(** An entry of the base directory. *)
Record root_entry : Type := RootEntry {
  root_name : string;
  root_isdir : bool;
  root_listing : list package_entry
}.

(** The loop over the dependencies of one parsed manifest. *)
Definition add_dependency (repo_key : string) (a : analyzer) (dep : string) : analyzer :=
  {| graph := append_item (graph a) repo_key dep;
     reverse_graph := append_item (reverse_graph a) dep repo_key;
     nodes := set_add dep (nodes a);
     package_info := package_info a;
     stats := stats a |}.

(** The body of the inner loop of [scan_directory_structure]. *)
Definition scan_package (a : analyzer) (e : package_entry) : analyzer :=
  if entry_isdir e then
    let repo_key := Py.str (Py.replace "_" "/" (Py.chars (entry_name e))) in
    match entry_manifest e with
    | Some file =>
        let info := parse_package_swift file in
        let a1 :=
          {| graph := graph a; reverse_graph := reverse_graph a;
             nodes := set_add repo_key (nodes a);
             package_info := <[repo_key := info]> (package_info a);
             stats := stats a |} in
        fold_left (add_dependency repo_key) (dependencies info) a1
    | None => a
    end
  else a.

(** [scan_directory_structure]; [base_dir] is [None] when the directory
    does not exist. *)
Definition scan_directory_structure (base_dir : option (list root_entry))
    (a : analyzer) : analyzer :=
  match base_dir with
  | None => a
  | Some listing =>
      let root_dirs :=
        List.filter (fun d => root_isdir d &&
                       negb (Py.starts_with (Py.chars ".") (Py.chars (root_name d))))
                    listing in
      fold_left (fun a d => fold_left scan_package (root_listing d) a) root_dirs a
  end.

(** *** Metrics *)

(** [[node for node in ns if len(d[node]) == 0]] on a
    [defaultdict(list)], with the dictionary afterwards. *)
Fixpoint select_empty (d : gmap string (list string)) (ns : list string)
  : list string * gmap string (list string) :=
  match ns with
  | [] => ([], d)
  | node :: ns' =>
      let '(l, d1) := getitem d node in
      let '(sel, d2) := select_empty d1 ns' in
      (match l with [] => node :: sel | _ => sel end, d2)
  end.

(** The [while queue:] loop of [calculate_depth_from_node]. *)
Fixpoint bfs_loop (fuel : nat) (g : gmap string (list string))
    (queue : list (string * nat)) (visited : gset string) (max_depth : nat)
  : option (nat * gmap string (list string)) :=
  match fuel with
  | 0 => None
  | S fuel' =>
      match queue with
      | [] => Some (max_depth, g)
      | (node, depth) :: queue' =>
          if bool_decide (node ∈ visited) then
            bfs_loop fuel' g queue' visited max_depth
          else
            let visited := {[node]} ∪ visited in
            let max_depth := Nat.max max_depth depth in
            let '(deps, g') := getitem g node in
            let fresh := List.filter (fun d => negb (bool_decide (d ∈ visited))) deps in
            bfs_loop fuel' g' (queue' ++ List.map (fun d => (d, depth + 1)) fresh)
              visited max_depth
      end
  end.

(** [calculate_depth_from_node] *)
Definition calculate_depth_from_node (fuel : nat) (g : gmap string (list string))
    (start_node : string) : option (nat * gmap string (list string)) :=
  match g !! start_node with
  | None => Some (0, g)
  | Some _ => bfs_loop fuel g [(start_node, 0)] ∅ 0
  end.

(** The loop over the roots in [calculate_graph_metrics]. *)
Fixpoint depth_over_roots (fuel : nat) (g : gmap string (list string))
    (roots : list string) (max_depth : nat)
  : option (nat * gmap string (list string)) :=
  match roots with
  | [] => Some (max_depth, g)
  | root :: roots' =>
      match calculate_depth_from_node fuel g root with
      | Some (depth, g') => depth_over_roots fuel g' roots' (Nat.max max_depth depth)
      | None => None
      end
  end.

(** *** Cycles *)

Record dfs_state : Type := DfsState {
  visited : gset string;
  rec_stack : gset string;
  cycles : list (list string)
}.

(** [path.index(node)] *)
Fixpoint index_of (node : string) (path : list string) : option nat :=
  match path with
  | [] => None
  | x :: path' =>
      if bool_decide (x = node) then Some 0 else S <$> index_of node path'
  end.

(** The loop over the neighbours in [dfs]; [recur] is the recursive
    call, and every neighbour gets a copy of [path]. *)
Fixpoint dfs_neighbors (recur : string -> list string -> dfs_state -> option (py dfs_state))
    (neighbors : list string) (path : list string) (st : dfs_state)
  : option (py dfs_state) :=
  match neighbors with
  | [] => Some (Ok st)
  | neighbor :: rest =>
      match recur neighbor path st with
      | Some (Ok st') => dfs_neighbors recur rest path st'
      | r => r
      end
  end.

(** The inner function [dfs(node, path)] of
    [detect_circular_dependencies].  [path.index] and [rec_stack.remove]
    raise on a missing element.  [fuel] is the depth the recursion may
    reach, the same for every neighbour: [None] stands for a recursion
    that goes deeper, which in Python ends in a RecursionError that
    nothing in the program catches. *)
Fixpoint dfs (g : gmap string (list string)) (fuel : nat) (node : string)
    (path : list string) (st : dfs_state) : option (py dfs_state) :=
  match fuel with
  | 0 => None
  | S fuel' =>
      if bool_decide (node ∈ rec_stack st) then
        match index_of node path with
        | Some cycle_start =>
            Some (Ok {| visited := visited st; rec_stack := rec_stack st;
                        cycles := cycles st ++ [drop cycle_start path ++ [node]] |})
        | None => Some Raise
        end
      else if bool_decide (node ∈ visited st) then Some (Ok st)
      else
        let st1 := {| visited := {[node]} ∪ visited st;
                      rec_stack := {[node]} ∪ rec_stack st;
                      cycles := cycles st |} in
        match dfs_neighbors (dfs g fuel') (adj g node) (path ++ [node]) st1 with
        | Some (Ok st2) =>
            if bool_decide (node ∈ rec_stack st2) then
              Some (Ok {| visited := visited st2;
                          rec_stack := rec_stack st2 ∖ {[node]};
                          cycles := cycles st2 |})
            else Some Raise
        | r => r
        end
  end.

(** The loop [for node in self.nodes] of [detect_circular_dependencies]. *)
Fixpoint dfs_from_all (g : gmap string (list string)) (fuel : nat)
    (ns : list string) (st : dfs_state) : option (py dfs_state) :=
  match ns with
  | [] => Some (Ok st)
  | node :: ns' =>
      if bool_decide (node ∈ visited st) then dfs_from_all g fuel ns' st
      else
        match dfs g fuel node [] st with
        | Some (Ok st') => dfs_from_all g fuel ns' st'
        | r => r
        end
  end.

(** [detect_circular_dependencies] *)
Definition detect_circular_dependencies (fuel : nat) (g : gmap string (list string))
    (ns : list string) : option (py (list (list string))) :=
  match dfs_from_all g fuel ns {| visited := ∅; rec_stack := ∅; cycles := [] |} with
  | Some (Ok st) => Some (Ok (cycles st))
  | Some Raise => Some Raise
  | None => None
  end.

(** [sum(len(deps) for deps in self.graph.values())] *)
Definition count_edges (g : gmap string (list string)) : nat :=
  map_fold (fun _ deps n => length deps + n) 0 g.

(** [calculate_graph_metrics] *)
Definition calculate_graph_metrics (fuel : nat) (a : analyzer) : option (py analyzer) :=
  let n_nodes := length (nodes a) in
  let n_edges := count_edges (graph a) in
  let '(roots, rg1) := select_empty (reverse_graph a) (nodes a) in
  let '(leaves, g1) := select_empty (graph a) (nodes a) in
  match depth_over_roots fuel g1 roots 0 with
  | None => None
  | Some (depth, g2) =>
      match detect_circular_dependencies fuel g2 (nodes a) with
      | None => None
      | Some Raise => Some Raise
      | Some (Ok found) =>
          Some (Ok {| graph := g2; reverse_graph := rg1; nodes := nodes a;
                      package_info := package_info a;
                      stats := {| total_nodes := n_nodes; total_edges := n_edges;
                                  root_packages := length roots;
                                  leaf_packages := length leaves;
                                  max_depth := depth;
                                  circular_dependencies := found |} |})
      end
  end.


(** ** [main.py]: where a manifest is stored *)

Module Os.

(** One step of [posixpath.join]: a component that starts with the
    separator replaces what was joined so far. *)
Definition join_step (path b : string) : string :=
  if Py.starts_with (Py.chars "/") (Py.chars b) then b
  else if negb (Py.truthy path) || Py.ends_with (Py.chars "/") (Py.chars path)
       then path +:+ b
       else path +:+ "/" +:+ b.

(** [os.path.join(a, *p)] on a POSIX system. *)
Definition join (a : string) (p : list string) : string :=
  fold_left join_step p a.

End Os.

Definition base_dir : string := "all_dependencies_tree".

(** [create_directory_path] *)
Definition create_directory_path (repo_key root_repo_key : string) : string :=
  let safe_root := Py.str (Py.replace "/" "_" (Py.chars root_repo_key)) in
  let safe_name := Py.str (Py.replace "/" "_" (Py.chars repo_key)) in
  Os.join base_dir [safe_root; safe_name].

(** ** [main.py]: the branch a manifest is fetched from *)

(** What the hosting service answers about one repository: its default
    branch ([Raise] when reading the attribute raises or gives [None],
    which [download_package_swift] treats alike), and for a branch
    the decoded text of the [Package.swift] on it: [None] when
    [get_contents] raises, [Some Raise] when the file is there and
    decoding or storing it raises. *)
Record repository : Type := Repository {
  default_branch : py string;
  get_contents : string → option (py string)
}.

(** [get_default_branch] *)
Definition get_default_branch (repository : repository) : option string :=
  match default_branch repository with
  | Ok branch => Some branch
  | Raise => None
  end.

(** [branches_to_try], as [download_package_swift] builds it. *)
Definition branches_to_try (repository : repository) : list string :=
  let branches_to_try :=
    match get_default_branch repository with
    | Some default_branch => if Py.truthy default_branch then [default_branch] else []
    | None => []
    end in
  fold_left (fun l branch => if bool_decide (branch ∈ l) then l else l ++ [branch])
    ["main"; "master"] branches_to_try.

(** The loop over the branches: the file of the first branch that has
    one, and that branch. *)
Fixpoint first_package_file (repository : repository) (branches : list string)
  : option (py string * string) :=
  match branches with
  | [] => None
  | branch :: rest =>
      match get_contents repository branch with
      | Some package_file => Some (package_file, branch)
      | None => first_package_file repository rest
      end
  end.

(** The part of [download_package_swift] between the test of the two
    sets and the extraction of the dependencies: [get_repo] is the
    service, which can raise. *)
Definition fetch_manifest (get_repo : string → py repository) (repo_key : string)
  : fetch_result :=
  match get_repo repo_key with
  | Raise => FetchFailed
  | Ok repository =>
      match first_package_file repository (branches_to_try repository) with
      | None => NoManifest
      | Some (Ok content, _) => Manifest content
      | Some (Raise, _) => FetchFailed
      end
  end.

(** ** The order of texts *)

(** [a <= b] on texts, as Python compares them: character by character,
    by code, a text before the ones it starts. *)
Definition str_le (a b : string) : Prop := String.leb a b = true.

#[global] Instance str_le_dec (a b : string) : Decision (str_le a b).
Proof. unfold str_le. apply _. Defined.

(** [sorted(l)] for texts: a list has one sorted arrangement, which a
    merge sort builds. *)
Definition sorted (l : list string) : list string := merge_sort str_le l.

(** ** [generate_graph_json] *)

Module Node.
(** An entry of [nodes_data]. *)
Record info : Type := Info {
  id : string;
  package_name : option string;
  has_package_swift : bool;
  dependencies_count : nat;
  dependents_count : nat;
  is_root : bool;
  is_leaf : bool
}.
End Node.

Module Edge.
(** An entry of [edges_data]. *)
Record info : Type := Info {
  id : nat;
  source : string;
  target : string
}.
End Edge.

Module Json.
(** The dictionary [graph_data] that is written to the file.  The time
    of writing in [metadata] is left out. *)
Record graph_data : Type := GraphData {
  description : string;
  base_directory : string;
  statistics : statistics;
  nodes : list Node.info;
  edges : list Edge.info;
  adjacency_list : gmap string (list string);
  reverse_adjacency_list : gmap string (list string)
}.
End Json.

(** The dictionary [node_info] of one node, and the analyzer after the
    reads of its two [defaultdict]s. *)
Definition node_info (a : analyzer) (node : string) : Node.info * analyzer :=
  let '(deps, g) := getitem (graph a) node in
  let '(dependents, rg) := getitem (reverse_graph a) node in
  ({| Node.id := node;
      Node.package_name := info ← package_info a !! node; package_name info;
      Node.has_package_swift := bool_decide (is_Some (package_info a !! node));
      Node.dependencies_count := length deps;
      Node.dependents_count := length dependents;
      Node.is_root := bool_decide (length dependents = 0);
      Node.is_leaf := bool_decide (length deps = 0) |},
   {| graph := g; reverse_graph := rg; nodes := nodes a;
      package_info := package_info a; stats := stats a |}).

(** The loop [for node in sorted(self.nodes)]. *)
Fixpoint nodes_data (ns : list string) (a : analyzer) : list Node.info * analyzer :=
  match ns with
  | [] => ([], a)
  | node :: rest =>
      let '(info, a1) := node_info a node in
      let '(infos, a2) := nodes_data rest a1 in
      (info :: infos, a2)
  end.

(** The loop [for target in targets]; [edge_id] counts on. *)
Fixpoint edges_to (source : string) (targets : list string) (edge_id : nat)
    (edges_data : list Edge.info) : list Edge.info * nat :=
  match targets with
  | [] => (edges_data, edge_id)
  | target :: rest =>
      edges_to source rest (S edge_id)
        (edges_data ++ [ {| Edge.id := edge_id; Edge.source := source;
                            Edge.target := target |} ])
  end.

(** The loop [for source, targets in self.graph.items()]. *)
Fixpoint edges_data (items : list (string * list string)) (edge_id : nat)
    (edges : list Edge.info) : list Edge.info :=
  match items with
  | [] => edges
  | (source, targets) :: rest =>
      let '(edges, edge_id) := edges_to source targets edge_id edges in
      edges_data rest edge_id edges
  end.

(** [generate_graph_json].  The file is opened in [base_dir], which
    raises when the directory is not there ([exists = false]).  A Python
    dictionary lists its items in the order they were inserted, a [gmap]
    in an order of its own: the edges come out source by source in the
    order of [map_to_list], and nothing proved below depends on which
    source comes first. *)
Definition generate_graph_json (exists_base_dir : bool) (a : analyzer)
  : py (Json.graph_data * analyzer) :=
  let '(nodes, a1) := nodes_data (sorted (nodes a)) a in
  let edges := edges_data (map_to_list (graph a1)) 0 [] in
  if exists_base_dir then
    Ok ({| Json.description := "Swift Package Manager Dependency Graph Analysis";
           Json.base_directory := "all_dependencies_tree";
           Json.statistics := stats a1;
           Json.nodes := nodes;
           Json.edges := edges;
           Json.adjacency_list := graph a1;
           Json.reverse_adjacency_list := reverse_graph a1 |}, a1)
  else Raise.

(** ** [generate_summary_report] *)

(** The end of a line. *)
Definition nl : string := String "010" EmptyString.

(** [sep.join(l)] *)
Fixpoint join (sep : string) (l : list string) : string :=
  match l with
  | [] => ""
  | [x] => x
  | x :: rest => x +:+ sep +:+ join sep rest
  end.

(** Putting an entry in its place in a list held by decreasing count:
    before the first entry whose count is not greater. *)
Fixpoint insert_by_count (x : string * nat) (l : list (string * nat))
  : list (string * nat) :=
  match l with
  | [] => [x]
  | y :: rest => if y.2 <=? x.2 then x :: l else y :: insert_by_count x rest
  end.

(** [l.sort(key=lambda x: x[1], reverse=True)]: by decreasing count, the
    entries of one count in the order they had. *)
Definition sort_by_count (l : list (string * nat)) : list (string * nat) :=
  fold_right insert_by_count [] l.

(** [[(node, len(deps)) for node, deps in d.items()]], sorted, and its
    first ten entries. *)
Definition top_ten (d : gmap string (list string)) : list (string * nat) :=
  take 10 (sort_by_count (List.map (fun '(node, deps) => (node, length deps))
                            (map_to_list d))).

(** The numbered lines of a top-ten list. *)
Definition top_ten_lines (what : string) (l : list (string * nat)) : list string :=
  imap (fun i '(node, count) =>
          pretty (S i) +:+ ". **" +:+ node +:+ "**: " +:+ pretty count +:+ " "
          +:+ what +:+ nl) l.

(** The lines of a list of packages, each with a count read from [d]. *)
Fixpoint count_lines (what : string) (d : gmap string (list string))
    (ns : list string) : list string * gmap string (list string) :=
  match ns with
  | [] => ([], d)
  | node :: rest =>
      let '(l, d1) := getitem d node in
      let '(lines, d2) := count_lines what d1 rest in
      (("- **" +:+ node +:+ "**: " +:+ pretty (length l) +:+ " " +:+ what +:+ nl)
         :: lines, d2)
  end.

(** The section on circular dependencies. *)
Definition cycle_lines (found : list (list string)) : list string :=
  match found with
  | [] =>
      [nl +:+ "## Circular Dependencies" +:+ nl +:+ nl;
       "✅ No circular dependencies detected!" +:+ nl]
  | _ =>
      (nl +:+ "## Circular Dependencies (" +:+ pretty (length found) +:+ ")" +:+ nl +:+ nl)
      :: imap (fun i cycle => pretty (S i) +:+ ". " +:+ join " → " cycle +:+ nl) found
  end.

(** [generate_summary_report]: what is written to the file, one text for
    each call of [f.write], and the analyzer afterwards.  [generated] is
    the time as [time.strftime] gives it.  The file is opened in the
    directory in which [generate_graph_json] has just written its own:
    [run_analysis] comes here only when that directory is there. *)
Definition generate_summary_report (generated : string) (a : analyzer)
  : list string * analyzer :=
  let s := stats a in
  let head :=
    ["# Swift Package Dependency Graph Analysis Report" +:+ nl +:+ nl;
     "**Generated**: " +:+ generated +:+ nl +:+ nl;
     "## Graph Statistics" +:+ nl +:+ nl;
     "- **Total Nodes (Repositories)**: " +:+ pretty (total_nodes s) +:+ nl;
     "- **Total Edges (Dependencies)**: " +:+ pretty (total_edges s) +:+ nl;
     "- **Root Packages**: " +:+ pretty (root_packages s) +:+ nl;
     "- **Leaf Packages**: " +:+ pretty (leaf_packages s) +:+ nl;
     "- **Maximum Dependency Depth**: " +:+ pretty (max_depth s) +:+ nl;
     "- **Circular Dependencies**: " +:+ pretty (length (circular_dependencies s))
       +:+ nl +:+ nl;
     "## Most Depended Upon Packages (Top 10)" +:+ nl +:+ nl] in
  let most_depended := top_ten_lines "dependents" (top_ten (reverse_graph a)) in
  let most_depending := top_ten_lines "dependencies" (top_ten (graph a)) in
  let '(root_packages, rg1) := select_empty (reverse_graph a) (nodes a) in
  let '(root_lines, g1) := count_lines "dependencies" (graph a) (sorted root_packages) in
  let '(leaf_packages, g2) := select_empty g1 (nodes a) in
  let '(leaf_lines, rg2) := count_lines "dependents" rg1 (sorted leaf_packages) in
  (head ++ most_depended
   ++ [nl +:+ "## Packages with Most Dependencies (Top 10)" +:+ nl +:+ nl]
   ++ most_depending
   ++ cycle_lines (circular_dependencies s)
   ++ [nl +:+ "## Root Packages (No Dependencies From Others)" +:+ nl +:+ nl]
   ++ root_lines
   ++ [nl +:+ "## Leaf Packages (No Dependencies To Others)" +:+ nl +:+ nl]
   ++ leaf_lines,
   {| graph := g2; reverse_graph := rg2; nodes := nodes a;
      package_info := package_info a; stats := stats a |}).

(** [run_analysis]: the scan, the metrics, the JSON file and the
    report.  [base_dir] is the stored tree, [None] when the directory is
    not there. *)
Definition run_analysis (fuel : nat) (generated : string)
    (base_dir : option (list root_entry))
  : option (py (Json.graph_data * list string * analyzer)) :=
  let a := scan_directory_structure base_dir new_analyzer in
  match calculate_graph_metrics fuel a with
  | None => None
  | Some Raise => Some Raise
  | Some (Ok a1) =>
      Some (r ← generate_graph_json (bool_decide (is_Some base_dir)) a1;
            let '(report, a3) := generate_summary_report generated r.2 in
            Ok (r.1, report, a3))
  end.

(** * Specification *)

(** The locators of the dependencies section of a manifest, as both
    parsers first find them. *)
Definition section_urls (content : string) : list string :=
  match Re.search Pat.dependencies content with
  | Some m => declared_urls (default "" (Re.group 1 (Re.groups m)))
  | None => []
  end.

Definition resolved (st : globals) (k : string) : Prop :=
  k ∈ processed_repos st ∨ k ∈ failed_repos st.

Definition fetch_once (st : globals) : Prop :=
  NoDup (fetched st) ∧ ∀ k, k ∈ fetched st → resolved st k.

Definition edges_closed (pending : option string) (st : globals) : Prop :=
  ∀ src tgt, tgt ∈ adj (dependency_graph st) src →
    src ∈ processed_repos st ∧ (resolved st tgt ∨ pending = Some tgt).

Record extends (x : option string) (st st' : globals) : Prop := Extends {
  ext_processed : processed_repos st ⊆ processed_repos st';
  ext_failed : failed_repos st ⊆ failed_repos st';
  ext_once : fetch_once st → fetch_once st';
  ext_frame : ∀ k, k ∈ processed_repos st → x ≠ Some k →
    dependency_graph st' !! k = dependency_graph st !! k
}.

Definition dep_keys (dependencies : list string) : list string :=
  omap (fun url => match repo_key_of url with Ok k => k | Raise => None end) dependencies.

Definition fetch_of (world : gmap string fetch_result) (repo_key : string) : fetch_result :=
  default NoManifest (world !! repo_key).

(** What a call of [download_package_swift] guarantees. *)
Definition call_sound (recur : string → globals → option (bool * globals)) : Prop :=
  ∀ url st b st', recur url st = Some (b, st') →
    extends None st st'
    ∧ (∀ k, repo_key_of url = Ok (Some k) → resolved st' k)
    ∧ (∀ pending, edges_closed pending st →
         (∀ k, pending = Some k → repo_key_of url = Ok (Some k)) →
         edges_closed None st').


(** ** The graph of the analyzer *)

(** Every edge of the two adjacency maps joins two members of the node
    set. *)
Definition no_dangling (a : analyzer) : Prop :=
  (∀ src tgt, tgt ∈ adj (graph a) src → src ∈ nodes a ∧ tgt ∈ nodes a)
  ∧ (∀ tgt src, src ∈ adj (reverse_graph a) tgt → src ∈ nodes a ∧ tgt ∈ nodes a).

(** Two dictionaries with the same edges: the second keeps every entry
    of the first, and whatever keys it has more hold the empty list. *)
Definition same_edges (d d' : gmap string (list string)) : Prop :=
  d ⊆ d' ∧ ∀ k, adj d' k = adj d k.

(** Each element of [l] has an edge to the next one. *)
Fixpoint chain (g : gmap string (list string)) (l : list string) : Prop :=
  match l with
  | u :: l' =>
      match l' with
      | v :: _ => v ∈ adj g u ∧ chain g l'
      | [] => True
      end
  | [] => True
  end.

(** A closed walk: at least two elements, the first equal to the last,
    an edge between any two consecutive ones. *)
Definition closed_walk (g : gmap string (list string)) (c : list string) : Prop :=
  2 ≤ length c ∧ head c = last c
  ∧ ∀ i u v, c !! i = Some u → c !! S i = Some v → v ∈ adj g u.

(** [walk g s v n]: [n] edges lead from [s] to [v]. *)
Inductive walk (g : gmap string (list string)) (s : string) : string → nat → Prop :=
| walk_here : walk g s s 0
| walk_step u v n : walk g s u n → v ∈ adj g u → walk g s v (S n).

(** [dist g s v d]: the shortest walk from [s] to [v] has [d] edges. *)
Definition dist (g : gmap string (list string)) (s v : string) (d : nat) : Prop :=
  walk g s v d ∧ ∀ n, walk g s v n → d ≤ n.

(** A root: a node with nothing in the reverse adjacency. *)
Definition is_root (a : analyzer) (r : string) : Prop :=
  r ∈ nodes a ∧ adj (reverse_graph a) r = [].

(** What [dfs] needs of the path and the state it is called with. *)
Record dfs_pre (g : gmap string (list string)) (path : list string)
    (st : dfs_state) : Prop := DfsPre {
  pre_nodup : NoDup path;
  pre_stack : ∀ x, x ∈ path ↔ x ∈ rec_stack st;
  pre_chain : chain g path;
  pre_cycles : Forall (closed_walk g) (cycles st)
}.

(** What [dfs] guarantees of the state it returns. *)
Record dfs_post (g : gmap string (list string)) (st st' : dfs_state) : Prop := DfsPost {
  post_stack : rec_stack st' = rec_stack st;
  post_visited : visited st ⊆ visited st';
  post_cycles : Forall (closed_walk g) (cycles st')
}.

(** The identifiers a traversal over [g] from the nodes [ns] can meet. *)
Definition graph_nodes (g : gmap string (list string)) (ns : list string) : gset string :=
  list_to_set (ns ++ mjoin ((map_to_list g).*2)).

(** The graph with the edges A->B, B->C, C->A. *)
Definition triangle : gmap string (list string) :=
  <["A" := ["B"]]> (<["B" := ["C"]]> (<["C" := ["A"]]> ∅)).

(** The queue of the breadth-first traversal holds the entries of one
    depth followed by those of the next. *)
Definition levels (q : list (string * nat)) : Prop :=
  ∃ D q1 q2, q = q1 ++ q2 ∧ Forall (fun e => e.2 = D) q1
             ∧ Forall (fun e => e.2 = S D) q2.

(** The invariant of the loop of [calculate_depth_from_node] started at
    [s], over the edges of [g0]. *)
Record bfs_inv (g0 : gmap string (list string)) (s : string)
    (q : list (string * nat)) (vis : gset string) (md : nat) : Prop := BfsInv {
  inv_walk : ∀ u d, (u, d) ∈ q → walk g0 s u d;
  inv_levels : levels q;
  inv_visited : ∀ p, p ∈ vis →
    ∃ dp, dist g0 s p dp ∧ dp ≤ md
          ∧ ∀ u, u ∈ adj g0 p → u ∈ vis ∨ (u, S dp) ∈ q;
  inv_max : (vis = ∅ ∧ md = 0) ∨ ∃ p, p ∈ vis ∧ dist g0 s p md;
  inv_start : s ∈ vis ∨ (s, 0) ∈ q
}.

(** [m] is the largest distance from [s] to a node reachable from it. *)
Definition eccentricity (g : gmap string (list string)) (s : string) (m : nat) : Prop :=
  (∃ v, dist g s v m) ∧ ∀ v d, dist g s v d → d ≤ m.

(** [m] is the largest distance from a root to a node reachable from
    it, and 0 when there is no root. *)
Definition is_max_depth (a : analyzer) (m : nat) : Prop :=
  (∀ r v d, is_root a r → dist (graph a) r v d → d ≤ m)
  ∧ ((∃ r v, is_root a r ∧ dist (graph a) r v m)
     ∨ ((∀ r, ¬ is_root a r) ∧ m = 0)).

(** The two adjacency maps hold the same edges, one reversed. *)
Definition reverse_consistent (a : analyzer) : Prop :=
  ∀ src tgt, tgt ∈ adj (graph a) src ↔ src ∈ adj (reverse_graph a) tgt.

(** The identifier the analyzer gives a directory name:
    [package_dir.replace('_', '/')]. *)
Definition entry_key (e : package_entry) : string :=
  Py.str (Py.replace "_" "/" (Py.chars (entry_name e))).

(** ** Concrete inputs *)

(** Quoting, for writing manifests down. *)
Definition dq : string := String "034" EmptyString.
Definition quoted (s : string) : string := dq +:+ s +:+ dq.

(** A manifest that declares the given locators. *)
Definition manifest_of (urls : list string) : string :=
  "dependencies: [" +:+
  fold_right (fun url s => ".package(url: " +:+ quoted url +:+ ", from: " +:+ quoted "1.0.0" +:+ "), " +:+ s) "" urls
  +:+ "]".

(** A declaration of the repository foo/bar, with [rest] after the
    locator. *)
Definition declaration (rest : string) : string :=
  ".package(url: " +:+ quoted "https://github.com/foo/bar.git" +:+ ", " +:+ rest +:+ ")".

Definition from_1_0_0 : string := "from: " +:+ quoted "1.0.0".

(** The manifest of the specification's example. *)
Definition example_manifest : string :=
  "dependencies: [ " +:+ declaration from_1_0_0 +:+ " ]".

(** One repository spelled in two ways. *)
Definition two_spellings : string :=
  manifest_of ["https://github.com/foo/bar.git"; "https://github.com/foo/bar"].

(** The order in which the specification lists the patterns. *)
Definition specified_order : list (constraint_type * Re.re) :=
  [(c_exact, Pat.exact);
   (c_upToNextMajor, Pat.upToNextMajor);
   (c_upToNextMinor, Pat.upToNextMinor);
   (c_from, Pat.from);
   (c_range, Pat.range);
   (c_closedRange, Pat.closedRange);
   (c_rangeOperator, Pat.rangeOperator);
   (c_branch, Pat.branch);
   (c_revision, Pat.revision)].

(** A hosting service with two repositories that depend on each other,
    the first also on itself and on a repository without a manifest. *)
Definition cyclic_world : gmap string fetch_result :=
  <["a/a" := Manifest (manifest_of ["https://github.com/a/a"; "https://github.com/b/b";
                                     "https://github.com/b/b.git"])]>
  (<["b/b" := Manifest (manifest_of ["https://github.com/a/a"; "https://github.com/c/c"])]> ∅).

(** A stored tree holding one package.  [leaf_tree] holds a manifest
    without dependencies, [spelled_tree] the manifest [two_spellings]. *)
Definition tree_of (content : string) : option (list root_entry) :=
  Some [ {| root_name := "x_y"; root_isdir := true;
            root_listing := [ {| entry_name := "x_y"; entry_isdir := true;
                                 entry_manifest := Some (Some content) |} ] |} ].

Definition leaf_tree : option (list root_entry) := tree_of "// swift-tools-version:5.3".
Definition spelled_tree : option (list root_entry) := tree_of two_spellings.

Definition self_world : gmap string fetch_result :=
  <["a/a" := Manifest (manifest_of ["https://github.com/a/a"])]> ∅.

Definition self_tree : option (list root_entry) :=
  Some [ {| root_name := "a_a"; root_isdir := true;
            root_listing := [ {| entry_name := "a_a"; entry_isdir := true;
                                 entry_manifest :=
                                   Some (Some (manifest_of ["https://github.com/a/a"])) |} ] |} ].

(** A chain a -> b -> c with a shortcut a -> c, and [d] on its own. *)
Definition shortcut : analyzer :=
  {| graph := <["a" := ["b"; "c"]]> (<["b" := ["c"]]> ∅);
     reverse_graph := <["b" := ["a"]]> (<["c" := ["a"; "b"]]> ∅);
     nodes := ["a"; "b"; "c"; "d"];
     package_info := ∅;
     stats := stats new_analyzer |}.

(** The version patterns without the two that pin up to the next major
    or minor version. *)
Definition reachable_patterns : list (constraint_type * Re.re) :=
  [(c_from, Pat.from);
   (c_exact, Pat.exact);
   (c_range, Pat.range);
   (c_closedRange, Pat.closedRange);
   (c_rangeOperator, Pat.rangeOperator);
   (c_branch, Pat.branch);
   (c_revision, Pat.revision)].

(** * Further notions of the specification *)

(** ** Identifiers and directory names *)

(** A proper directory name: not empty, no separator in it, and neither
    of the two names that stand for the directory itself and its parent. *)
Definition component (d : string) : Prop :=
  d ≠ "" ∧ d ≠ "." ∧ d ≠ ".." ∧ "/"%char ∉ Py.chars d.

(** The characters a path can hold: no query or fragment mark, no tab and
    no line break. *)
Definition path_char (c : ascii) : Prop :=
  c ≠ "?"%char ∧ c ≠ "#"%char ∧ Url.unsafe_byte c = false.

(** One of the two parts of an identifier. *)
Definition segment (s : string) : Prop :=
  s ≠ "" ∧ "/"%char ∉ Py.chars s ∧ Forall path_char (Py.chars s).

(** The locator of a repository on the hosting service. *)
Definition github_url (owner repo : string) : string :=
  "https://github.com/" +:+ owner +:+ "/" +:+ repo.

(** What a path of the hosting service may hold for the splitter to
    leave it alone. *)
Definition plain_char (c : ascii) : Prop :=
  path_char c ∧ c ≠ ";"%char.

(** A part of an identifier that the splitter leaves alone. *)
Definition plain_segment (s : string) : Prop :=
  s ≠ "" ∧ "/"%char ∉ Py.chars s ∧ Forall plain_char (Py.chars s).

(** ** A hosting service that never runs out of repositories *)






(** ** What the resolver reaches *)

(** The identifiers the manifest of [k] declares, one for each locator
    that has one; none when [k] has no manifest.  The list follows
    [found_urls]; Python goes through the set in an order of its own,
    and what is stated of this list is stated up to the order. *)
Definition declared_by (fetch : string → fetch_result) (k : string) : list string :=
  match fetch k with
  | Manifest content =>
      match extract_dependencies_from_content content with
      | Ok deps => dep_keys deps
      | Raise => []
      end
  | _ => []
  end.

(** [k'] can be reached from a seed along declared dependencies. *)
Definition reachable (fetch : string → fetch_result) (urls : list string)
    (k : string) : Prop :=
  ∃ k0, k0 ∈ dep_keys urls ∧ rtc (fun a b => b ∈ declared_by fetch a) k0 k.

(** No manifest holds a locator on which the normalizer raises. *)
Definition no_malformed_locator (fetch : string → fetch_result) : Prop :=
  ∀ k content deps url,
    fetch k = Manifest content →
    extract_dependencies_from_content content = Ok deps →
    url ∈ deps → repo_key_of url ≠ Raise.

(** What a stretch of the run from [st] to [st'] has added, when all it
    did was to resolve identifiers reached from those in [start]. *)
Record news (fetch : string → fetch_result) (start : string → Prop)
    (st st' : globals) : Prop := News {
  new_processed : ∀ k, k ∈ processed_repos st' → k ∉ processed_repos st →
    (∃ c, fetch k = Manifest c)
    ∧ adj (dependency_graph st') k = declared_by fetch k;
  new_failed : ∀ k, k ∈ failed_repos st' → k ∉ failed_repos st →
    ∀ c, fetch k ≠ Manifest c;
  new_reached : ∀ k, resolved st' k →
    resolved st k ∨ ∃ k0, start k0 ∧ rtc (fun a b => b ∈ declared_by fetch a) k0 k
}.

Definition call_complete (fetch : string → fetch_result)
    (recur : string → globals → option (bool * globals)) : Prop :=
  ∀ url st b st' p,
    recur url st = Some (b, st') →
    edges_closed p st → (∀ k, p = Some k → repo_key_of url = Ok (Some k)) →
    news fetch (fun k0 => repo_key_of url = Ok (Some k0)) st st'.

(** ** The counters of the resolver *)

(** The counters of the run agree with the sets they count. *)
Definition counted (st : globals) : Prop :=
  successful_downloads st = size (processed_repos st).

(** [m] dependencies have been counted and not yet turned into edges. *)
Definition owing (m : nat) (st : globals) : Prop :=
  count_edges (dependency_graph st) + m ≤ dependencies_found st.

Definition call_counts (recur : string → globals → option (bool * globals)) : Prop :=
  ∀ url st b st', recur url st = Some (b, st') →
    (counted st → counted st') ∧ ∀ m, owing m st → owing m st'.

(** ** Cycles of the graph *)

(** [u] lies on a cycle of [g]. *)
Definition on_cycle (g : gmap string (list string)) (u : string) : Prop :=
  ∃ n, walk g u u (S n).

(** While no cycle has been reported, the nodes whose traversal is over
    lead only to nodes whose traversal is over, and none lies on a
    cycle. *)
Definition settled (g : gmap string (list string)) (st : dfs_state) : Prop :=
  cycles st = [] →
  ∀ u, u ∈ visited st → u ∉ rec_stack st →
    (∀ v, v ∈ adj g u → v ∈ visited st ∧ v ∉ rec_stack st) ∧ ¬ on_cycle g u.

(** What a call of [dfs] on [node] that returns [st'] from [st] has
    done. *)
Record dfs_done (g : gmap string (list string)) (node : string)
    (st st' : dfs_state) : Prop := DfsDone {
  done_stack : rec_stack st' = rec_stack st;
  done_visited : visited st ⊆ visited st';
  done_quiet : cycles st' = [] →
    cycles st = [] ∧ node ∉ rec_stack st ∧ node ∈ visited st';
  done_settled : settled g st → settled g st'
}.

(** ** The stored packages *)

(** The stored package a directory entry stands for, as its identifier
    and its parsed manifest; [None] for an entry the scan passes over. *)
Definition stored_package (e : package_entry) : option (string * manifest_info) :=
  if entry_isdir e
  then (fun file => (entry_key e, parse_package_swift file)) <$> entry_manifest e
  else None.

(** The stored packages of a tree, in the order of the scan. *)
Definition stored_packages (base_dir : option (list root_entry))
  : list (string * manifest_info) :=
  match base_dir with
  | None => []
  | Some listing =>
      flat_map (fun d => omap stored_package (root_listing d))
        (List.filter (fun d => root_isdir d &&
                        negb (Py.starts_with (Py.chars ".") (Py.chars (root_name d))))
                     listing)
  end.

(** What the scan does with one stored package. *)
Definition add_package (a : analyzer) (p : string * manifest_info) : analyzer :=
  fold_left (add_dependency p.1) (dependencies p.2)
    {| graph := graph a; reverse_graph := reverse_graph a;
       nodes := set_add p.1 (nodes a);
       package_info := <[p.1 := p.2]> (package_info a);
       stats := stats a |}.

(** The dependencies the stored packages named [k] declare, copy after
    copy. *)
Definition declared_in (ps : list (string * manifest_info)) (k : string) : list string :=
  flat_map (fun p => if decide (p.1 = k) then dependencies p.2 else []) ps.

(** The stored packages that declare [k], one entry for each copy. *)
Definition dependents_in (ps : list (string * manifest_info)) (k : string) : list string :=
  flat_map (fun p => if decide (k ∈ dependencies p.2) then [p.1] else []) ps.

(** ** The exported graph *)

(** The entry of a node as the edges of the analyzer give it. *)
Definition node_view (a : analyzer) (node : string) : Node.info :=
  {| Node.id := node;
     Node.package_name := info ← package_info a !! node; package_name info;
     Node.has_package_swift := bool_decide (is_Some (package_info a !! node));
     Node.dependencies_count := length (adj (graph a) node);
     Node.dependents_count := length (adj (reverse_graph a) node);
     Node.is_root := bool_decide (length (adj (reverse_graph a) node) = 0);
     Node.is_leaf := bool_decide (length (adj (graph a) node) = 0) |}.

(** The edges of a list of items, source by source. *)
Definition edge_pairs (items : list (string * list string)) : list (string * string) :=
  flat_map (fun p => List.map (pair p.1) p.2) items.

(** An analyzer with the same nodes, manifests and statistics, and the
    same edges. *)
Definition same_analyzer (a a' : analyzer) : Prop :=
  same_edges (graph a) (graph a') ∧ same_edges (reverse_graph a) (reverse_graph a')
  ∧ nodes a' = nodes a ∧ package_info a' = package_info a ∧ stats a' = stats a.

(** ** The ranking of the report *)

(** One entry comes before another in a list held by decreasing
    count. *)
Definition count_ge (x y : string * nat) : Prop := y.2 ≤ x.2.

(** ** More concrete inputs *)

(** A repository whose default branch has no manifest and whose [main]
    has one. *)
Definition on_main : repository :=
  {| default_branch := Ok "develop";
     get_contents := fun branch =>
       if bool_decide (branch = "main") then Some (Ok example_manifest) else None |}.

(** * The manifest parsers *)

Lemma match_here_literal p r s mark cs x :
  Re.match_here (List.map (fun c => Re.One (Re.chr c)) p ++ r) s mark cs = Some x →
  Py.starts_with p s = true.
Proof.
  revert s. induction p as [|a p IH]; intros s H; [done|].
  destruct s as [|b s]; simpl in H; [done|].
  unfold Re.chr in H at 1. simpl.
  destruct (Py.eqc a b); [|done]. simpl. eauto.
Qed.

Lemma search_from_literal p r s :
  Py.contains (Py.chars p) s = false →
  Re.search_from [Re.lit p ++ r] s = None.
Proof.
  induction s as [|b s IH]; intros H.
  - simpl in *. apply orb_false_elim in H as [H _].
    destruct (Re.match_here _ _ _ _) eqn:E; [|done].
    apply match_here_literal in E. congruence.
  - simpl in H. apply orb_false_elim in H as [H1 H2].
    cbn [Re.search_from Re.match_alts].
    destruct (Re.match_here _ _ _ _) eqn:E.
    + apply match_here_literal in E. congruence.
    + by apply IH.
Qed.

Lemma search_dependencies_none content :
  Py.contains (Py.chars "dependencies:") (Py.chars content) = false →
  Re.search Pat.dependencies content = None.
Proof. intros H. by apply (search_from_literal "dependencies:"). Qed.

Lemma found_repo_keys_raise urls found :
  found_repo_keys urls found = Raise →
  ∃ url, url ∈ urls ∧ mentions_github url = true ∧ extract_repo_info_from_url url = Raise.
Proof.
  revert found. induction urls as [|u urls IH]; intros found H; [done|].
  simpl in H. destruct (mentions_github u) eqn:G.
  - destruct (extract_repo_info_from_url u) as [[k|]|] eqn:E; simpl in H.
    + apply IH in H as (url & ? & ? & ?). exists url. set_solver.
    + apply IH in H as (url & ? & ? & ?). exists url. set_solver.
    + exists u. set_solver.
  - apply IH in H as (url & ? & ? & ?). exists url. set_solver.
Qed.

(** Claim C8.  A manifest that cannot be read or decoded is parsed into
    the record with [has_package_swift] false and no dependency, and
    parsing returns.  A text without the marker of the dependencies
    section is parsed with [has_package_swift] true and no dependency.
    [has_package_swift] is false only for a file that could not be read
    or for a text one of whose locators makes the URL parser raise; it
    is never false just because no dependency was found. *)
Theorem unreadable_manifest_is_not_empty_manifest :
  parse_package_swift None =
    {| dependencies := []; package_name := None; has_package_swift := false |}
  ∧ (∀ content,
       Py.contains (Py.chars "dependencies:") (Py.chars content) = false →
       has_package_swift (parse_package_swift (Some content)) = true
       ∧ dependencies (parse_package_swift (Some content)) = [])
  ∧ (∀ file,
       has_package_swift (parse_package_swift file) = false →
       dependencies (parse_package_swift file) = []
       ∧ (file = None
          ∨ ∃ content url,
              file = Some content ∧ url ∈ section_urls content
              ∧ mentions_github url = true
              ∧ extract_repo_info_from_url url = Raise)).
Proof.
  split; [done|]. split.
  - intros content H. unfold parse_package_swift, parse_content.
    by rewrite (search_dependencies_none _ H).
  - intros [content|] H; [|by split; [|left]].
    unfold parse_package_swift in *.
    destruct (parse_content content) as [info|] eqn:E.
    + unfold parse_content in E.
      destruct (match Re.search Pat.dependencies content with Some _ => _ | None => _ end);
        simpl in E; [|done]. injection E as <-. done.
    + split; [done|]. right. exists content.
      unfold parse_content in E. unfold section_urls.
      destruct (Re.search Pat.dependencies content) as [m|]; [|done].
      destruct (found_repo_keys _ _) eqn:F; [done|].
      apply found_repo_keys_raise in F as (url & ? & ? & ?). eauto.
Qed.

(** ** Matching a part of a pattern *)

Lemma greedy_success {R R'} p s (k : list ascii → option R) (k' : list ascii → option R') :
  (∀ t, is_Some (k t) → is_Some (k' t)) →
  is_Some (Re.greedy p s k) → is_Some (Re.greedy p s k').
Proof.
  intros Hk. induction s as [|c s IH]; simpl; [apply Hk|].
  destruct (p c); [|apply Hk].
  destruct (Re.greedy p s k) as [x|].
  - intros _. destruct IH as [y ->]; [eauto|]. eauto.
  - intros H. destruct (Re.greedy p s k'); [eauto|]. by apply Hk.
Qed.

Lemma lazy_success {R R'} p s (k : list ascii → option R) (k' : list ascii → option R') :
  (∀ t, is_Some (k t) → is_Some (k' t)) →
  is_Some (Re.lazy p s k) → is_Some (Re.lazy p s k').
Proof.
  intros Hk. induction s as [|c s IH]; simpl.
  - destruct (k []) as [x|] eqn:E; [|by intros [? ?]].
    intros _. destruct (Hk []) as [y ->]; [by rewrite E|]. eauto.
  - destruct (k (c :: s)) as [x|] eqn:E.
    + intros _. destruct (Hk (c :: s)) as [y ->]; [by rewrite E|]. eauto.
    + intros H. destruct (k' (c :: s)); [eauto|].
      destruct (p c); [by apply IH|done].
Qed.

Lemma greedy_reach {R} p s (k : list ascii → option R) :
  is_Some (Re.greedy p s k) → ∃ t, t `suffix_of` s ∧ is_Some (k t).
Proof.
  induction s as [|c s IH]; simpl; [by exists []|].
  destruct (p c); [|by exists (c :: s)].
  destruct (Re.greedy p s k) as [x|].
  - intros _. destruct IH as (t & Ht & Hk); [eauto|].
    exists t. split; [by apply suffix_cons_r|done].
  - by exists (c :: s).
Qed.

Lemma lazy_reach {R} p s (k : list ascii → option R) :
  is_Some (Re.lazy p s k) → ∃ t, t `suffix_of` s ∧ is_Some (k t).
Proof.
  induction s as [|c s IH]; simpl.
  - destruct (k []) as [x|] eqn:E; [|by intros [? ?]]. exists []. by rewrite E.
  - destruct (k (c :: s)) as [x|] eqn:E; [exists (c :: s); by rewrite E|].
    destruct (p c); [|by intros [? ?]].
    intros H. destruct (IH H) as (t & Ht & Hk).
    exists t. split; [by apply suffix_cons_r|done].
Qed.

(** Whether a match succeeds does not depend on the groups recorded. *)
Lemma match_here_success r :
  ∀ s mark cs mark' cs',
    is_Some (Re.match_here r s mark cs) → is_Some (Re.match_here r s mark' cs').
Proof.
  induction r as [|a r IH]; intros s mark cs mark' cs'; simpl; [eauto|].
  destruct a as [p|g least p|p| |i].
  - destruct s as [|c s]; [done|]. destruct (p c); [apply IH|done].
  - assert (Hk : ∀ t, is_Some (Re.match_here r t mark cs) →
                      is_Some (Re.match_here r t mark' cs')) by (intros t; apply IH).
    destruct least.
    + destruct s as [|c s]; [done|]. destruct (p c); [|done].
      destruct g; [by apply greedy_success|by apply lazy_success].
    + destruct g; [by apply greedy_success|by apply lazy_success].
  - destruct s as [|c s]; [apply IH|]. destruct (p c); [|apply IH].
    destruct (Re.match_here r s mark cs) eqn:E.
    + intros _. destruct (IH s mark cs mark' cs') as [y ->]; [by rewrite E|]. eauto.
    + intros H. destruct (Re.match_here r s mark' cs'); [eauto|]. by eapply IH.
  - apply IH.
  - apply IH.
Qed.

(** If a pattern matches, so does the pattern cut short. *)
Lemma match_here_prefix r1 r2 :
  ∀ s mark cs,
    is_Some (Re.match_here (r1 ++ r2) s mark cs) → is_Some (Re.match_here r1 s mark cs).
Proof.
  induction r1 as [|a r1 IH]; intros s mark cs; simpl; [eauto|].
  destruct a as [p|g least p|p| |i].
  - destruct s as [|c s]; [done|]. destruct (p c); [apply IH|done].
  - assert (Hk : ∀ t, is_Some (Re.match_here (r1 ++ r2) t mark cs) →
                      is_Some (Re.match_here r1 t mark cs)) by (intros t; apply IH).
    destruct least.
    + destruct s as [|c s]; [done|]. destruct (p c); [|done].
      destruct g; [by apply greedy_success|by apply lazy_success].
    + destruct g; [by apply greedy_success|by apply lazy_success].
  - destruct s as [|c s]; [apply IH|]. destruct (p c); [|apply IH].
    destruct (Re.match_here (r1 ++ r2) s mark cs) eqn:E.
    + intros _. destruct (IH s mark cs) as [y ->]; [by rewrite E|]. eauto.
    + intros H. destruct (Re.match_here r1 s mark cs); [eauto|]. by apply IH.
  - apply IH.
  - apply IH.
Qed.

(** If a pattern matches, its end matches somewhere further on. *)
Lemma match_here_suffix r1 r2 :
  ∀ s mark cs,
    is_Some (Re.match_here (r1 ++ r2) s mark cs) →
    ∃ t mark' cs', t `suffix_of` s ∧ is_Some (Re.match_here r2 t mark' cs').
Proof.
  induction r1 as [|a r1 IH]; intros s mark cs; simpl.
  { intros H. by exists s, mark, cs. }
  assert (Hk : ∀ t, t `suffix_of` s → is_Some (Re.match_here (r1 ++ r2) t mark cs) →
             ∃ t' mark' cs', t' `suffix_of` s ∧ is_Some (Re.match_here r2 t' mark' cs')).
  { intros t Ht H. destruct (IH _ _ _ H) as (t' & m' & c' & Ht' & H').
    exists t', m', c'. split; [by etrans|done]. }
  destruct a as [p|g least p|p| |i].
  - destruct s as [|c s]; [done|]. destruct (p c); [|done].
    intros H. apply (Hk s); [by apply suffix_cons_r|done].
  - destruct least.
    + destruct s as [|c s]; [done|]. destruct (p c); [|done].
      destruct g; intros H.
      * destruct (greedy_reach _ _ _ H) as (t & Ht & H').
        apply (Hk t); [by apply suffix_cons_r|done].
      * destruct (lazy_reach _ _ _ H) as (t & Ht & H').
        apply (Hk t); [by apply suffix_cons_r|done].
    + destruct g; intros H.
      * destruct (greedy_reach _ _ _ H) as (t & Ht & H'). by apply (Hk t).
      * destruct (lazy_reach _ _ _ H) as (t & Ht & H'). by apply (Hk t).
  - destruct s as [|c s]; [by apply Hk|]. destruct (p c); [|by apply Hk].
    destruct (Re.match_here (r1 ++ r2) s mark cs) eqn:E.
    + intros _. apply (Hk s); [by apply suffix_cons_r|by rewrite E].
    + by apply Hk.
  - intros H. destruct (IH _ _ _ H) as (t' & m' & c' & Ht' & H'). by exists t', m', c'.
  - intros H. destruct (IH _ _ _ H) as (t' & m' & c' & Ht' & H'). by exists t', m', c'.
Qed.

Lemma suffix_of_cons (t s : list ascii) c :
  t `suffix_of` c :: s → t = c :: s ∨ t `suffix_of` s.
Proof.
  intros [k E]. destruct k as [|c' k]; simpl in E; [by left|].
  injection E as -> ->. right. by exists k.
Qed.

Lemma search_from_found p s t :
  t `suffix_of` s → is_Some (Re.match_alts p t) → is_Some (Re.search_from p s).
Proof.
  induction s as [|c s IH]; intros Ht H.
  - apply suffix_nil_inv in Ht as ->. simpl. destruct (Re.match_alts p []); [eauto|done].
  - simpl. destruct (Re.match_alts p (c :: s)) eqn:E; [eauto|].
    apply suffix_of_cons in Ht as [->|Ht]; [by rewrite E in H|]. by apply IH.
Qed.

Lemma search_from_inv p s :
  is_Some (Re.search_from p s) → ∃ t, t `suffix_of` s ∧ is_Some (Re.match_alts p t).
Proof.
  induction s as [|c s IH]; simpl.
  - destruct (Re.match_alts p []) eqn:E; [|by intros [? ?]]. exists []. by rewrite E.
  - destruct (Re.match_alts p (c :: s)) eqn:E; [exists (c :: s); by rewrite E|].
    intros H. destruct (IH H) as (t & Ht & H'). exists t. split; [by apply suffix_cons_r|done].
Qed.

(** A pattern made of one alternative that contains another pattern of
    one alternative matches only where that one matches. *)
Lemma search_contained pre r post s :
  is_Some (Re.search [pre ++ r ++ post] s) → is_Some (Re.search [r] s).
Proof.
  unfold Re.search. intros H.
  destruct (search_from_inv _ _ H) as (t & Ht & H1). simpl in H1.
  destruct (Re.match_here (pre ++ r ++ post) t t []) eqn:E; [|by destruct H1].
  destruct (match_here_suffix pre (r ++ post) t t []) as (t' & m' & c' & Ht' & H2);
    [by rewrite E|].
  apply match_here_prefix in H2.
  apply (match_here_success r t' m' c' t' []) in H2.
  apply (search_from_found _ _ t'); [by etrans|].
  simpl. destruct (Re.match_here r t' t' []); [eauto|by destruct H2].
Qed.

Lemma upToNextMajor_contains_from decl :
  is_Some (Re.search Pat.upToNextMajor decl) → is_Some (Re.search Pat.from decl).
Proof.
  apply (search_contained
           (Re.lit ".upToNextMajor" ++ [Re.star Re.space; Re.One (Re.chr "("); Re.star Re.space])
           (Re.lit "from:" ++ [Re.star Re.space] ++ Re.quoted 1)
           [Re.star Re.space; Re.One (Re.chr ")")]).
Qed.

Lemma upToNextMinor_contains_from decl :
  is_Some (Re.search Pat.upToNextMinor decl) → is_Some (Re.search Pat.from decl).
Proof.
  apply (search_contained
           (Re.lit ".upToNextMinor" ++ [Re.star Re.space; Re.One (Re.chr "("); Re.star Re.space])
           (Re.lit "from:" ++ [Re.star Re.space] ++ Re.quoted 1)
           [Re.star Re.space; Re.One (Re.chr ")")]).
Qed.

(** The two patterns that pin up to the next major or minor version are
    never the first to match: leaving them out changes nothing. *)
Lemma first_constraint_reachable decl :
  first_constraint version_patterns decl = first_constraint reachable_patterns decl.
Proof.
  unfold version_patterns, reachable_patterns.
  cbn [first_constraint].
  destruct (Re.search Pat.from decl) eqn:F; [done|].
  destruct (Re.search Pat.upToNextMajor decl) eqn:M.
  { destruct (upToNextMajor_contains_from decl) as [? E]; [by rewrite M|]. congruence. }
  destruct (Re.search Pat.upToNextMinor decl) eqn:N.
  { destruct (upToNextMinor_contains_from decl) as [? E]; [by rewrite N|]. congruence. }
  done.
Qed.

Lemma first_constraint_never_raises decl :
  ∃ r, first_constraint version_patterns decl = Ok r.
Proof.
  rewrite first_constraint_reachable. unfold reachable_patterns. cbn [first_constraint].
  repeat match goal with
  | |- context [Re.search ?p decl] => destruct (Re.search p decl) as [?m|]; simpl
  | |- context [Re.group 2 ?g] => destruct (Re.group 2 g); simpl
  end; eauto.
Qed.

Lemma analyze_version_constraint_never_raises decl :
  ∃ text, analyze_version_constraint decl = Ok text.
Proof.
  unfold analyze_version_constraint.
  destruct (first_constraint_never_raises decl) as [[text|] ->]; simpl; [eauto|].
  destruct (Re.search Pat.bare_version decl); eauto.
Qed.

Lemma report_versions_never_raises decls : ∃ lines, report_versions decls = Ok lines.
Proof.
  induction decls as [|decl decls [lines IH]]; simpl; [eauto|].
  rewrite IH. destruct (Re.search Pat.url_or_quoted decl) as [m|]; simpl; [|eauto].
  destruct (mentions_github _); simpl; [|eauto].
  destruct (analyze_version_constraint_never_raises decl) as [text ->]. simpl. eauto.
Qed.

Lemma extract_dependencies_from_content_never_raises content :
  ∃ deps, extract_dependencies_from_content content = Ok deps.
Proof.
  unfold extract_dependencies_from_content.
  destruct (Re.search Pat.dependencies content) as [m|]; [|eauto].
  destruct (found_urls _) as [|d ds]; simpl; [eauto|].
  destruct (report_versions_never_raises
              (Re.findall_whole Pat.full_package (default "" (Re.group 1 (Re.groups m)))))
    as [lines ->]. simpl. eauto.
Qed.

(** * The resolver *)

Lemma extends_refl x st : extends x st st.
Proof. by split. Qed.

Lemma extends_trans x st1 st2 st3 :
  extends x st1 st2 → extends x st2 st3 → extends x st1 st3.
Proof.
  intros [P1 F1 O1 D1] [P2 F2 O2 D2]. split.
  - set_solver.
  - set_solver.
  - auto.
  - intros k Hk Hx. rewrite D2; auto.
Qed.

Lemma extends_weaken x st st' : extends None st st' → extends x st st'.
Proof. intros [P F O D]. split; auto. Qed.

Lemma resolved_mono x st st' k : extends x st st' → resolved st k → resolved st' k.
Proof. intros [P F _ _] [H|H]; [left|right]; set_solver. Qed.

Lemma extends_count_failure x st : extends x st (count_failure st).
Proof. by split. Qed.

Lemma extends_add_edge k d st : extends (Some k) st (add_edge k d st).
Proof.
  split; simpl; try done.
  intros k' _ Hk'. apply lookup_alter_ne. congruence.
Qed.

Lemma fetch_once_fresh st k :
  fetch_once st → ¬ resolved st k → NoDup (fetched st ++ [k]).
Proof.
  intros [ND R] Hk. apply NoDup_app. split; [done|]. split; [|apply NoDup_singleton].
  intros x Hx ->%list_elem_of_singleton. auto.
Qed.

Lemma extends_fetch_failed x st k :
  ¬ resolved st k → extends x st (add_failed k (log_fetch k st)).
Proof.
  intros Hk. split; simpl; try done; [set_solver|].
  intros O. split; simpl; [by apply fetch_once_fresh|].
  intros k' [H| ->%list_elem_of_singleton]%elem_of_app.
  - destruct O as [_ R]. destruct (R k' H); [left|right]; simpl; set_solver.
  - right. simpl. set_solver.
Qed.

Lemma extends_on_exception x st k : extends x st (on_exception k st).
Proof.
  split; simpl; try done; [set_solver|].
  intros [ND R]. split; [done|]. intros k' [H|H]%R; [left|right]; simpl; [done|set_solver].
Qed.

Lemma extends_fetch_manifest x st k n :
  ¬ resolved st k →
  extends x st (found_dependencies k n (add_processed k (log_fetch k st))).
Proof.
  intros Hk. split; simpl; try done; [set_solver| |].
  - intros O. split; simpl; [by apply fetch_once_fresh|].
    intros k' [H| ->%list_elem_of_singleton]%elem_of_app.
    + destruct O as [_ R]. destruct (R k' H); [left|right]; simpl; set_solver.
    + left. simpl. set_solver.
  - intros k' Hk' _. destruct (dependency_graph st !! k) eqn:E; [done|].
    apply lookup_insert_ne. intros ->. apply Hk. by left.
Qed.

Lemma extends_fetch_processed x st k :
  ¬ resolved st k → extends x st (add_processed k (log_fetch k st)).
Proof.
  intros Hk. split; simpl; try done; [set_solver|].
  intros O. split; simpl; [by apply fetch_once_fresh|].
  intros k' [H| ->%list_elem_of_singleton]%elem_of_app.
  + destruct O as [_ R]. destruct (R k' H); [left|right]; simpl; set_solver.
  + left. simpl. set_solver.
Qed.

Lemma edges_closed_mono x p st st' :
  extends x st st' → dependency_graph st' = dependency_graph st →
  edges_closed p st → edges_closed p st'.
Proof.
  intros E D C src tgt. rewrite D. intros [H1 H2]%C. split.
  - destruct E. set_solver.
  - destruct H2; [left|by right]. eapply resolved_mono; eauto.
Qed.

Lemma edges_closed_resolved x st k :
  edges_closed (Some k) st → resolved st k → edges_closed x st.
Proof.
  intros C R src tgt [H1 H2]%C. split; [done|].
  destruct H2 as [|[= ->]]; by left.
Qed.

Lemma edges_closed_add_edge k d st :
  k ∈ processed_repos st → edges_closed None st → edges_closed (Some d) (add_edge k d st).
Proof.
  intros Hk C src tgt. unfold adj. simpl. rewrite lookup_alter.
  case_decide as E.
  - subst src. destruct (dependency_graph st !! k) as [l|] eqn:L; simpl; [|by intros ?%elem_of_nil].
    intros [H| ->%list_elem_of_singleton]%elem_of_app; [|by split; [|right]].
    destruct (C k tgt) as [? [?|?]]; [by unfold adj; rewrite L| |done]. split; [done|by left].
  - intros H. destruct (C src tgt H) as [? [?|?]]; [|done]. split; [done|by left].
Qed.

Lemma edges_closed_found_dependencies p k n st :
  edges_closed p st → edges_closed p (found_dependencies k n st).
Proof.
  intros C src tgt. unfold adj. simpl.
  destruct (dependency_graph st !! k) eqn:E; [apply C|].
  destruct (decide (k = src)) as [->|Hne].
  - rewrite lookup_insert_eq. by intros ?%elem_of_nil.
  - rewrite lookup_insert_ne by done. apply C.
Qed.

Lemma resolve_dependencies_sound recur k :
  call_sound recur →
  ∀ deps st b st',
    resolve_dependencies recur k deps st = Some (b, st') →
    k ∈ processed_repos st →
    extends (Some k) st st'
    ∧ (edges_closed None st → edges_closed None st')
    ∧ (b = true →
       dependency_graph st' !! k = (fun l => l ++ dep_keys deps) <$> dependency_graph st !! k).
Proof.
  intros Hrec. induction deps as [|dep deps IH]; intros st b st' H Hk.
  - injection H as <- <-. split; [apply extends_refl|]. split; [done|].
    intros _. unfold dep_keys. simpl. destruct (dependency_graph st !! k); simpl; [|done].
    by rewrite app_nil_r.
  - simpl in H. unfold dep_keys. simpl.
    destruct (repo_key_of dep) as [[dk|]|] eqn:K.
    + destruct (recur dep (add_edge k dk st)) as [[b1 st1]|] eqn:R; [|done].
      destruct (Hrec _ _ _ _ R) as (E1 & R1 & C1).
      assert (Hk1 : k ∈ processed_repos st1) by (destruct E1; simpl in *; set_solver).
      destruct (IH _ _ _ H Hk1) as (E2 & C2 & D2).
      split; [|split].
      * eapply extends_trans; [apply extends_add_edge|].
        eapply extends_trans; [apply extends_weaken, E1|done].
      * intros C. apply C2. eapply C1; [by apply edges_closed_add_edge|].
        by intros ? [= <-].
      * intros Hb. rewrite (D2 Hb). destruct E1 as [_ _ _ F1].
        rewrite F1 by done. simpl. rewrite lookup_alter_eq.
        destruct (dependency_graph st !! k); simpl; [|done].
        by rewrite <- app_assoc.
    + apply IH; done.
    + injection H as <- <-. split; [apply extends_refl|]. split; done.
Qed.

Lemma download_package_swift_sound fetch fuel :
  call_sound (download_package_swift fetch fuel).
Proof.
  induction fuel as [|fuel IH]; intros url st b st' H; [done|].
  simpl in H. destruct (repo_key_of url) as [[k|]|] eqn:K.
  2:{ injection H as <- <-. split; [apply extends_refl|]. split; [done|].
      intros p C Hp. destruct p as [p|]; [discriminate (Hp _ eq_refl)|done]. }
  2:{ injection H as <- <-. split; [apply extends_count_failure|]. split; [done|].
      intros p C Hp. destruct p as [p|]; [discriminate (Hp _ eq_refl)|done]. }
  case_bool_decide as Hres.
  { injection H as <- <-. split; [apply extends_refl|]. split; [by intros ? [= <-]|].
    intros p C Hp. destruct p as [p|]; [|done].
    specialize (Hp _ eq_refl) as [= <-]. by eapply edges_closed_resolved. }
  assert (Hclosed : ∀ p stx, extends None st stx →
            dependency_graph stx = dependency_graph st → resolved stx k →
            edges_closed p st →
            (∀ k0, p = Some k0 → Ok (Some k) = Ok (Some k0)) → edges_closed None stx).
  { intros p stx E D R C Hp. destruct p as [p|].
    - specialize (Hp _ eq_refl) as [= <-].
      eapply edges_closed_resolved; [|done]. by eapply edges_closed_mono.
    - by eapply edges_closed_mono. }
  destruct (fetch k) as [content| |].
  - destruct (extract_dependencies_from_content content) as [[|d ds]|] eqn:X.
    + injection H as <- <-.
      assert (E := extends_fetch_processed None st k Hres).
      split; [done|]. split; [intros ? [= <-]; left; simpl; set_solver|].
      intros p C Hp. eapply Hclosed; eauto. left; simpl; set_solver.
    + set (st2 := found_dependencies k _ _) in H.
      assert (E := extends_fetch_manifest None st k (length (d :: ds)) Hres). fold st2 in E.
      assert (Hk2 : k ∈ processed_repos st2) by (simpl; set_solver).
      destruct (resolve_dependencies _ k (d :: ds) st2) as [[b3 st3]|] eqn:L; [|done].
      destruct (resolve_dependencies_sound _ k IH _ _ _ _ L Hk2) as (E3 & C3 & _).
      assert (C2 : ∀ p, edges_closed p st →
                (∀ k0, p = Some k0 → Ok (Some k) = Ok (Some k0)) → edges_closed None st2).
      { intros p C Hp. apply edges_closed_found_dependencies.
        eapply (Hclosed p (add_processed k (log_fetch k st))); eauto.
        - by apply extends_fetch_processed.
        - left; simpl; set_solver. }
      assert (E13 : extends None st st3).
      { split.
        - destruct E, E3. set_solver.
        - destruct E, E3. set_solver.
        - destruct E, E3. auto.
        - intros k' Hk' _. destruct E as [P _ _ F], E3 as [_ _ _ F3].
          rewrite F3; [by apply F|set_solver|].
          intros [= ->]. apply Hres. by left. }
      destruct b3; injection H as <- <-.
      * split; [done|]. split; [intros ? [= <-]; left; destruct E3; set_solver|].
        intros p C Hp. eauto.
      * split; [eapply extends_trans; [done|apply extends_on_exception]|].
        split; [intros ? [= <-]; left; destruct E3; simpl; set_solver|].
        intros p C Hp. eapply (edges_closed_mono None); [apply extends_on_exception|done|eauto].
    + injection H as <- <-.
      assert (E := extends_fetch_processed None st k Hres).
      split; [eapply extends_trans; [done|apply extends_on_exception]|].
      split; [intros ? [= <-]; left; simpl; set_solver|].
      intros p C Hp. eapply (Hclosed p); eauto.
      * eapply extends_trans; [done|apply extends_on_exception].
      * left; simpl; set_solver.
  - injection H as <- <-.
    assert (E := extends_fetch_failed None st k Hres).
    split; [done|]. split; [intros ? [= <-]; right; simpl; set_solver|].
    intros p C Hp. eapply Hclosed; eauto. right; simpl; set_solver.
  - injection H as <- <-.
    assert (E := extends_fetch_failed None st k Hres).
    assert (E' : extends None st (on_exception k (log_fetch k st))).
    { eapply extends_trans; [done|]. apply (extends_count_failure _ (add_failed k _)). }
    split; [done|].
    split; [intros ? [= <-]; right; simpl; set_solver|].
    intros p C Hp. eapply Hclosed; eauto. right; simpl; set_solver.
Qed.



Lemma process_all_repositories_sound fetch fuel urls :
  ∀ st st', process_all_repositories fetch fuel urls st = Some (Ok st') →
    extends None st st' ∧ (edges_closed None st → edges_closed None st').
Proof.
  induction urls as [|url urls IH]; intros st st' H; simpl in H.
  - injection H as <-. split; [apply extends_refl|done].
  - destruct (repo_key_of url) as [[k|]|] eqn:K; [|by apply IH|done].
    destruct (download_package_swift fetch fuel url st) as [[b st1]|] eqn:D; [|done].
    destruct (download_package_swift_sound _ _ _ _ _ _ D) as (E1 & _ & C1).
    destruct (IH _ _ H) as (E2 & C2). split.
    + by eapply extends_trans.
    + intros C. apply C2. by apply (C1 None).
Qed.



Lemma edges_closed_initial : edges_closed None initial.
Proof. intros src tgt. unfold adj. simpl. rewrite lookup_empty. by intros ?%elem_of_nil. Qed.


(** Each locator of a fetched manifest that has an identifier yields one
    edge from the identifier fetched, in the order of the locators. *)
Lemma each_locator_its_own_edge fetch fuel url k st st' content deps :
  repo_key_of url = Ok (Some k) → ¬ resolved st k →
  fetch k = Manifest content →
  extract_dependencies_from_content content = Ok deps →
  download_package_swift fetch fuel url st = Some (true, st') →
  adj (dependency_graph st') k = adj (dependency_graph st) k ++ dep_keys deps.
Proof.
  intros K R F X H. destruct fuel as [|fuel]; [done|]. simpl in H.
  rewrite K in H. rewrite bool_decide_eq_false_2 in H by done. rewrite F in H. rewrite X in H.
  destruct deps as [|d ds].
  - injection H as <-. simpl. unfold dep_keys. simpl. by rewrite app_nil_r.
  - set (st2 := found_dependencies k _ _) in H.
    destruct (resolve_dependencies _ k (d :: ds) st2) as [[b3 st3]|] eqn:L; [|done].
    destruct b3; [|done]. injection H as <-.
    destruct (resolve_dependencies_sound _ k (download_package_swift_sound fetch fuel)
                _ _ _ _ L) as (_ & _ & D); [simpl; set_solver|].
    unfold adj. rewrite (D eq_refl). subst st2. simpl.
    destruct (dependency_graph st !! k) eqn:G; simpl.
    + by rewrite G.
    + by rewrite lookup_insert_eq.
Qed.

(** * The analyzer: cycles *)

Lemma index_of_lookup x l i : index_of x l = Some i → l !! i = Some x.
Proof.
  revert i. induction l as [|y l IH]; intros i H; [done|].
  simpl in H. case_bool_decide as E.
  - injection H as <-. by subst.
  - destruct (index_of x l) as [j|]; [|done]. injection H as <-. simpl. by apply IH.
Qed.

Lemma index_of_elem x l : x ∈ l → is_Some (index_of x l).
Proof.
  induction l as [|y l IH]; [by intros ?%elem_of_nil|].
  intros H. simpl. case_bool_decide as E; [eauto|].
  apply elem_of_cons in H as [->|H]; [done|].
  destruct (IH H) as [j ->]. eauto.
Qed.

Lemma index_of_app x pre post :
  x ∉ pre → index_of x (pre ++ x :: post) = Some (length pre).
Proof.
  induction pre as [|y pre IH]; intros H; simpl.
  - by rewrite bool_decide_eq_true_2.
  - rewrite bool_decide_eq_false_2 by set_solver.
    rewrite IH by set_solver. done.
Qed.

Lemma chain_lookup g l :
  chain g l ↔ ∀ i u v, l !! i = Some u → l !! S i = Some v → v ∈ adj g u.
Proof.
  induction l as [|a l IH]; [done|]. destruct l as [|b l].
  - split; [|done]. intros _ [|i] u v; done.
  - change (chain g (a :: b :: l)) with (b ∈ adj g a ∧ chain g (b :: l)).
    rewrite IH. split.
    + intros [H1 H2] [|i] u v Hu Hv.
      * injection Hu as <-. injection Hv as <-. done.
      * by apply (H2 i).
    + intros H. split; [by apply (H 0)|]. intros i u v. apply (H (S i)).
Qed.

Lemma chain_snoc g l x :
  chain g l → (∀ u, last l = Some u → x ∈ adj g u) → chain g (l ++ [x]).
Proof.
  induction l as [|a l IH]; intros C E; [done|]. destruct l as [|b l].
  - simpl. split; [|done]. by apply E.
  - destruct C as [C1 C2]. split; [done|]. apply IH; [done|].
    intros u Hu. by apply E.
Qed.

Lemma chain_tail g a l : chain g (a :: l) → chain g l.
Proof. destruct l; [done|]. by intros [_ ?]. Qed.

Lemma chain_drop g l i : chain g l → chain g (drop i l).
Proof.
  revert l. induction i as [|i IH]; intros l C; [by rewrite drop_0|].
  destruct l as [|a l]; [done|]. simpl. apply IH. by eapply chain_tail.
Qed.

Lemma last_drop_lookup (l : list string) i x :
  l !! i = Some x → last (drop i l) = last l.
Proof.
  revert l. induction i as [|i IH]; intros l H; [by rewrite drop_0|].
  destruct l as [|a l]; [done|]. simpl in *. rewrite (IH _ H).
  destruct l; [done|]. done.
Qed.

(** The cycle cut out of the path when [node] is met again. *)
Lemma reported_cycle_closed g path node i :
  chain g path → (∀ u, last path = Some u → node ∈ adj g u) →
  path !! i = Some node →
  closed_walk g (drop i path ++ [node]).
Proof.
  intros C E Hi.
  assert (D : drop i path = node :: drop (S i) path) by (by apply drop_S).
  split; [|split].
  - rewrite length_app, D. simpl. lia.
  - rewrite D, last_snoc. done.
  - apply chain_lookup, chain_snoc; [by apply chain_drop|].
    intros u. rewrite (last_drop_lookup _ _ _ Hi). apply E.
Qed.

Lemma dfs_post_refl g st : Forall (closed_walk g) (cycles st) → dfs_post g st st.
Proof. by split. Qed.

Lemma dfs_post_trans g st1 st2 st3 :
  dfs_post g st1 st2 → dfs_post g st2 st3 → dfs_post g st1 st3.
Proof. intros [S1 V1 C1] [S2 V2 C2]. split; [congruence|set_solver|done]. Qed.

Lemma dfs_pre_post g path st st' :
  dfs_pre g path st → dfs_post g st st' → dfs_pre g path st'.
Proof.
  intros [N S C Y] [S' V' Y']. split; try done. intros x. rewrite S'. apply S.
Qed.

Lemma dfs_neighbors_total g recur path (V0 : gset string) node :
  (∀ n st, n ∈ adj g node → V0 ⊆ visited st → dfs_pre g path st →
     ∃ st', recur n path st = Some (Ok st') ∧ dfs_post g st st') →
  ∀ neighbors st,
    neighbors ⊆ adj g node → V0 ⊆ visited st → dfs_pre g path st →
    ∃ st', dfs_neighbors recur neighbors path st = Some (Ok st') ∧ dfs_post g st st'.
Proof.
  intros Hrec. induction neighbors as [|n ns IH]; intros st Hsub HV P; simpl.
  - exists st. split; [done|]. apply dfs_post_refl, P.
  - destruct (Hrec n st) as (st1 & -> & Q1); [set_solver|done|done|].
    destruct (IH st1) as (st2 & -> & Q2).
    + set_solver.
    + destruct Q1. set_solver.
    + by eapply dfs_pre_post.
    + exists st2. split; [done|]. by eapply dfs_post_trans.
Qed.

Lemma dfs_total g (U : gset string) :
  (∀ x n, n ∈ adj g x → n ∈ U) →
  ∀ fuel node path st,
    node ∈ U → size (U ∖ visited st) < fuel →
    dfs_pre g path st → (∀ u, last path = Some u → node ∈ adj g u) →
    ∃ st', dfs g fuel node path st = Some (Ok st') ∧ dfs_post g st st'.
Proof.
  intros HU. induction fuel as [|fuel IH]; intros node path st Hn Hsz P E; [lia|].
  simpl. case_bool_decide as Hstack.
  { destruct (index_of_elem node path) as [i Hi]; [by apply P|].
    rewrite Hi. eexists. split; [done|]. split; simpl; [done|done|].
    apply Forall_app. split; [apply P|]. apply Forall_singleton.
    apply reported_cycle_closed; [apply P|done|by apply index_of_lookup]. }
  case_bool_decide as Hvis.
  { exists st. split; [done|]. apply dfs_post_refl, P. }
  set (st1 := {| visited := {[node]} ∪ visited st;
                 rec_stack := {[node]} ∪ rec_stack st; cycles := cycles st |}).
  assert (P1 : dfs_pre g (path ++ [node]) st1).
  { destruct P as [N S C Y]. split; simpl; [| | |done].
    - apply NoDup_app. split; [done|]. split; [|apply NoDup_singleton].
      intros x Hx ->%list_elem_of_singleton. by apply Hstack, S.
    - intros x. rewrite elem_of_app, list_elem_of_singleton, S. set_solver.
    - by apply chain_snoc. }
  destruct (dfs_neighbors_total g (dfs g fuel) (path ++ [node]) ({[node]} ∪ visited st) node)
    with (neighbors := adj g node) (st := st1) as (st2 & -> & Q2); [|done|done|done|].
  { intros n st' Hn' HV P'. apply IH; [by eapply HU| |done|].
    - assert (U ∖ visited st' ⊂ U ∖ visited st).
      { split; [set_solver|]. intros Hinv.
        assert (node ∈ U ∖ visited st) as Hin by set_solver.
        apply Hinv in Hin. set_solver. }
      apply subset_size in H. lia.
    - intros u. rewrite last_snoc. by intros [= <-]. }
  destruct Q2 as [S2 V2 Y2]. simpl in *.
  rewrite bool_decide_eq_true_2 by (rewrite S2; set_solver).
  eexists. split; [done|]. split; simpl; [|set_solver|done].
  rewrite S2. set_solver.
Qed.

Lemma adj_graph_nodes g ns x n : n ∈ adj g x → n ∈ graph_nodes g ns.
Proof.
  unfold adj, graph_nodes. destruct (g !! x) as [l|] eqn:E; [|by intros ?%elem_of_nil].
  simpl. intros H. apply elem_of_list_to_set, elem_of_app. right.
  apply list_elem_of_join. exists l. split; [done|].
  apply list_elem_of_fmap. exists (x, l). split; [done|]. by apply elem_of_map_to_list.
Qed.

Lemma dfs_from_all_total g fuel all :
  size (graph_nodes g all) < fuel →
  ∀ ns st,
    ns ⊆ all → rec_stack st = ∅ → Forall (closed_walk g) (cycles st) →
    ∃ st', dfs_from_all g fuel ns st = Some (Ok st')
           ∧ rec_stack st' = ∅ ∧ Forall (closed_walk g) (cycles st').
Proof.
  intros Hsz. induction ns as [|n ns IH]; intros st Hsub Hst Y; simpl; [eauto|].
  case_bool_decide as Hv; [apply IH; set_solver|].
  destruct (dfs_total g (graph_nodes g all) (adj_graph_nodes g all) fuel n [] st)
    as (st1 & -> & [S1 V1 Y1]).
  - apply elem_of_list_to_set, elem_of_app. left. set_solver.
  - eapply Nat.le_lt_trans; [|done]. apply subseteq_size. set_solver.
  - split; [constructor| |done|done]. intros x. rewrite Hst. set_solver.
  - done.
  - apply IH; [set_solver|congruence|done].
Qed.

Lemma detect_circular_dependencies_total g ns fuel :
  size (graph_nodes g ns) < fuel →
  ∃ cs, detect_circular_dependencies fuel g ns = Some (Ok cs)
        ∧ Forall (closed_walk g) cs.
Proof.
  intros Hsz. unfold detect_circular_dependencies.
  destruct (dfs_from_all_total g fuel ns Hsz ns
              {| visited := ∅; rec_stack := ∅; cycles := [] |})
    as (st & -> & _ & Y); [done|done|constructor|]. eauto.
Qed.

Lemma dfs_neighbors_mono recur recur' ns path st r :
  (∀ n p s x, recur n p s = Some x → recur' n p s = Some x) →
  dfs_neighbors recur ns path st = Some r →
  dfs_neighbors recur' ns path st = Some r.
Proof.
  intros Hrec. revert st. induction ns as [|n ns IH]; intros st H; [done|].
  simpl in *. destruct (recur n path st) as [[st1|]|] eqn:E; [| |done].
  - rewrite (Hrec _ _ _ _ E). by apply IH.
  - by rewrite (Hrec _ _ _ _ E).
Qed.

Lemma dfs_mono g fuel fuel' node path st r :
  fuel ≤ fuel' → dfs g fuel node path st = Some r → dfs g fuel' node path st = Some r.
Proof.
  revert fuel' node path st r.
  induction fuel as [|fuel IH]; intros fuel' node path st r Hle H; [done|].
  destruct fuel' as [|fuel']; [lia|]. simpl in *.
  case_bool_decide; [done|]. case_bool_decide; [done|].
  destruct (dfs_neighbors (dfs g fuel) _ _ _) as [x|] eqn:E; [|done].
  erewrite dfs_neighbors_mono; [done| |done].
  intros n p s y. apply IH. lia.
Qed.

Lemma dfs_from_all_mono g fuel fuel' ns st r :
  fuel ≤ fuel' → dfs_from_all g fuel ns st = Some r → dfs_from_all g fuel' ns st = Some r.
Proof.
  intros Hle. revert st. induction ns as [|n ns IH]; intros st H; [done|].
  simpl in *. case_bool_decide; [by apply IH|].
  destruct (dfs g fuel n [] st) as [[st1|]|] eqn:E; [| |done].
  - rewrite (dfs_mono _ _ _ _ _ _ _ Hle E). by apply IH.
  - by rewrite (dfs_mono _ _ _ _ _ _ _ Hle E).
Qed.

Lemma detect_circular_dependencies_mono g fuel fuel' ns r :
  fuel ≤ fuel' →
  detect_circular_dependencies fuel g ns = Some r →
  detect_circular_dependencies fuel' g ns = Some r.
Proof.
  intros Hle. unfold detect_circular_dependencies.
  destruct (dfs_from_all g fuel ns _) as [x|] eqn:E; [|done].
  by rewrite (dfs_from_all_mono _ _ _ _ _ _ Hle E).
Qed.

Lemma permutations_of_three (ns : list string) (a b c : string) :
  ns ≡ₚ [a; b; c] →
  ns = [a; b; c] ∨ ns = [a; c; b] ∨ ns = [b; a; c]
  ∨ ns = [b; c; a] ∨ ns = [c; a; b] ∨ ns = [c; b; a].
Proof.
  intros H.
  assert (L := Permutation_length H).
  destruct ns as [|x [|y [|z [|]]]]; try done. clear L.
  symmetry in H.
  apply Permutation_cons_inv_l in H as (k1 & k2 & E & H).
  destruct k1 as [|x1 [|y1 [|z1 k1]]]; simplify_eq/=.
  - apply Permutation_cons_inv_l in H as (k1 & k2 & E & H).
    destruct k1 as [|x1 [|y1 k1]]; simplify_eq/=.
    + apply Permutation_singleton_l in H. simplify_eq. naive_solver.
    + apply Permutation_singleton_l in H. simplify_eq. naive_solver.
    + destruct k1; done.
  - apply Permutation_cons_inv_l in H as (k1 & k2 & E & H).
    destruct k1 as [|x2 [|y2 k1]]; simplify_eq/=.
    + apply Permutation_singleton_l in H. simplify_eq. naive_solver.
    + apply Permutation_singleton_l in H. simplify_eq. naive_solver.
    + destruct k1; done.
  - apply Permutation_cons_inv_l in H as (k1 & k2 & E & H).
    destruct k1 as [|x2 [|y2 k1]]; simplify_eq/=.
    + apply Permutation_singleton_l in H. simplify_eq. naive_solver.
    + apply Permutation_singleton_l in H. simplify_eq. naive_solver.
    + destruct k1; done.
  - destruct k1; done.
Qed.

(** Claim C3.  When [dfs] reaches a node that is on the recursion stack,
    the cycle it reports is the part of the current path from the first
    occurrence of the node on, with the node appended.  For the edges
    A->B, B->C, C->A, whatever the order in which the node set is
    iterated, exactly one cycle is reported, and it is A,B,C,A or one of
    its two rotations. *)
Theorem cycle_is_suffix_of_path :
  (∀ g fuel node pre post st,
     node ∈ rec_stack st → node ∉ pre →
     dfs g (S fuel) node (pre ++ node :: post) st =
       Some (Ok {| visited := visited st; rec_stack := rec_stack st;
                   cycles := cycles st ++ [node :: post ++ [node]] |}))
  ∧ (∀ ns fuel,
       ns ≡ₚ ["A"; "B"; "C"] → 4 ≤ fuel →
       ∃ c, detect_circular_dependencies fuel triangle ns = Some (Ok [c])
            ∧ (c = ["A"; "B"; "C"; "A"] ∨ c = ["B"; "C"; "A"; "B"]
               ∨ c = ["C"; "A"; "B"; "C"])).
Proof.
  split.
  - intros g fuel node pre post st Hs Hp. simpl.
    rewrite bool_decide_eq_true_2 by done.
    rewrite index_of_app by done. by rewrite drop_app_length.
  - intros ns fuel H Hf.
    assert (∃ c, detect_circular_dependencies 4 triangle ns = Some (Ok [c])
                 ∧ (c = ["A"; "B"; "C"; "A"] ∨ c = ["B"; "C"; "A"; "B"]
                    ∨ c = ["C"; "A"; "B"; "C"])) as (c & D & Hc).
    { apply permutations_of_three in H as [->|[->|[->|[->|[->| ->]]]]];
        eexists; (split; [vm_compute; reflexivity|]); auto. }
    exists c. split; [|done]. by eapply detect_circular_dependencies_mono.
Qed.

(** Claim C10.  The cycle detection returns, given enough fuel, without
    raising, and every cycle it reports is a closed walk of the graph:
    it has at least two elements, its first element is its last, and
    each element has an edge to the next. *)
Theorem reported_cycles_are_closed_walks (g : gmap string (list string)) (ns : list string) :
  ∃ fuel0, ∀ fuel, fuel0 ≤ fuel →
    ∃ cs, detect_circular_dependencies fuel g ns = Some (Ok cs)
          ∧ ∀ c, c ∈ cs → closed_walk g c.
Proof.
  exists (S (size (graph_nodes g ns))). intros fuel Hf.
  destruct (detect_circular_dependencies_total g ns fuel) as (cs & -> & Y); [lia|].
  exists cs. split; [done|]. by apply Forall_forall.
Qed.

(** * The analyzer: depth *)

Lemma same_edges_refl d : same_edges d d.
Proof. by split. Qed.

Lemma same_edges_trans d1 d2 d3 :
  same_edges d1 d2 → same_edges d2 d3 → same_edges d1 d3.
Proof.
  intros [S1 A1] [S2 A2]. split; [by etrans|]. intros k. by rewrite A2, A1.
Qed.

Lemma getitem_spec d k :
  (getitem d k).1 = adj d k ∧ same_edges d (getitem d k).2.
Proof.
  unfold getitem, adj. destruct (d !! k) as [l|] eqn:E; simpl.
  - split; [done|apply same_edges_refl].
  - split; [done|]. split.
    + by apply insert_subseteq.
    + intros k'. unfold adj. destruct (decide (k = k')) as [->|Hne].
      * by rewrite lookup_insert_eq, E.
      * by rewrite lookup_insert_ne.
Qed.

Lemma walk_same_edges g g' s v n :
  (∀ k, adj g' k = adj g k) → walk g s v n → walk g' s v n.
Proof.
  intros A. induction 1 as [|u v n W IH E]; [constructor|].
  econstructor; [done|]. by rewrite A.
Qed.

Lemma dist_same_edges g g' s v n :
  (∀ k, adj g' k = adj g k) → dist g s v n → dist g' s v n.
Proof.
  intros A [W M]. split; [by eapply walk_same_edges|].
  intros m W'. apply M. eapply walk_same_edges; [|done]. intros k. by rewrite A.
Qed.

Lemma dist_unique g s v d1 d2 : dist g s v d1 → dist g s v d2 → d1 = d2.
Proof. intros [W1 M1] [W2 M2]. apply Nat.le_antisymm; auto. Qed.

Lemma levels_tail e q : levels (e :: q) → levels q.
Proof.
  intros (D & q1 & q2 & E & F1 & F2). destruct q1 as [|e1 q1]; simpl in E.
  - subst q2. apply Forall_cons in F2 as [_ F2]. exists D, [], q. by repeat split.
  - injection E as <- ->. apply Forall_cons in F1 as [_ F1]. exists D, q1, q2. by repeat split.
Qed.

Lemma levels_push v d q new :
  levels ((v, d) :: q) → Forall (fun e => e.2 = S d) new → levels (q ++ new).
Proof.
  intros (D & q1 & q2 & E & F1 & F2) N. destruct q1 as [|e1 q1]; simpl in E.
  - subst q2. apply Forall_cons in F2 as [Hd F2]. simpl in Hd. subst d.
    exists (S D), q, new. by repeat split.
  - injection E as <- ->. apply Forall_cons in F1 as [Hd F1]. simpl in Hd. subst d.
    exists D, q1, (q2 ++ new). split; [by rewrite app_assoc|]. split; [done|].
    by apply Forall_app.
Qed.

Lemma levels_head_least v d q u du :
  levels ((v, d) :: q) → (u, du) ∈ (v, d) :: q → d ≤ du.
Proof.
  intros (D & q1 & q2 & E & F1 & F2) H. rewrite E in H.
  rewrite Forall_forall in F1. rewrite Forall_forall in F2.
  destruct q1 as [|e1 q1]; simpl in E.
  - subst q2. specialize (F2 (v, d) ltac:(left)) as Hd. simpl in Hd.
    specialize (F2 _ H). simpl in F2. lia.
  - injection E as <- ->. specialize (F1 (v, d) ltac:(left)) as Hd. simpl in Hd.
    apply elem_of_app in H as [H|H].
    + specialize (F1 _ H). simpl in F1. lia.
    + specialize (F2 _ H). simpl in F2. lia.
Qed.

(** Whatever a walk reaches is visited already, or the queue holds an
    entry that is no deeper than the walk is long. *)
Lemma bfs_frontier g0 s q vis md v n :
  bfs_inv g0 s q vis md → walk g0 s v n →
  v ∈ vis ∨ ∃ u du, (u, du) ∈ q ∧ du ≤ n.
Proof.
  intros I. induction 1 as [|u v n W IH E].
  - destruct (inv_start _ _ _ _ _ I); [by left|]. right. exists s, 0. done.
  - destruct IH as [Hu|(w & dw & Hw & Hle)].
    + destruct (inv_visited _ _ _ _ _ I u Hu) as (du & [Wu Mu] & _ & Hadj).
      destruct (Hadj v E) as [?|Hq]; [by left|]. right.
      exists v, (S du). split; [done|]. specialize (Mu _ W). lia.
    + right. exists w, dw. split; [done|lia].
Qed.

Lemma bfs_inv_initial g0 s : bfs_inv g0 s [(s, 0)] ∅ 0.
Proof.
  split.
  - intros u d [= -> ->]%list_elem_of_singleton. constructor.
  - exists 0, [(s, 0)], []. repeat split; [by apply Forall_singleton|constructor].
  - intros p ?%not_elem_of_empty. done.
  - by left.
  - right. by apply list_elem_of_singleton.
Qed.

Lemma bfs_inv_skip g0 s v d q vis md :
  bfs_inv g0 s ((v, d) :: q) vis md → v ∈ vis → bfs_inv g0 s q vis md.
Proof.
  intros [W L V M St] Hv. split.
  - intros u du H. apply W. by right.
  - by eapply levels_tail.
  - intros p Hp. destruct (V p Hp) as (dp & Dp & Hle & Hadj).
    exists dp. split; [done|]. split; [done|]. intros u Hu.
    destruct (Hadj u Hu) as [?|[[= -> _]|?]%elem_of_cons]; auto.
  - done.
  - destruct St as [?|[[= -> _]|?]%elem_of_cons]; auto.
Qed.

Lemma bfs_inv_visit g0 s v d q vis md :
  bfs_inv g0 s ((v, d) :: q) vis md → v ∉ vis →
  bfs_inv g0 s
    (q ++ List.map (fun u => (u, d + 1))
            (List.filter (fun u => negb (bool_decide (u ∈ {[v]} ∪ vis))) (adj g0 v)))
    ({[v]} ∪ vis) (Nat.max md d).
Proof.
  intros I Hv. assert (I' := I). destruct I' as [W L V M St].
  assert (Dv : dist g0 s v d).
  { split; [apply W; by left|]. intros n Wn.
    destruct (bfs_frontier _ _ _ _ _ _ _ I Wn) as [?|(u & du & Hu & Hle)]; [done|].
    pose proof (levels_head_least _ _ _ _ _ L Hu). lia. }
  set (new := List.map _ _).
  assert (Hnew : ∀ u, (u, S d) ∈ new ↔ u ∈ adj g0 v ∧ u ∉ {[v]} ∪ vis).
  { intros u. unfold new. rewrite list_elem_of_In, in_map_iff. split.
    - intros (u' & [= -> _] & [H1 H2]%filter_In). split; [by apply list_elem_of_In|].
      apply negb_true_iff, bool_decide_eq_false in H2. done.
    - intros [H1 H2]. exists u. split; [f_equal; lia|]. apply filter_In.
      split; [by apply list_elem_of_In|]. by apply negb_true_iff, bool_decide_eq_false. }
  split.
  - intros u du [H|H]%elem_of_app; [apply W; by right|].
    unfold new in H. apply list_elem_of_In, in_map_iff in H as (u' & [= -> <-] & [H1 _]%filter_In).
    rewrite Nat.add_1_r. econstructor; [apply Dv|]. by apply list_elem_of_In.
  - eapply levels_push; [done|]. apply Forall_forall. intros e He.
    unfold new in He. apply list_elem_of_In, in_map_iff in He as (u' & <- & _). simpl. lia.
  - intros p [->%elem_of_singleton|Hp]%elem_of_union.
    + exists d. split; [done|]. split; [lia|]. intros u Hu.
      destruct (decide (u ∈ {[v]} ∪ vis)); [by left|]. right.
      apply elem_of_app. right. by apply Hnew.
    + destruct (V p Hp) as (dp & Dp & Hle & Hadj).
      exists dp. split; [done|]. split; [lia|]. intros u Hu.
      destruct (Hadj u Hu) as [?|[[= -> _]|?]%elem_of_cons].
      * left. set_solver.
      * left. set_solver.
      * right. apply elem_of_app. by left.
  - right. destruct (Nat.max_spec md d) as [[Hlt ->]|[Hle ->]].
    + exists v. split; [set_solver|done].
    + destruct M as [[-> ->]|(p & Hp & Dp)].
      * exists v. split; [set_solver|]. by replace 0 with d by lia.
      * exists p. split; [set_solver|done].
  - destruct St as [?|[[= -> _]|?]%elem_of_cons].
    + left. set_solver.
    + left. set_solver.
    + right. apply elem_of_app. by left.
Qed.

Lemma bfs_inv_done g0 s vis md : bfs_inv g0 s [] vis md → eccentricity g0 s md.
Proof.
  intros I. assert (I' := I). destruct I' as [W L V M St].
  assert (Hs : s ∈ vis) by (by destruct St as [?|?%elem_of_nil]).
  split.
  - destruct M as [[-> _]|(p & _ & Dp)]; [by apply not_elem_of_empty in Hs|eauto].
  - intros v d Dv. destruct (bfs_frontier _ _ _ _ _ _ _ I (proj1 Dv))
      as [Hv|(u & du & ?%elem_of_nil & _)]; [|done].
    destruct (V v Hv) as (dv & Dv' & Hle & _).
    by rewrite (dist_unique _ _ _ _ _ Dv Dv').
Qed.

Lemma bfs_loop_correct g0 s fuel :
  ∀ g q vis md r g',
    bfs_loop fuel g q vis md = Some (r, g') →
    same_edges g0 g → bfs_inv g0 s q vis md →
    same_edges g0 g' ∧ eccentricity g0 s r.
Proof.
  induction fuel as [|fuel IH]; intros g q vis md r g' H E I; [done|].
  simpl in H. destruct q as [|[v d] q].
  - injection H as <- <-. split; [done|]. by eapply bfs_inv_done.
  - case_bool_decide as Hv.
    + eapply IH; [done|done|]. by eapply bfs_inv_skip.
    + destruct (getitem_spec g v) as [G1 G2].
      destruct (getitem g v) as [deps g1]. simpl in G1, G2. subst deps.
      eapply IH; [done|by eapply same_edges_trans|].
      destruct E as [_ E]. rewrite E. by apply bfs_inv_visit.
Qed.

Lemma bfs_loop_mono fuel fuel' g q vis md r :
  fuel ≤ fuel' → bfs_loop fuel g q vis md = Some r → bfs_loop fuel' g q vis md = Some r.
Proof.
  revert fuel' g q vis md.
  induction fuel as [|fuel IH]; intros fuel' g q vis md Hle H; [done|].
  destruct fuel' as [|fuel']; [lia|]. simpl in *.
  destruct q as [|[v d] q]; [done|].
  case_bool_decide; [apply IH; [lia|done]|].
  destruct (getitem g v) as [deps g1]. apply IH; [lia|done].
Qed.

Lemma bfs_loop_total g0 (U : gset string) :
  (∀ x n, n ∈ adj g0 x → n ∈ U) →
  ∀ k vis, size (U ∖ vis) ≤ k →
    ∀ q g md, (∀ e, e ∈ q → e.1 ∈ U) → (∀ x, adj g x = adj g0 x) →
      ∃ fuel r, bfs_loop fuel g q vis md = Some r.
Proof.
  intros HU.
  assert (Hskip : ∀ vis v d q g md,
            (∀ g md, (∀ e, e ∈ q → e.1 ∈ U) → (∀ x, adj g x = adj g0 x) →
               ∃ fuel r, bfs_loop fuel g q vis md = Some r) →
            (∀ e, e ∈ (v, d) :: q → e.1 ∈ U) → (∀ x, adj g x = adj g0 x) →
            v ∈ vis → ∃ fuel r, bfs_loop fuel g ((v, d) :: q) vis md = Some r).
  { intros vis v d q g md IHq Hq Hg Hv.
    destruct (IHq g md) as (fuel & r & E); [set_solver|done|].
    exists (S fuel), r. simpl. by rewrite bool_decide_eq_true_2. }
  induction k as [|k IHk]; intros vis Hsz; induction q as [|[v d] q IHq]; intros g md Hq Hg.
  - by exists 1, (md, g).
  - apply Hskip; [done..|].
    assert (U ∖ vis ≡ ∅) as Hempty by (apply size_empty_inv; lia).
    assert (v ∈ U) by (apply (Hq (v, d)); by left).
    destruct (decide (v ∈ vis)); [done|]. set_solver.
  - by exists 1, (md, g).
  - destruct (decide (v ∈ vis)) as [Hv|Hv]; [by apply Hskip|].
    assert (v ∈ U) by (apply (Hq (v, d)); by left).
    destruct (getitem_spec g v) as [G1 [_ G2]].
    destruct (getitem g v) as [deps g1] eqn:G. simpl in G1, G2. subst deps.
    destruct (IHk ({[v]} ∪ vis)) with
      (q := q ++ List.map (fun u => (u, d + 1))
              (List.filter (fun u => negb (bool_decide (u ∈ {[v]} ∪ vis))) (adj g v)))
      (g := g1) (md := Nat.max md d) as (fuel & r & E).
    + assert (U ∖ ({[v]} ∪ vis) ⊂ U ∖ vis) as Hsub.
      { split; [set_solver|]. intros Hinv.
        assert (v ∈ U ∖ vis) as Hin by set_solver. apply Hinv in Hin. set_solver. }
      apply subset_size in Hsub. lia.
    + intros e [He|He]%elem_of_app; [apply Hq; by right|].
      apply list_elem_of_In, in_map_iff in He as (u & <- & [Hu _]%filter_In). simpl.
      apply (HU v). rewrite <- Hg. by apply list_elem_of_In.
    + intros x. by rewrite G2.
    + exists (S fuel), r. simpl. rewrite bool_decide_eq_false_2 by done. by rewrite G.
Qed.

Lemma walk_from_leaf g s v n : adj g s = [] → walk g s v n → v = s ∧ n = 0.
Proof.
  intros A. induction 1 as [|u v n W [-> ->] E]; [done|].
  rewrite A in E. by apply elem_of_nil in E.
Qed.

Lemma dist_here g s : dist g s s 0.
Proof. split; [constructor|lia]. Qed.

Lemma eccentricity_leaf g s : adj g s = [] → eccentricity g s 0.
Proof.
  intros A. split; [exists s; apply dist_here|].
  intros v d [W _]. by destruct (walk_from_leaf _ _ _ _ A W) as [_ ->].
Qed.

Lemma eccentricity_unique g s m1 m2 : eccentricity g s m1 → eccentricity g s m2 → m1 = m2.
Proof.
  intros [(v1 & D1) U1] [(v2 & D2) U2].
  apply Nat.le_antisymm; [by eapply U2|by eapply U1].
Qed.

Lemma calculate_depth_from_node_correct g0 g s fuel r g' :
  same_edges g0 g → calculate_depth_from_node fuel g s = Some (r, g') →
  same_edges g0 g' ∧ eccentricity g0 s r.
Proof.
  intros E H. unfold calculate_depth_from_node in H.
  destruct (g !! s) eqn:L.
  - eapply bfs_loop_correct; [done|done|apply bfs_inv_initial].
  - injection H as <- <-. split; [done|]. apply eccentricity_leaf.
    destruct E as [_ <-]. unfold adj. by rewrite L.
Qed.

Lemma calculate_depth_from_node_total g0 g s :
  same_edges g0 g →
  ∃ fuel0 r, ∀ fuel, fuel0 ≤ fuel → calculate_depth_from_node fuel g s = Some r.
Proof.
  intros [_ E]. unfold calculate_depth_from_node. destruct (g !! s); [|by exists 0, (0, g)].
  destruct (bfs_loop_total g0 (graph_nodes g0 [s]) (adj_graph_nodes g0 [s])
              _ ∅ (le_n _) [(s, 0)] g 0) as (fuel0 & r & H).
  - intros e ->%list_elem_of_singleton. simpl.
    apply elem_of_list_to_set, elem_of_app. left. by apply list_elem_of_singleton.
  - done.
  - exists fuel0, r. intros fuel Hle. by eapply bfs_loop_mono.
Qed.

Lemma depth_over_roots_spec g0 roots :
  ∀ g md, same_edges g0 g →
    ∃ fuel0 r g', (∀ fuel, fuel0 ≤ fuel → depth_over_roots fuel g roots md = Some (r, g'))
      ∧ same_edges g0 g' ∧ md ≤ r
      ∧ (∀ s, s ∈ roots → ∃ m, eccentricity g0 s m ∧ m ≤ r)
      ∧ (r = md ∨ ∃ s, s ∈ roots ∧ eccentricity g0 s r).
Proof.
  induction roots as [|root roots IH]; intros g md E.
  - exists 0, md, g. split; [done|]. split; [done|]. split; [done|].
    split; [by intros s ?%elem_of_nil|by left].
  - destruct (calculate_depth_from_node_total g0 g root E) as (fuel1 & [d1 g1] & H1).
    destruct (calculate_depth_from_node_correct g0 g root fuel1 d1 g1 E (H1 _ (le_n _)))
      as [E1 X1].
    destruct (IH g1 (Nat.max md d1) E1) as (fuel2 & r & g' & H2 & E2 & Hle & Hall & Hmax).
    exists (Nat.max fuel1 fuel2), r, g'. split; [|split; [done|split; [lia|split]]].
    + intros fuel Hf. simpl. rewrite H1 by lia. apply H2. lia.
    + intros s [->|Hs]%elem_of_cons; [|by apply Hall].
      exists d1. split; [done|lia].
    + destruct Hmax as [->|(s & Hs & Xs)].
      * destruct (Nat.max_spec md d1) as [[_ ->]|[_ ->]]; [|by left].
        right. exists root. split; [by left|done].
      * right. exists s. split; [by right|done].
Qed.

Lemma select_empty_spec ns :
  ∀ d, same_edges d (select_empty d ns).2
       ∧ ∀ n, n ∈ (select_empty d ns).1 ↔ n ∈ ns ∧ adj d n = [].
Proof.
  induction ns as [|node ns IH]; intros d; simpl.
  - split; [apply same_edges_refl|]. intros n. split; [by intros ?%elem_of_nil|].
    by intros [?%elem_of_nil _].
  - destruct (getitem_spec d node) as [G1 G2].
    destruct (getitem d node) as [l d1]. simpl in G1, G2. subst l.
    destruct (IH d1) as [E1 S1].
    destruct (select_empty d1 ns) as [sel d2]. simpl in *.
    split; [by eapply same_edges_trans|].
    intros n. destruct G2 as [_ G2].
    destruct (adj d node) eqn:A.
    + rewrite elem_of_cons, S1, G2, elem_of_cons. naive_solver.
    + rewrite S1, G2, elem_of_cons. split; [naive_solver|].
      intros [[->|?] Hn]; [congruence|done].
Qed.

(** * The analyzer: metrics *)

Lemma closed_walk_same_edges g g' c :
  (∀ k, adj g' k = adj g k) → closed_walk g' c → closed_walk g c.
Proof.
  intros A (L & H & C). split; [done|]. split; [done|].
  intros i u v Hu Hv. rewrite <- A. by eapply C.
Qed.

Lemma calculate_graph_metrics_spec (a : analyzer) :
  ∃ fuel0 a',
    (∀ fuel, fuel0 ≤ fuel → calculate_graph_metrics fuel a = Some (Ok a'))
    ∧ nodes a' = nodes a ∧ package_info a' = package_info a
    ∧ same_edges (graph a) (graph a')
    ∧ same_edges (reverse_graph a) (reverse_graph a')
    ∧ is_max_depth a (max_depth (stats a'))
    ∧ Forall (closed_walk (graph a)) (circular_dependencies (stats a')).
Proof.
  unfold calculate_graph_metrics.
  destruct (select_empty_spec (nodes a) (reverse_graph a)) as [ER SR].
  destruct (select_empty (reverse_graph a) (nodes a)) as [roots rg1]. simpl in ER, SR.
  destruct (select_empty_spec (nodes a) (graph a)) as [EL _].
  destruct (select_empty (graph a) (nodes a)) as [leaves g1]. simpl in EL.
  destruct (depth_over_roots_spec (graph a) roots g1 0 EL)
    as (fuel1 & depth & g2 & H1 & E2 & _ & Hall & Hmax).
  destruct (detect_circular_dependencies_total g2 (nodes a) (S (size (graph_nodes g2 (nodes a)))))
    as (cs & H2 & Y); [lia|].
  eexists (Nat.max fuel1 (S (size (graph_nodes g2 (nodes a))))), _.
  split; [|split; [|split; [|split; [|split; [|split]]]]].
  - intros fuel Hf. rewrite H1 by lia.
    assert (S (size (graph_nodes g2 (nodes a))) ≤ fuel) as Hle by lia.
    rewrite (detect_circular_dependencies_mono _ _ _ _ _ Hle H2). reflexivity.
  - done.
  - done.
  - done.
  - done.
  - simpl. split.
    + intros r v d Hr Dv. destruct (Hall r) as (m & [_ Um] & Hle); [by apply SR|].
      specialize (Um _ _ Dv). lia.
    + destruct Hmax as [->|(s & Hs & [(v & Dv) _])].
      * destruct roots as [|r roots].
        { right. split; [|done]. intros r Hr%SR. by apply elem_of_nil in Hr. }
        left. exists r, r. split; [apply SR; by left|apply dist_here].
      * left. exists s, v. split; [by apply SR|done].
  - simpl. eapply Forall_impl; [exact Y|]. intros c. apply closed_walk_same_edges.
    intros k. apply E2.
Qed.

(** Claim C4.  The maximum depth that [calculate_graph_metrics] reports is
    the greatest distance, counted in edges along a shortest walk, from a
    root (a node with an empty reverse adjacency) to a node reachable
    from it; it is 0 when there is no root, and whenever no root has an
    outgoing edge. *)
Theorem max_depth_is_greatest_shortest_distance (a : analyzer) :
  ∃ fuel0, ∀ fuel, fuel0 ≤ fuel →
    ∃ a', calculate_graph_metrics fuel a = Some (Ok a')
          ∧ is_max_depth a (max_depth (stats a'))
          ∧ ((∀ r, is_root a r → adj (graph a) r = []) → max_depth (stats a') = 0).
Proof.
  destruct (calculate_graph_metrics_spec a) as (fuel0 & a' & H & _ & _ & _ & _ & M & _).
  exists fuel0. intros fuel Hf. exists a'. split; [by apply H|]. split; [done|].
  intros Hleaf. destruct M as [_ [(r & v & Hr & [W _])|[_ ->]]]; [|done].
  by destruct (walk_from_leaf _ _ _ _ (Hleaf r Hr) W) as [_ ->].
Qed.

(** Claim C6, amended.  Computing the metrics leaves the node set as it
    was, keeps every entry of the forward and of the reverse adjacency
    map, and leaves the out-edges and the in-edges of every identifier
    as they were: whatever keys the maps gain hold the empty list. *)
Theorem metrics_keep_nodes_and_edges (a : analyzer) :
  ∃ fuel0, ∀ fuel, fuel0 ≤ fuel →
    ∃ a', calculate_graph_metrics fuel a = Some (Ok a')
          ∧ nodes a' = nodes a
          ∧ graph a ⊆ graph a'
          ∧ reverse_graph a ⊆ reverse_graph a'
          ∧ (∀ k, adj (graph a') k = adj (graph a) k)
          ∧ (∀ k, adj (reverse_graph a') k = adj (reverse_graph a) k).
Proof.
  destruct (calculate_graph_metrics_spec a)
    as (fuel0 & a' & H & N & _ & [G1 G2] & [R1 R2] & _ & _).
  exists fuel0. intros fuel Hf. exists a'. split; [by apply H|]. done.
Qed.

(** * The analyzer: scanning *)

Lemma set_add_elem x y s : x ∈ set_add y s ↔ x = y ∨ x ∈ s.
Proof.
  unfold set_add. case_bool_decide; [set_solver|].
  rewrite elem_of_app, list_elem_of_singleton. tauto.
Qed.

Lemma set_add_NoDup y s : NoDup s → NoDup (set_add y s).
Proof.
  intros N. unfold set_add. case_bool_decide; [done|].
  apply NoDup_app. split; [done|]. split; [|apply NoDup_singleton].
  by intros x Hx ->%list_elem_of_singleton.
Qed.

Lemma adj_append_item d k x k' :
  adj (append_item d k x) k' = if decide (k = k') then adj d k ++ [x] else adj d k'.
Proof.
  unfold append_item, adj at 1. case_decide as E.
  - subst. by rewrite lookup_insert_eq.
  - by rewrite lookup_insert_ne.
Qed.

Lemma add_dependency_sound k a dep :
  k ∈ nodes a → no_dangling a → reverse_consistent a →
  k ∈ nodes (add_dependency k a dep)
  ∧ no_dangling (add_dependency k a dep)
  ∧ reverse_consistent (add_dependency k a dep)
  ∧ adj (graph (add_dependency k a dep)) k = adj (graph a) k ++ [dep].
Proof.
  intros Hk [F R] C. split; [simpl; apply set_add_elem; by right|].
  split; [split|split].
  - intros src tgt. simpl. rewrite adj_append_item, !set_add_elem.
    case_decide as E.
    + subst. intros [H| ->%list_elem_of_singleton]%elem_of_app; [|by auto].
      destruct (F _ _ H). auto.
    + intros H. destruct (F _ _ H). auto.
  - intros tgt src. simpl. rewrite adj_append_item, !set_add_elem.
    case_decide as E.
    + subst. intros [H| ->%list_elem_of_singleton]%elem_of_app; [|by auto].
      destruct (R _ _ H). auto.
    + intros H. destruct (R _ _ H). auto.
  - intros src tgt. simpl. rewrite !adj_append_item. unfold reverse_consistent in C.
    repeat case_decide; subst; rewrite ?elem_of_app, ?list_elem_of_singleton, ?C;
      naive_solver.
  - simpl. rewrite adj_append_item. by rewrite decide_True.
Qed.

Lemma add_dependencies_sound k deps :
  ∀ a, k ∈ nodes a → no_dangling a → reverse_consistent a →
    no_dangling (fold_left (add_dependency k) deps a)
    ∧ reverse_consistent (fold_left (add_dependency k) deps a)
    ∧ adj (graph (fold_left (add_dependency k) deps a)) k = adj (graph a) k ++ deps.
Proof.
  induction deps as [|dep deps IH]; intros a Hk D C; simpl.
  - by rewrite app_nil_r.
  - destruct (add_dependency_sound k a dep Hk D C) as (Hk1 & D1 & C1 & A1).
    destruct (IH _ Hk1 D1 C1) as (D2 & C2 & A2).
    split; [done|]. split; [done|]. by rewrite A2, A1, <- app_assoc.
Qed.

Lemma scan_package_sound a e :
  no_dangling a → reverse_consistent a →
  no_dangling (scan_package a e) ∧ reverse_consistent (scan_package a e).
Proof.
  intros D C. unfold scan_package.
  destruct (entry_isdir e); [|done]. destruct (entry_manifest e) as [file|]; [|done].
  cbv zeta. fold (entry_key e).
  match goal with |- context [fold_left _ _ ?a1] => set (a' := a1) end.
  destruct (add_dependencies_sound (entry_key e) (dependencies (parse_package_swift file)) a')
    as (D' & C' & _); [| |done|done].
  - simpl. apply set_add_elem. by left.
  - destruct D as [F R]. split.
    + intros src tgt H. simpl. rewrite !set_add_elem. destruct (F _ _ H). auto.
    + intros src tgt H. simpl. rewrite !set_add_elem. destruct (R _ _ H). auto.
Qed.

Lemma scan_package_edges a e file :
  entry_isdir e = true → entry_manifest e = Some file →
  no_dangling a → reverse_consistent a →
  adj (graph (scan_package a e)) (entry_key e) =
    adj (graph a) (entry_key e) ++ dependencies (parse_package_swift file).
Proof.
  intros H1 H2 D C. unfold scan_package. rewrite H1, H2.
  cbv zeta. fold (entry_key e).
  match goal with |- context [fold_left _ _ ?a1] => set (a' := a1) end.
  destruct (add_dependencies_sound (entry_key e) (dependencies (parse_package_swift file)) a')
    as (_ & _ & A); [| | |done].
  - simpl. apply set_add_elem. by left.
  - destruct D as [F R]. split.
    + intros src tgt H. simpl. rewrite !set_add_elem. destruct (F _ _ H). auto.
    + intros src tgt H. simpl. rewrite !set_add_elem. destruct (R _ _ H). auto.
  - done.
Qed.

Lemma scan_directory_structure_sound base_dir a :
  no_dangling a → reverse_consistent a →
  no_dangling (scan_directory_structure base_dir a)
  ∧ reverse_consistent (scan_directory_structure base_dir a).
Proof.
  unfold scan_directory_structure. destruct base_dir as [listing|]; [|done].
  generalize (List.filter
    (fun d => root_isdir d && negb (Py.starts_with (Py.chars ".") (Py.chars (root_name d))))
    listing).
  intros roots. revert a. induction roots as [|r roots IH]; intros a D C; [done|].
  simpl. apply IH.
  - clear IH. generalize (root_listing r). intros es. revert a D C.
    induction es as [|e es IHe]; intros a D C; [done|].
    simpl. destruct (scan_package_sound a e D C). by apply IHe.
  - clear IH. generalize (root_listing r). intros es. revert a D C.
    induction es as [|e es IHe]; intros a D C; [done|].
    simpl. destruct (scan_package_sound a e D C). by apply IHe.
Qed.

Lemma new_analyzer_sound : no_dangling new_analyzer ∧ reverse_consistent new_analyzer.
Proof.
  split; [split|]; intros x y; unfold adj; simpl; rewrite ?lookup_empty; simpl;
    try (by intros ?%elem_of_nil).
  split; by intros ?%elem_of_nil.
Qed.

(** Claim C7.  Scanning a directory tree keeps the graph free of dangling
    edges, so the graph a scan builds from the empty analyzer has none:
    source and target of every edge, forward or reverse, are in the node
    set.  In the state a run of the resolver ends with, the source of
    every edge is a visited identifier and its target is visited or
    failed. *)
Theorem no_dangling_edges :
  (∀ base_dir a, no_dangling a → reverse_consistent a →
     no_dangling (scan_directory_structure base_dir a))
  ∧ (∀ base_dir, no_dangling (scan_directory_structure base_dir new_analyzer))
  ∧ (∀ fetch fuel urls st,
       process_all_repositories fetch fuel urls initial = Some (Ok st) →
       ∀ src tgt, tgt ∈ adj (dependency_graph st) src →
         src ∈ processed_repos st
         ∧ (tgt ∈ processed_repos st ∨ tgt ∈ failed_repos st)).
Proof.
  split; [|split].
  - intros base_dir a D C. by apply scan_directory_structure_sound.
  - intros base_dir. apply scan_directory_structure_sound; apply new_analyzer_sound.
  - intros fetch fuel urls st H src tgt E.
    apply process_all_repositories_sound in H as [_ C].
    destruct (C edges_closed_initial src tgt E) as [? [?|?]]; done.
Qed.

(** * The claims on the parsers and the normalizer *)

Lemma found_urls_fold urls :
  ∀ found, NoDup found →
    let r := fold_left
      (fun found url => if mentions_github url then set_add url found else found)
      urls found in
    NoDup r ∧ ∀ x, x ∈ r ↔ x ∈ found ∨ (x ∈ urls ∧ mentions_github x = true).
Proof.
  induction urls as [|u urls IH]; intros found N; simpl.
  - split; [done|]. intros x. split; [by left|]. by intros [?|[?%elem_of_nil _]].
  - destruct (mentions_github u) eqn:G.
    + destruct (IH (set_add u found) (set_add_NoDup _ _ N)) as [N' M'].
      split; [done|]. intros x. rewrite M', set_add_elem, elem_of_cons. naive_solver.
    + destruct (IH found N) as [N' M'].
      split; [done|]. intros x. rewrite M', elem_of_cons. split; [naive_solver|].
      intros [?|[[->|?] ?]]; [by left|congruence|by right].
Qed.

Lemma extract_dependencies_from_content_spec content deps :
  extract_dependencies_from_content content = Ok deps →
  NoDup deps ∧ ∀ url, url ∈ deps ↔ url ∈ section_urls content ∧ mentions_github url = true.
Proof.
  unfold extract_dependencies_from_content, section_urls.
  destruct (Re.search Pat.dependencies content) as [m|].
  - set (deps_content := default "" _).
    destruct (found_urls_fold (declared_urls deps_content) [] (NoDup_nil_2)) as [N M].
    fold (found_urls deps_content) in N, M.
    destruct (match found_urls deps_content with [] => _ | _ => _ end); simpl; [|done].
    intros [= <-]. split; [done|]. intros url. rewrite M. split; [|by right].
    by intros [?%elem_of_nil|?].
  - intros [= <-]. split; [constructor|]. intros url. split; [by intros ?%elem_of_nil|].
    by intros [?%elem_of_nil _].
Qed.

Lemma extract_repo_info_from_url_truthy url k :
  extract_repo_info_from_url url = Ok (Some k) → Py.truthy k = true.
Proof.
  unfold extract_repo_info_from_url.
  destruct (Url.urlparse_path _) as [path|]; simpl; [|done].
  destruct (path_parts path) as [|owner [|repo ?]]; try done.
  intros [= <-]. by destruct owner.
Qed.

Lemma found_repo_keys_spec urls :
  ∀ found r, found_repo_keys urls found = Ok r → NoDup found →
    NoDup r
    ∧ ∀ k, k ∈ r ↔
        k ∈ found
        ∨ ∃ url, url ∈ urls ∧ mentions_github url = true
                 ∧ extract_repo_info_from_url url = Ok (Some k).
Proof.
  induction urls as [|u urls IH]; intros found r H N; simpl in H.
  - injection H as <-. split; [done|]. intros k. split; [by left|].
    by intros [?|(? & ?%elem_of_nil & _)].
  - destruct (mentions_github u) eqn:G.
    + destruct (extract_repo_info_from_url u) as [[k0|]|] eqn:E; simpl in H; [| |done].
      * rewrite (extract_repo_info_from_url_truthy _ _ E) in H.
        destruct (IH _ _ H (set_add_NoDup _ _ N)) as [N' M'].
        split; [done|]. intros k. rewrite M', set_add_elem. split.
        -- intros [[->|?]|(url & ? & ? & ?)]; [right; exists u|by left|right; exists url];
             by repeat split; try (by left); try (by right).
        -- intros [?|(url & [->|?]%elem_of_cons & ? & ?)];
             [by left; right|left; left; congruence|right; by exists url].
      * destruct (IH _ _ H N) as [N' M'].
        split; [done|]. intros k. rewrite M'. split.
        -- intros [?|(url & ? & ? & ?)]; [by left|right; exists url].
           by repeat split; try (by right).
        -- intros [?|(url & [->|?]%elem_of_cons & ? & ?)];
             [by left|congruence|right; by exists url].
    + destruct (IH _ _ H N) as [N' M'].
      split; [done|]. intros k. rewrite M'. split.
      * intros [?|(url & ? & ? & ?)]; [by left|right; exists url].
        by repeat split; try (by right).
      * intros [?|(url & [->|?]%elem_of_cons & ? & ?)];
          [by left|congruence|right; by exists url].
Qed.

Lemma parse_package_swift_spec content :
  has_package_swift (parse_package_swift (Some content)) = true →
  NoDup (dependencies (parse_package_swift (Some content)))
  ∧ ∀ k, k ∈ dependencies (parse_package_swift (Some content)) ↔
      ∃ url, url ∈ section_urls content ∧ mentions_github url = true
             ∧ extract_repo_info_from_url url = Ok (Some k).
Proof.
  unfold parse_package_swift, parse_content, section_urls.
  destruct (Re.search Pat.dependencies content) as [m|]; simpl.
  - destruct (found_repo_keys _ []) as [r|] eqn:F; simpl; [|done]. intros _.
    destruct (found_repo_keys_spec _ _ _ F (NoDup_nil_2)) as [N M].
    split; [done|]. intros k. rewrite M. split; [|by right].
    by intros [?%elem_of_nil|?].
  - intros _. split; [constructor|]. intros k. split; [by intros ?%elem_of_nil|].
    by intros (? & ?%elem_of_nil & _).
Qed.

Lemma parse_package_swift_NoDup file : NoDup (dependencies (parse_package_swift file)).
Proof.
  destruct file as [content|]; [|constructor].
  destruct (has_package_swift (parse_package_swift (Some content))) eqn:H.
  - by apply parse_package_swift_spec.
  - unfold parse_package_swift in *. destruct (parse_content content) as [info|] eqn:E.
    + unfold parse_content in E.
      destruct (match Re.search Pat.dependencies content with Some _ => _ | None => _ end);
        simpl in E; [|done]. injection E as <-. done.
    + constructor.
Qed.

(** Claim C2, amended.  The resolver's parser removes duplicates among
    locators as texts and in no other way: its result has no
    repetition and holds exactly the locators of the dependencies
    section that mention the hosting domain, so two spellings of one
    identifier are both kept; and each kept locator that has an
    identifier yields its own edge when the resolver records the
    manifest.  The analyzer's parser normalizes before it removes
    duplicates: its result has no repetition and holds exactly the
    identifiers of those locators, and a scan adds one edge for each. *)
Theorem locators_deduplicated_as_text_by_the_resolver :
  (∀ content,
     ∃ deps, extract_dependencies_from_content content = Ok deps
       ∧ NoDup deps
       ∧ ∀ url, url ∈ deps ↔ url ∈ section_urls content ∧ mentions_github url = true)
  ∧ (∀ fetch fuel url k st st' content deps,
       repo_key_of url = Ok (Some k) → ¬ resolved st k →
       fetch k = Manifest content →
       extract_dependencies_from_content content = Ok deps →
       download_package_swift fetch fuel url st = Some (true, st') →
       adj (dependency_graph st') k = adj (dependency_graph st) k ++ dep_keys deps)
  ∧ (∀ file, NoDup (dependencies (parse_package_swift file)))
  ∧ (∀ content,
       has_package_swift (parse_package_swift (Some content)) = true →
       ∀ k, k ∈ dependencies (parse_package_swift (Some content)) ↔
         ∃ url, url ∈ section_urls content ∧ mentions_github url = true
                ∧ extract_repo_info_from_url url = Ok (Some k))
  ∧ (∀ a e file,
       entry_isdir e = true → entry_manifest e = Some file →
       no_dangling a → reverse_consistent a →
       adj (graph (scan_package a e)) (entry_key e) =
         adj (graph a) (entry_key e) ++ dependencies (parse_package_swift file)).
Proof.
  split.
  { intros content.
    destruct (extract_dependencies_from_content_never_raises content) as [deps E].
    exists deps. split; [done|]. by apply extract_dependencies_from_content_spec. }
  split; [exact each_locator_its_own_edge|].
  split; [exact parse_package_swift_NoDup|].
  split; [intros content H; by apply parse_package_swift_spec|].
  exact scan_package_edges.
Qed.

(** Claim C2, counterexample.  The two spellings of one repository are
    both kept by the resolver's parser, and are one dependency, hence
    one edge, for the analyzer. *)
Lemma rescan_collapses_two_spellings :
  extract_repo_info_from_url "https://github.com/foo/bar.git" = Ok (Some "foo/bar")
  ∧ extract_repo_info_from_url "https://github.com/foo/bar" = Ok (Some "foo/bar")
  ∧ extract_dependencies_from_content two_spellings =
    Ok ["https://github.com/foo/bar.git"; "https://github.com/foo/bar"]
  ∧ dependencies (parse_package_swift (Some two_spellings)) = ["foo/bar"]
  ∧ adj (graph (scan_directory_structure spelled_tree new_analyzer)) "x/y" = ["foo/bar"].
Proof. repeat split; vm_compute; reflexivity. Qed.

Lemma two_spellings_witness :
  ∃ deps, extract_dependencies_from_content two_spellings = Ok deps
    ∧ NoDup deps
    ∧ ∀ url, url ∈ deps ↔ url ∈ section_urls two_spellings ∧ mentions_github url = true.
Proof. exact (proj1 locators_deduplicated_as_text_by_the_resolver two_spellings). Defined.

(** Claim C5, at the failing input.  A declaration that pins up to the
    next major version from 1.0.0 is reported as a plain [from],
    because the [from] pattern is tried first; tried in the specified
    order, the same patterns report the next major version.  For every
    declaration, the patterns for the next major and the next minor
    version are never the first to match: the answer is the same
    without them. *)
Lemma from_is_tried_before_upToNextMajor :
  analyze_version_constraint (declaration (".upToNextMajor(" +:+ from_1_0_0 +:+ ")")) =
    Ok "from 1.0.0"
  ∧ first_constraint specified_order
      (declaration (".upToNextMajor(" +:+ from_1_0_0 +:+ ")")) =
    Ok (Some "from 1.0.0 up to next major (< 2.0.0)")
  ∧ analyze_version_constraint (declaration from_1_0_0) = Ok "from 1.0.0"
  ∧ ∀ decl,
      first_constraint version_patterns decl = first_constraint reachable_patterns decl.
Proof.
  split; [vm_compute; reflexivity|]. split; [vm_compute; reflexivity|].
  split; [vm_compute; reflexivity|]. exact first_constraint_reachable.
Qed.

(** Claim C9, at the failing input.  A locator whose second path segment
    is empty is given the identifier [foo/] by the analyzer's
    normalizer; [extract_repo_info] returns the pair with the empty
    name, which the resolver then discards. *)
Lemma normalizer_accepts_empty_segment :
  path_parts "/foo//bar" = ["foo"; ""; "bar"]
  ∧ extract_repo_info_from_url "https://github.com/foo//bar" = Ok (Some "foo/")
  ∧ extract_repo_info "https://github.com/foo//bar" = Ok (Some ("foo", ""))
  ∧ repo_key_of "https://github.com/foo//bar" = Ok None
  ∧ ∀ url k,
      repo_key_of url = Ok (Some k) →
      ∃ owner repo, k = owner +:+ "/" +:+ repo ∧ owner ≠ "" ∧ repo ≠ "".
Proof.
  split; [vm_compute; reflexivity|]. split; [vm_compute; reflexivity|].
  split; [vm_compute; reflexivity|]. split; [vm_compute; reflexivity|].
  intros url k. unfold repo_key_of.
  destruct (extract_repo_info url) as [[[owner repo]|]|]; simpl; [|done..].
  destruct owner, repo; simpl; try done; intros [= <-]; eauto.
Qed.

(** Claim C6, counterexample.  Computing the metrics of a scanned tree
    that holds one package without dependencies changes both adjacency
    maps: each gains a key. *)
Lemma metrics_insert_empty_entries :
  ∃ a', calculate_graph_metrics 2 (scan_directory_structure leaf_tree new_analyzer)
          = Some (Ok a')
        ∧ graph a' ≠ graph (scan_directory_structure leaf_tree new_analyzer)
        ∧ reverse_graph a' ≠ reverse_graph (scan_directory_structure leaf_tree new_analyzer).
Proof.
  destruct (calculate_graph_metrics 2 (scan_directory_structure leaf_tree new_analyzer))
    as [[a'|]|] eqn:E; [|vm_compute in E; discriminate E..].
  exists a'. split; [done|].
  assert (graph a' !! "x/y" = Some [] ∧ reverse_graph a' !! "x/y" = Some []) as [G R].
  { vm_compute in E. injection E as <-. split; vm_compute; reflexivity. }
  split; intros H; [rewrite H in G|rewrite H in R]; vm_compute in G, R; discriminate.
Qed.

(** ** The examples of the specification *)

Example example_manifest_parsed :
  extract_dependencies_from_content example_manifest
    = Ok ["https://github.com/foo/bar.git"]
  ∧ repo_key_of "https://github.com/foo/bar.git" = Ok (Some "foo/bar")
  ∧ report_versions (Re.findall_whole Pat.full_package example_manifest)
    = Ok [("https://github.com/foo/bar.git", "from 1.0.0")]
  ∧ dependencies (parse_package_swift (Some example_manifest)) = ["foo/bar"].
Proof. repeat split; vm_compute; reflexivity. Qed.

Example self_dependency_resolved :
  ∃ st, process_all_repositories (fetch_of self_world) 2 ["https://github.com/a/a"] initial
          = Some (Ok st)
        ∧ fetched st = ["a/a"]
        ∧ dependency_graph st !! "a/a" = Some ["a/a"].
Proof.
  destruct (process_all_repositories _ _ _ _) as [[st|]|] eqn:E;
    [|vm_compute in E; discriminate E..].
  exists st. split; [done|]. vm_compute in E. injection E as <-.
  split; vm_compute; reflexivity.
Qed.

Example self_dependency_reported :
  ∃ a, calculate_graph_metrics 2 (scan_directory_structure self_tree new_analyzer)
         = Some (Ok a)
       ∧ circular_dependencies (stats a) = [["a/a"; "a/a"]]
       ∧ max_depth (stats a) = 0.
Proof.
  destruct (calculate_graph_metrics _ _) as [[a|]|] eqn:E;
    [|vm_compute in E; discriminate E..].
  exists a. split; [done|]. vm_compute in E. injection E as <-.
  split; reflexivity.
Qed.

Example shortcut_depth :
  ∃ a, calculate_graph_metrics 6 shortcut = Some (Ok a)
       ∧ max_depth (stats a) = 1 ∧ root_packages (stats a) = 2.
Proof.
  destruct (calculate_graph_metrics _ _) as [[a|]|] eqn:E;
    [|vm_compute in E; discriminate E..].
  exists a. split; [done|]. vm_compute in E. injection E as <-.
  split; reflexivity.
Qed.

(** ** Witnesses *)


Lemma triangle_witness :
  ∃ c, detect_circular_dependencies 4 triangle ["B"; "C"; "A"] = Some (Ok [c])
       ∧ (c = ["A"; "B"; "C"; "A"] ∨ c = ["B"; "C"; "A"; "B"]
          ∨ c = ["C"; "A"; "B"; "C"]).
Proof.
  apply (proj2 cycle_is_suffix_of_path ["B"; "C"; "A"] 4); [|lia].
  exact (Permutation_app_comm ["B"; "C"] ["A"]).
Defined.

Lemma spelled_tree_witness :
  no_dangling (scan_directory_structure spelled_tree new_analyzer).
Proof. exact (proj1 (proj2 no_dangling_edges) spelled_tree). Defined.

Lemma no_section_witness :
  has_package_swift (parse_package_swift (Some "// swift-tools-version:5.3")) = true
  ∧ dependencies (parse_package_swift (Some "// swift-tools-version:5.3")) = [].
Proof.
  apply (proj1 (proj2 unreadable_manifest_is_not_empty_manifest)).
  vm_compute. reflexivity.
Defined.

(** * Identifiers, locators and directory names *)

Lemma chars_str l : Py.chars (Py.str l) = l.
Proof. apply String.list_ascii_of_string_of_list_ascii. Qed.

Lemma str_chars s : Py.str (Py.chars s) = s.
Proof. apply String.string_of_list_ascii_of_string. Qed.

Lemma chars_app a b : Py.chars (a +:+ b) = Py.chars a ++ Py.chars b.
Proof.
  induction a as [|c a IH]; [done|].
  change (String c a +:+ b) with (String c (a +:+ b)).
  unfold Py.chars in *. simpl. by rewrite IH.
Qed.

Lemma str_app l1 l2 : Py.str (l1 ++ l2) = Py.str l1 +:+ Py.str l2.
Proof.
  rewrite <- (str_chars (Py.str l1 +:+ Py.str l2)), chars_app.
  by rewrite !chars_str.
Qed.

Lemma chars_inj s t : Py.chars s = Py.chars t → s = t.
Proof. intros H. by rewrite <- (str_chars s), H, str_chars. Qed.

Lemma eqc_true a b : Py.eqc a b = true ↔ a = b.
Proof. apply Ascii.eqb_eq. Qed.

Lemma eqc_false a b : Py.eqc a b = false ↔ a ≠ b.
Proof. apply Ascii.eqb_neq. Qed.

Lemma eqc_refl a : Py.eqc a a = true.
Proof. by apply eqc_true. Qed.

(** *** Splitting and stripping *)

Lemma split_not_nil sep s : Py.split sep s ≠ [].
Proof.
  destruct s as [|a s]; simpl; [done|].
  destruct (Py.eqc a sep); [done|]. by destruct (Py.split sep s).
Qed.

Lemma split_pieces sep s :
  Forall (fun p => sep ∉ p) (Py.split sep s).
Proof.
  induction s as [|a s IH]; simpl.
  - repeat constructor. apply not_elem_of_nil.
  - destruct (Py.eqc a sep) eqn:E.
    + constructor; [apply not_elem_of_nil|done].
    + apply eqc_false in E. destruct (Py.split sep s) as [|p ps].
      * repeat constructor. by intros ->%list_elem_of_singleton.
      * inversion IH; subst. constructor; [|done].
        intros [->|?]%elem_of_cons; done.
Qed.

Lemma split_Forall (P : ascii → Prop) sep s :
  Forall P s → Forall (Forall P) (Py.split sep s).
Proof.
  induction 1 as [|a s Ha Hs IH]; simpl; [by repeat constructor|].
  destruct (Py.eqc a sep); [by constructor|].
  destruct (Py.split sep s) as [|p ps]; [by repeat constructor|].
  inversion IH; subst. by repeat constructor.
Qed.

Lemma split_head sep a s :
  a ≠ sep → ∃ p ps, Py.split sep (a :: s) = (a :: p) :: ps.
Proof.
  intros Ha%eqc_false. simpl. rewrite Ha.
  destruct (Py.split sep s) as [|p ps]; eauto.
Qed.

Lemma split_none sep s : sep ∉ s → Py.split sep s = [s].
Proof.
  induction s as [|a s IH]; [done|]. intros H.
  apply not_elem_of_cons in H as [Ha Hs]. simpl.
  assert (Py.eqc a sep = false) as -> by (apply eqc_false; congruence).
  by rewrite IH.
Qed.

Lemma split_app sep o r :
  sep ∉ o → Py.split sep (o ++ sep :: r) = o :: Py.split sep r.
Proof.
  induction o as [|a o IH]; intros H; simpl.
  - by rewrite eqc_refl.
  - apply not_elem_of_cons in H as [Ha Ho].
    assert (Py.eqc a sep = false) as -> by (apply eqc_false; congruence).
    by rewrite IH.
Qed.

Lemma lstrip_suffix c s : Py.lstrip c s `suffix_of` s.
Proof.
  induction s as [|a s IH]; simpl; [done|].
  destruct (Py.eqc a c); [by apply suffix_cons_r|done].
Qed.

Lemma lstrip_head c s a t : Py.lstrip c s = a :: t → a ≠ c.
Proof.
  induction s as [|b s IH]; simpl; [done|].
  destruct (Py.eqc b c) eqn:E; [done|].
  intros [= -> ->]. by apply eqc_false.
Qed.

Lemma lstrip_id c a s : a ≠ c → Py.lstrip c (a :: s) = a :: s.
Proof. intros H%eqc_false. simpl. by rewrite H. Qed.

Lemma lstrip_snoc c l a : a ≠ c → ∃ l', Py.lstrip c (l ++ [a]) = l' ++ [a].
Proof.
  intros Ha. induction l as [|b l IH]; simpl.
  - apply eqc_false in Ha. rewrite Ha. by exists [].
  - destruct (Py.eqc b c); [done|]. by exists (b :: l).
Qed.

Lemma rstrip_prefix c s : Py.rstrip c s `prefix_of` s.
Proof.
  unfold Py.rstrip. destruct (lstrip_suffix c (rev s)) as [k Hk].
  exists (rev k). apply (f_equal (@rev _)) in Hk.
  by rewrite rev_involutive, rev_app_distr in Hk.
Qed.

Lemma rstrip_head c a s : a ≠ c → ∃ t, Py.rstrip c (a :: s) = a :: t.
Proof.
  intros Ha. unfold Py.rstrip. simpl rev.
  destruct (lstrip_snoc c (rev s) a Ha) as [l' ->].
  rewrite rev_app_distr. simpl. eauto.
Qed.

Lemma rstrip_id c s : (∀ a, last s = Some a → a ≠ c) → Py.rstrip c s = s.
Proof.
  intros H. unfold Py.rstrip. destruct s as [|a s _] using rev_ind; [done|].
  rewrite rev_app_distr. simpl.
  assert (Py.eqc a c = false) as ->.
  { apply eqc_false, H. by rewrite last_snoc. }
  change (rev (a :: rev s) = s ++ [a]). simpl. by rewrite rev_involutive.
Qed.

Lemma strip_Forall (P : ascii → Prop) c s : Forall P s → Forall P (Py.strip c s).
Proof.
  intros H. unfold Py.strip.
  destruct (rstrip_prefix c (Py.lstrip c s)) as [k Hk].
  destruct (lstrip_suffix c s) as [k' Hk'].
  rewrite Hk', Hk in H. by apply Forall_app in H as [_ [? _]%Forall_app].
Qed.

Lemma strip_head c s :
  Py.strip c s = [] ∨ ∃ a t, a ≠ c ∧ Py.strip c s = a :: t.
Proof.
  unfold Py.strip. destruct (Py.lstrip c s) as [|a t] eqn:E; [by left|].
  right. apply lstrip_head in E. destruct (rstrip_head c a t E) as [t' ->]. eauto.
Qed.

(** The first piece of a stripped path that has two pieces is not
    empty. *)
Lemma path_parts_shape path owner repo rest :
  path_parts path = owner :: repo :: rest →
  owner ≠ ""
  ∧ "/"%char ∉ Py.chars owner ∧ "/"%char ∉ Py.chars repo
  ∧ ∀ c, c ∈ Py.chars owner ++ Py.chars repo → c ∈ Py.chars path.
Proof.
  unfold path_parts. intros H.
  pose proof (split_pieces "/" (Py.strip "/" (Py.chars path))) as Hp.
  pose proof (split_Forall (fun c => c ∈ Py.chars path) "/"
                (Py.strip "/" (Py.chars path))) as Hin.
  destruct (strip_head "/" (Py.chars path)) as [E|(a & t & Ha & E)].
  - rewrite E in H. done.
  - rewrite E in H, Hp. destruct (split_head "/" a t Ha) as (p & ps & Hs).
    rewrite Hs in H, Hp. simpl in H. injection H as <- H.
    destruct ps as [|q ps]; [done|]. simpl in H. injection H as <- _.
    inversion Hp as [|? ? H1 Hp']; subst. inversion Hp' as [|? ? H2 _]; subst.
    split; [done|].
    change (String a (Py.str p)) with (Py.str (a :: p)).
    rewrite !chars_str. split; [done|]. split; [done|].
    intros c Hc.
    assert (Hall : Forall (Forall (fun c => c ∈ Py.chars path)) ((a :: p) :: q :: ps)).
    { rewrite <- Hs, <- E. apply Hin, strip_Forall, Forall_forall. auto. }
    inversion Hall as [|? ? G1 Hall']; subst. inversion Hall' as [|? ? G2 _]; subst.
    rewrite Forall_forall in G1, G2.
    apply elem_of_app in Hc as [?|?]; auto.
Qed.

Lemma cut_spec c s l r : Py.cut c s = Some (l, r) → s = l ++ c :: r ∧ c ∉ l.
Proof.
  revert l r. induction s as [|a s IH]; intros l r; simpl; [done|].
  destruct (Py.eqc a c) eqn:E.
  - apply eqc_true in E as ->. intros [= <- <-]. split; [done|apply not_elem_of_nil].
  - apply eqc_false in E. destruct (Py.cut c s) as [[l' r']|]; [|done].
    intros [= <- <-]. destruct (IH _ _ eq_refl) as [-> Hl].
    split; [done|]. by intros [->|?]%elem_of_cons.
Qed.

Lemma cut_none c s : c ∉ s → Py.cut c s = None.
Proof.
  induction s as [|a s IH]; [done|]. intros [Ha Hs]%not_elem_of_cons. simpl.
  assert (Py.eqc a c = false) as -> by (apply eqc_false; congruence).
  by rewrite IH.
Qed.

Lemma before_prefix c s : Py.before c s `prefix_of` s.
Proof.
  unfold Py.before. destruct (Py.cut c s) as [[l r]|] eqn:E; [|done].
  apply cut_spec in E as [-> _]. by exists (c :: r).
Qed.

Lemma before_without c s : c ∉ Py.before c s.
Proof.
  unfold Py.before. destruct (Py.cut c s) as [[l r]|] eqn:E.
  - by apply cut_spec in E as [_ ?].
  - intros Hc. induction s as [|a s IH]; [by apply elem_of_nil in Hc|].
    simpl in E. destruct (Py.eqc a c) eqn:Ea; [done|].
    apply eqc_false in Ea. destruct (Py.cut c s) as [[??]|]; [done|].
    apply elem_of_cons in Hc as [->|?]; [done|auto].
Qed.

Lemma before_id c s : c ∉ s → Py.before c s = s.
Proof. intros H. unfold Py.before. by rewrite cut_none. Qed.

Lemma mem_true c s : Py.mem c s = true ↔ c ∈ s.
Proof.
  unfold Py.mem. rewrite existsb_exists. split.
  - intros (x & Hx & ->%eqc_true). by apply list_elem_of_In.
  - intros H. exists c. split; [by apply list_elem_of_In|apply eqc_refl].
Qed.

Lemma mem_false c s : Py.mem c s = false ↔ c ∉ s.
Proof. rewrite <- mem_true. by destruct (Py.mem c s). Qed.

Lemma Forall_prefix {A} (P : A → Prop) l k : l `prefix_of` k → Forall P k → Forall P l.
Proof. intros [t ->] H. by apply Forall_app in H as [? _]. Qed.

Lemma Forall_suffix {A} (P : A → Prop) l k : l `suffix_of` k → Forall P k → Forall P l.
Proof. intros [t ->] H. by apply Forall_app in H as [_ ?]. Qed.

Lemma split_last_Forall (P : ascii → Prop) sep s :
  Forall P s → Forall P (List.last (Py.split sep s) []).
Proof.
  intros H%(split_Forall P sep). induction H as [|p ps Hp Hps IH]; [done|].
  destruct ps; [done|]. exact IH.
Qed.

Lemma split_params_Forall (P : ascii → Prop) url :
  Forall P url → Forall P (Url.split_params url).
Proof.
  intros H. unfold Url.split_params. destruct (Py.mem "/" url).
  - pose proof (split_last_Forall P "/" url H) as Hl.
    destruct (Py.cut ";" (List.last (Py.split "/" url) [])) as [[l r]|] eqn:E; [|done].
    apply cut_spec in E as [E _]. rewrite E in Hl.
    apply Forall_app in Hl as [Hl _]. apply Forall_app. split; [|done].
    by apply Forall_take.
  - by apply (Forall_prefix _ _ _ (before_prefix _ _)).
Qed.

Lemma lstrip_c0_suffix s : Url.lstrip_c0 s `suffix_of` s.
Proof.
  induction s as [|a s IH]; simpl; [done|].
  destruct (Url.c0_or_space a); [by apply suffix_cons_r|done].
Qed.

Lemma split_netloc_suffix s : (Url.split_netloc s).2 `suffix_of` s.
Proof.
  induction s as [|a s IH]; [done|].
  cbn [Url.split_netloc]. destruct (Py.mem a (Py.chars "/?#")); [done|].
  destruct (Url.split_netloc s) as [n r]. by apply suffix_cons_r.
Qed.

Lemma split_scheme_suffix u : (Url.split_scheme u).2 `suffix_of` u.
Proof.
  unfold Url.split_scheme. destruct (Py.cut ":" u) as [[[|a sch] rest]|] eqn:E; try done.
  destruct (Py.is_alpha a && forallb Url.scheme_char (a :: sch)); [|done].
  apply cut_spec in E as [-> _]. simpl. by exists (a :: sch ++ [":"%char]); simplify_list_eq.
Qed.

Lemma urlparse_path_chars url path :
  Url.urlparse_path url = Ok path → Forall path_char (Py.chars path).
Proof.
  unfold Url.urlparse_path.
  set (u0 := List.filter _ _).
  assert (H0 : Forall (fun c => Url.unsafe_byte c = false) u0).
  { apply Forall_forall. intros c Hc%list_elem_of_In%filter_In.
    destruct Hc as [_ Hc]. by destruct (Url.unsafe_byte c). }
  pose proof (split_scheme_suffix u0) as Hs.
  destruct (Url.split_scheme u0) as [scheme u1]. simpl in Hs.
  assert (H1 : Forall (fun c => Url.unsafe_byte c = false) u1)
    by (by apply (Forall_suffix _ _ _ Hs)).
  assert (Hfin : ∀ u2, Forall (fun c => Url.unsafe_byte c = false) u2 →
            Forall path_char
              (let u := Py.before "#" u2 in
               let u := Py.before "?" u in
               if bool_decide (Py.str scheme ∈ Url.uses_params) && Py.mem ";" u
               then Url.split_params u else u)).
  { intros u2 H2. cbv zeta.
    assert (Forall path_char (Py.before "?" (Py.before "#" u2))) as Hq.
    { apply Forall_forall. intros c Hc. repeat split.
      - intros ->. by apply (before_without "?" (Py.before "#" u2)).
      - intros ->. apply (before_without "#" u2).
        destruct (before_prefix "?" (Py.before "#" u2)) as [k Hk].
        rewrite Hk. apply elem_of_app. by left.
      - rewrite Forall_forall in H2. apply H2.
        destruct (before_prefix "?" (Py.before "#" u2)) as [k Hk].
        destruct (before_prefix "#" u2) as [k' Hk'].
        rewrite Hk', Hk. apply elem_of_app. left. apply elem_of_app. by left. }
    destruct (_ && _); [by apply split_params_Forall|done]. }
  destruct (Py.starts_with (Py.chars "//") u1).
  - pose proof (split_netloc_suffix (drop 2 u1)) as Hn.
    destruct (Url.split_netloc (drop 2 u1)) as [netloc rest]. simpl in Hn.
    destruct (xorb _ _); [done|]. simpl. intros [= <-]. rewrite chars_str.
    apply Hfin. apply (Forall_suffix _ _ _ Hn). by apply Forall_drop.
  - simpl. intros [= <-]. rewrite chars_str. by apply Hfin.
Qed.

Lemma truthy_true s : Py.truthy s = true ↔ s ≠ "".
Proof. by destruct s. Qed.

Lemma extract_repo_info_shape url owner repo :
  extract_repo_info url = Ok (Some (owner, repo)) →
  segment owner ∧ "/"%char ∉ Py.chars repo ∧ Forall path_char (Py.chars repo).
Proof.
  unfold extract_repo_info.
  destruct (Url.urlparse_path (strip_git url)) as [path|] eqn:E; [|done]. simpl.
  destruct (path_parts path) as [|o [|r rest]] eqn:Hp; try done.
  intros [= -> ->]. apply urlparse_path_chars in E.
  destruct (path_parts_shape _ _ _ _ Hp) as (H1 & H2 & H3 & H4).
  rewrite Forall_forall in E.
  repeat split; try done; apply Forall_forall; intros c Hc;
    apply E, H4, elem_of_app; auto.
Qed.

Lemma repo_key_of_shape url k :
  repo_key_of url = Ok (Some k) →
  ∃ owner repo, k = owner +:+ "/" +:+ repo ∧ segment owner ∧ segment repo
                ∧ extract_repo_info url = Ok (Some (owner, repo)).
Proof.
  unfold repo_key_of.
  destruct (extract_repo_info url) as [[[owner repo]|]|] eqn:E; try done. simpl.
  destruct (Py.truthy owner) eqn:To; [|done].
  destruct (Py.truthy repo) eqn:Tr; [|done]. simpl. intros [= <-].
  apply extract_repo_info_shape in E as (Ho & Hr1 & Hr2).
  exists owner, repo. split; [done|]. split; [done|]. split; [|done].
  split; [by apply truthy_true|done].
Qed.

Lemma extract_repo_info_from_url_eq url :
  extract_repo_info_from_url url =
    r ← extract_repo_info url;
    Ok (match r with
        | Some (owner, repo) => Some (owner +:+ "/" +:+ repo)
        | None => None
        end).
Proof.
  unfold extract_repo_info_from_url, extract_repo_info.
  destruct (Url.urlparse_path (strip_git url)) as [path|]; [|done]. simpl.
  by destruct (path_parts path) as [|o [|r rest]].
Qed.

Lemma replace_without a b s : a ≠ b → a ∉ Py.replace a b s.
Proof.
  intros Hab. unfold Py.replace. intros (c & Hc & _)%list_elem_of_fmap.
  destruct (Py.eqc c a) eqn:E; [done|]. by apply eqc_false in E.
Qed.

Lemma replace_with a b s : a ∈ s → b ∈ Py.replace a b s.
Proof.
  intros H. unfold Py.replace. apply list_elem_of_fmap. exists a.
  by rewrite eqc_refl.
Qed.

Lemma replace_back a b s : Py.replace b a (Py.replace a b s) = Py.replace b a s.
Proof.
  unfold Py.replace. rewrite List.map_map. apply List.map_ext. intros c.
  destruct (Py.eqc c a) eqn:Ea, (Py.eqc c b) eqn:Eb; rewrite ?eqc_refl; try done.
  by apply eqc_true in Ea.
Qed.

Lemma replace_id a b s : a ≠ b → (Py.replace a b s = s ↔ a ∉ s).
Proof.
  intros Hab. unfold Py.replace. induction s as [|c s IH]; simpl.
  - split; [intros _; apply not_elem_of_nil|done].
  - rewrite not_elem_of_cons, <- IH. destruct (Py.eqc c a) eqn:E.
    + apply eqc_true in E as ->. split; [|intros [? _]; done].
      intros [= ? _]. done.
    + apply eqc_false in E. split.
      * intros [= ->]. done.
      * intros [_ ->]. done.
Qed.

Lemma starts_with_single c s : c ∉ s → Py.starts_with [c] s = false.
Proof.
  destruct s as [|a s]; [done|]. intros [H _]%not_elem_of_cons. simpl.
  assert (Py.eqc c a = false) as -> by (by apply eqc_false). done.
Qed.

Lemma ends_with_single c s : c ∉ s → Py.ends_with [c] s = false.
Proof.
  intros H. unfold Py.ends_with. simpl. apply starts_with_single.
  intros Hc%list_elem_of_In. apply H, list_elem_of_In, in_rev. exact Hc.
Qed.

Lemma append_assoc (a b c : string) : (a +:+ b) +:+ c = a +:+ (b +:+ c).
Proof. apply chars_inj. by rewrite !chars_app, app_assoc. Qed.

Lemma chars_nonempty s : s ≠ "" → Py.chars s ≠ [].
Proof. destruct s; [done|]. by intros _. Qed.

Lemma ends_with_last c s : Py.ends_with [c] s = true → last s = Some c.
Proof.
  unfold Py.ends_with. destruct s as [|a l _] using rev_ind; [done|].
  rewrite rev_app_distr. cbn [rev app Py.starts_with].
  destruct (Py.eqc c a) eqn:E; [|done]. apply eqc_true in E as ->.
  intros _. apply last_snoc.
Qed.

Lemma join_step_plain path d :
  path ≠ "" → (∀ a, last (Py.chars path) = Some a → a ≠ "/"%char) →
  "/"%char ∉ Py.chars d →
  Os.join_step path d = path +:+ "/" +:+ d.
Proof.
  intros Hp Hl Hd. unfold Os.join_step.
  change (Py.chars "/") with ["/"%char]. rewrite starts_with_single by done.
  apply truthy_true in Hp as ->. simpl.
  destruct (Py.ends_with ["/"%char] (Py.chars path)) eqn:E; [|done].
  apply ends_with_last in E. by apply Hl in E.
Qed.

Lemma last_app_cons_ne {A} (l k : list A) x : k ≠ [] → last (l ++ x :: k) = last k.
Proof.
  intros Hk. destruct k as [|y k _] using rev_ind; [done|].
  by rewrite app_comm_cons, app_assoc, !last_snoc.
Qed.

(** The path of a stored manifest, for identifiers that are not empty. *)
Lemma create_directory_path_eq k r :
  r ≠ "" →
  create_directory_path k r =
    base_dir +:+ "/" +:+ Py.str (Py.replace "/" "_" (Py.chars r))
             +:+ "/" +:+ Py.str (Py.replace "/" "_" (Py.chars k)).
Proof.
  intros Hr. unfold create_directory_path, Os.join. simpl.
  assert (N : "/"%char ≠ "_"%char) by done.
  rewrite (join_step_plain base_dir); [|done| |].
  - rewrite join_step_plain.
    + by rewrite !append_assoc.
    + by destruct base_dir.
    + rewrite !chars_app, chars_str. intros a Ha He. subst a.
      change (last (Py.chars base_dir ++ "/"%char :: Py.replace "/" "_" (Py.chars r))
              = Some "/"%char) in Ha.
      rewrite last_app_cons_ne in Ha.
      * apply last_Some_elem_of in Ha. by apply replace_without in Ha.
      * apply chars_nonempty in Hr. unfold Py.replace. by destruct (Py.chars r).
    + rewrite chars_str. by apply replace_without.
  - by intros a [= <-].
  - rewrite chars_str. by apply replace_without.
Qed.

Lemma component_of_identifier owner repo :
  component (Py.str (Py.replace "/" "_" (Py.chars (owner +:+ "/" +:+ repo)))).
Proof.
  assert (H : "_"%char ∈ Py.replace "/" "_" (Py.chars (owner +:+ "/" +:+ repo))).
  { apply replace_with. rewrite !chars_app. apply elem_of_app. right.
    apply elem_of_app. left. apply list_elem_of_here. }
  unfold component. rewrite chars_str.
  repeat split; try (intros E; apply (f_equal Py.chars) in E; rewrite chars_str in E;
                     rewrite E in H; by repeat (apply elem_of_cons in H as [H|H]; [done|]);
                     apply elem_of_nil in H).
  by apply replace_without.
Qed.

(** Property X3.  A manifest is stored exactly two directories below [base_dir]:
    for identifiers formed by the resolver, the path built by
    [create_directory_path] is [base_dir], the name made from the root
    identifier and the name made from the identifier, and both names are
    proper directory names (not empty, without a separator, neither [.]
    nor [..]), so that no locator can place a manifest outside
    [base_dir]. *)
Theorem manifest_stored_two_levels_below_base_dir url root_url repo_key root_repo_key :
  repo_key_of url = Ok (Some repo_key) →
  repo_key_of root_url = Ok (Some root_repo_key) →
  ∃ d1 d2,
    create_directory_path repo_key root_repo_key
      = base_dir +:+ "/" +:+ d1 +:+ "/" +:+ d2
    ∧ d1 = Py.str (Py.replace "/" "_" (Py.chars root_repo_key))
    ∧ d2 = Py.str (Py.replace "/" "_" (Py.chars repo_key))
    ∧ component d1 ∧ component d2.
Proof.
  intros (o & p & -> & Ho & _)%repo_key_of_shape (o' & p' & -> & Ho' & _)%repo_key_of_shape.
  eexists _, _. split; [|split; [reflexivity|split; [reflexivity|]]].
  - apply create_directory_path_eq. destruct Ho' as [N _]. by destruct o'.
  - split; apply component_of_identifier.
Qed.

Lemma manifest_stored_witness :
  ∃ d1 d2,
    create_directory_path "foo/bar" "x/y" = base_dir +:+ "/" +:+ d1 +:+ "/" +:+ d2
    ∧ d1 = Py.str (Py.replace "/" "_" (Py.chars "x/y"))
    ∧ d2 = Py.str (Py.replace "/" "_" (Py.chars "foo/bar"))
    ∧ component d1 ∧ component d2.
Proof.
  apply (manifest_stored_two_levels_below_base_dir
           "https://github.com/foo/bar.git" "https://github.com/x/y"); reflexivity.
Defined.

Lemma create_directory_path_name k r :
  ∃ parent,
    Py.chars (create_directory_path k r)
      = parent ++ "/"%char :: Py.replace "/" "_" (Py.chars k).
Proof.
  destruct (decide (r = "")) as [->|Hr].
  - exists (Py.chars base_dir).
    unfold create_directory_path, Os.join. cbn [fold_left].
    assert (N : "/"%char ≠ "_"%char) by done.
    rewrite (join_step_plain base_dir); [|done|by intros a [= <-]|apply not_elem_of_nil].
    unfold Os.join_step. change (Py.chars "/") with ["/"%char].
    rewrite starts_with_single by (rewrite chars_str; by apply replace_without).
    change (Py.ends_with _ (Py.chars (base_dir +:+ "/" +:+ Py.str (Py.replace "/" "_" (Py.chars "")))))
      with true.
    rewrite orb_true_r, chars_app, chars_str. done.
  - rewrite create_directory_path_eq by done.
    exists (Py.chars (base_dir +:+ "/" +:+ Py.str (Py.replace "/" "_" (Py.chars r)))).
    rewrite !chars_app, !chars_str. by rewrite <- !app_assoc.
Qed.

(** Property X4.  The analyzer names a stored package by putting slashes back for
    the underscores of its directory name.  The name is the last
    component of the path [create_directory_path] builds; what comes
    back is the identifier with every underscore turned into a slash,
    and so the identifier itself exactly when it holds no underscore. *)
Theorem directory_name_gives_identifier_back repo_key root_repo_key manifest :
  ∃ parent name,
    Py.chars (create_directory_path repo_key root_repo_key)
      = parent ++ "/"%char :: Py.chars name
    ∧ "/"%char ∉ Py.chars name
    ∧ entry_key (PackageEntry name true manifest)
      = Py.str (Py.replace "_" "/" (Py.chars repo_key))
    ∧ (entry_key (PackageEntry name true manifest) = repo_key
       ↔ "_"%char ∉ Py.chars repo_key).
Proof.
  destruct (create_directory_path_name repo_key root_repo_key) as [parent E].
  exists parent, (Py.str (Py.replace "/" "_" (Py.chars repo_key))).
  assert (N : "_"%char ≠ "/"%char) by done.
  assert (K : entry_key (PackageEntry (Py.str (Py.replace "/" "_" (Py.chars repo_key)))
                           true manifest)
              = Py.str (Py.replace "_" "/" (Py.chars repo_key))).
  { unfold entry_key. simpl. by rewrite chars_str, replace_back. }
  rewrite chars_str. split; [done|]. split; [by apply replace_without|].
  split; [done|]. rewrite K, <- (replace_id "_" "/") by done. split.
  - intros H. apply (f_equal Py.chars) in H. by rewrite chars_str in H.
  - intros ->. apply str_chars.
Qed.

Lemma filter_all {A} (f : A → bool) l :
  Forall (fun x => f x = true) l → List.filter f l = l.
Proof. induction 1 as [|x l Hx _ IH]; simpl; [done|]. by rewrite Hx, IH. Qed.

Lemma urlparse_path_github tail :
  Forall plain_char tail →
  Url.urlparse_path (Py.str (Py.chars "https://github.com" ++ "/"%char :: tail))
    = Ok (Py.str ("/"%char :: tail)).
Proof.
  intros H. unfold Url.urlparse_path. rewrite chars_str.
  assert (Hf : List.filter (fun c => negb (Url.unsafe_byte c)) tail = tail).
  { apply filter_all. eapply Forall_impl; [exact H|]. intros c [(_ & _ & ->) _]. done. }
  assert (Hh : ∀ c, c ∈ ["#"; "?"; ";"]%char → c ∉ "/"%char :: tail).
  { intros c Hc [->|Hin]%elem_of_cons.
    - by repeat (apply elem_of_cons in Hc as [Hc|Hc]; [done|]); apply elem_of_nil in Hc.
    - rewrite Forall_forall in H. destruct (H _ Hin) as [(? & ? & _) ?].
      repeat (apply elem_of_cons in Hc as [->|Hc]; [done|]). by apply elem_of_nil in Hc. }
  change (Url.lstrip_c0 (Py.chars "https://github.com" ++ "/"%char :: tail))
    with (Py.chars "https://github.com" ++ "/"%char :: tail).
  rewrite List.filter_app.
  change (List.filter _ (Py.chars "https://github.com")) with (Py.chars "https://github.com").
  change (List.filter ?f ("/"%char :: tail)) with ("/"%char :: List.filter f tail).
  rewrite Hf.
  change (Url.split_scheme (Py.chars "https://github.com" ++ "/"%char :: tail))
    with (Py.chars "https", Py.chars "//github.com" ++ "/"%char :: tail).
  cbv beta iota.
  change (Py.starts_with (Py.chars "//") (Py.chars "//github.com" ++ "/"%char :: tail))
    with true.
  cbv beta iota.
  change (Url.split_netloc (drop 2 (Py.chars "//github.com" ++ "/"%char :: tail)))
    with (Py.chars "github.com", "/"%char :: tail).
  cbv beta iota.
  change (xorb _ _) with false. cbv beta iota. cbn [mbind py_bind].
  rewrite (before_id "#") by (apply Hh; set_solver).
  rewrite (before_id "?") by (apply Hh; set_solver).
  assert (Py.mem ";" ("/"%char :: tail) = false) as ->
    by (apply mem_false, Hh; set_solver).
  by rewrite andb_false_r.
Qed.

Lemma starts_with_absent p l c X :
  c ∉ p → Py.starts_with p (l ++ c :: X) = Py.starts_with p l.
Proof.
  revert l. induction p as [|a p IH]; intros l Hc; [by destruct l|].
  apply not_elem_of_cons in Hc as [Hca Hcp]. destruct l as [|b l]; simpl.
  - assert (Py.eqc a c = false) as -> by (apply eqc_false; congruence). done.
  - by rewrite IH.
Qed.

Lemma starts_with_app p s : Py.starts_with p (p ++ s) = true.
Proof. induction p as [|a p IH]; [by destruct s|]. simpl. by rewrite eqc_refl. Qed.

Lemma ends_with_absent p X c r :
  c ∉ p → Py.ends_with p (X ++ c :: r) = Py.ends_with p r.
Proof.
  intros Hc. unfold Py.ends_with. rewrite rev_app_distr. simpl.
  rewrite <- app_assoc. simpl. apply starts_with_absent.
  intros H%list_elem_of_In. apply Hc, list_elem_of_In, in_rev. exact H.
Qed.

Lemma strip_git_keeps url : Py.ends_with (Py.chars ".git") (Py.chars url) = false →
  strip_git url = url.
Proof. intros H. unfold strip_git. by rewrite H. Qed.

Lemma strip_git_suffix url : strip_git (url +:+ ".git") = url.
Proof.
  unfold strip_git. rewrite chars_app. unfold Py.ends_with at 1.
  rewrite rev_app_distr, starts_with_app.
  rewrite length_app. change (length (Py.chars ".git")) with 4.
  replace (length (Py.chars url) + 4 - 4) with (length (Py.chars url)) by lia.
  by rewrite take_app_length, str_chars.
Qed.

Lemma rstrip_snoc c l : Py.rstrip c (l ++ [c]) = Py.rstrip c l.
Proof.
  unfold Py.rstrip. rewrite rev_app_distr. simpl. by rewrite eqc_refl.
Qed.

Lemma path_parts_two o r :
  o ≠ [] → "/"%char ∉ o → r ≠ [] → "/"%char ∉ r →
  path_parts (Py.str ("/"%char :: o ++ "/"%char :: r)) = [Py.str o; Py.str r]
  ∧ path_parts (Py.str ("/"%char :: o ++ "/"%char :: r ++ ["/"%char])) = [Py.str o; Py.str r].
Proof.
  intros Ho Hos Hr Hrs. unfold path_parts. rewrite !chars_str.
  assert (L : ∀ t, Py.lstrip "/" ("/"%char :: o ++ t) = o ++ t).
  { intros t. simpl. destruct o as [|a o]; [done|].
    apply not_elem_of_cons in Hos as [Ha _]. apply lstrip_id. congruence. }
  assert (S1 : Py.strip "/" ("/"%char :: o ++ "/"%char :: r) = o ++ "/"%char :: r).
  { unfold Py.strip. rewrite L. apply rstrip_id. intros a Ha ->.
    rewrite last_app_cons_ne in Ha by done. by apply last_Some_elem_of in Ha. }
  assert (S2 : Py.strip "/" ("/"%char :: o ++ "/"%char :: r ++ ["/"%char])
               = o ++ "/"%char :: r).
  { unfold Py.strip. rewrite L.
    change (o ++ "/"%char :: r ++ ["/"%char]) with (o ++ ("/"%char :: r) ++ ["/"%char]).
    rewrite app_assoc, rstrip_snoc. unfold Py.strip in S1. by rewrite L in S1. }
  rewrite S1, S2, split_app, split_none by done. done.
Qed.

Lemma github_url_chars owner repo :
  Py.chars (github_url owner repo)
    = Py.chars "https://github.com" ++ "/"%char :: Py.chars owner ++ "/"%char :: Py.chars repo.
Proof. unfold github_url. by rewrite !chars_app. Qed.

Lemma plain_char_slash : plain_char "/".
Proof. by repeat split. Qed.

Lemma extract_repo_info_github owner repo :
  plain_segment owner → plain_segment repo →
  Py.ends_with (Py.chars ".git") (Py.chars repo) = false →
  extract_repo_info (github_url owner repo) = Ok (Some (owner, repo))
  ∧ extract_repo_info (github_url owner repo +:+ ".git") = Ok (Some (owner, repo))
  ∧ extract_repo_info (github_url owner repo +:+ "/") = Ok (Some (owner, repo)).
Proof.
  intros (Ho & Hos & Hop) (Hr & Hrs & Hrp) Hgit.
  assert (Hs : "/"%char ∉ Py.chars ".git").
  { intros H. by repeat (apply elem_of_cons in H as [H|H]; [done|]); apply elem_of_nil in H. }
  assert (E1 : strip_git (github_url owner repo) = github_url owner repo).
  { apply strip_git_keeps. rewrite github_url_chars.
    rewrite app_comm_cons, app_assoc. by rewrite ends_with_absent. }
  assert (U : Url.urlparse_path (github_url owner repo)
              = Ok (Py.str ("/"%char :: Py.chars owner ++ "/"%char :: Py.chars repo))).
  { rewrite <- (str_chars (github_url owner repo)), github_url_chars.
    apply urlparse_path_github. apply Forall_app. split; [done|].
    constructor; [apply plain_char_slash|done]. }
  destruct (path_parts_two (Py.chars owner) (Py.chars repo)) as [P1 P2];
    [by apply chars_nonempty|done|by apply chars_nonempty|done|].
  assert (R1 : extract_repo_info (github_url owner repo) = Ok (Some (owner, repo))).
  { unfold extract_repo_info. rewrite E1, U. cbn [mbind py_bind].
    by rewrite P1, !str_chars. }
  split; [done|]. split.
  - unfold extract_repo_info. rewrite strip_git_suffix.
    unfold extract_repo_info in R1. by rewrite E1 in R1.
  - unfold extract_repo_info. rewrite strip_git_keeps.
    + rewrite <- (str_chars (github_url owner repo +:+ "/")), chars_app, github_url_chars.
      replace ((Py.chars "https://github.com" ++
                 "/"%char :: Py.chars owner ++ "/"%char :: Py.chars repo) ++ Py.chars "/")
        with (Py.chars "https://github.com" ++
                "/"%char :: Py.chars owner ++ "/"%char :: Py.chars repo ++ ["/"%char])
        by (rewrite <- !app_assoc; simpl; by rewrite <- !app_assoc).
      rewrite urlparse_path_github.
      * cbn [mbind py_bind]. by rewrite P2, !str_chars.
      * apply Forall_app. split; [done|]. constructor; [apply plain_char_slash|].
        apply Forall_app. split; [done|]. constructor; [apply plain_char_slash|done].
    + rewrite chars_app. change (Py.chars "/") with ([] ++ "/"%char :: []).
      rewrite app_assoc. by rewrite ends_with_absent.
Qed.

(** Property X5.  The usual spellings of a repository's locator all give its
    identifier: with or without the [.git] suffix, with a slash at the
    end, in the resolver and in the analyzer alike, for an owner and a
    repository name that are not empty and hold none of [/ ? # ;], tab
    or line break, the name not ending in [.git] itself. *)
Theorem canonical_locator_names_its_repository owner repo :
  plain_segment owner → plain_segment repo →
  Py.ends_with (Py.chars ".git") (Py.chars repo) = false →
  ∀ url, url ∈ [github_url owner repo; github_url owner repo +:+ ".git";
                github_url owner repo +:+ "/"] →
    repo_key_of url = Ok (Some (owner +:+ "/" +:+ repo))
    ∧ extract_repo_info_from_url url = Ok (Some (owner +:+ "/" +:+ repo)).
Proof.
  intros Ho Hr Hgit url Hurl.
  destruct (extract_repo_info_github owner repo Ho Hr Hgit) as (E1 & E2 & E3).
  assert (E : extract_repo_info url = Ok (Some (owner, repo))).
  { repeat (apply elem_of_cons in Hurl as [->|Hurl]; [done|]). by apply elem_of_nil in Hurl. }
  destruct Ho as [Ho _], Hr as [Hr _].
  apply truthy_true in Ho, Hr. split.
  - unfold repo_key_of. rewrite E. cbn [mbind py_bind]. by rewrite Ho, Hr.
  - rewrite extract_repo_info_from_url_eq, E. done.
Qed.

Lemma canonical_locator_witness :
  repo_key_of "https://github.com/apple/swift-nio.git" = Ok (Some "apple/swift-nio")
  ∧ extract_repo_info_from_url "https://github.com/apple/swift-nio.git"
    = Ok (Some "apple/swift-nio").
Proof.
  apply (canonical_locator_names_its_repository "apple" "swift-nio").
  - split; [done|]. split; [|by repeat constructor].
    intros H. by repeat (apply elem_of_cons in H as [H|H]; [done|]); apply elem_of_nil in H.
  - split; [done|]. split; [|by repeat constructor].
    intros H. by repeat (apply elem_of_cons in H as [H|H]; [done|]); apply elem_of_nil in H.
  - reflexivity.
  - apply list_elem_of_further, list_elem_of_here.
Defined.

(** Property X6.  An identifier is an owner, a slash and a repository name.  The
    owner is never empty, neither part holds a slash, a question mark, a
    number sign, a tab or a line break; the resolver moreover takes no
    empty name, so that its identifiers hold exactly one slash with text
    on both sides. *)
Theorem identifier_is_owner_slash_repo :
  (∀ url k, repo_key_of url = Ok (Some k) →
     ∃ owner repo, k = owner +:+ "/" +:+ repo ∧ segment owner ∧ segment repo)
  ∧ (∀ url k, extract_repo_info_from_url url = Ok (Some k) →
       ∃ owner repo, k = owner +:+ "/" +:+ repo ∧ segment owner
                     ∧ "/"%char ∉ Py.chars repo ∧ Forall path_char (Py.chars repo)).
Proof.
  split.
  - intros url k (owner & repo & -> & Ho & Hr & _)%repo_key_of_shape. eauto.
  - intros url k. rewrite extract_repo_info_from_url_eq.
    destruct (extract_repo_info url) as [[[owner repo]|]|] eqn:E; try done.
    intros [= <-]. apply extract_repo_info_shape in E as (? & ? & ?). eauto 6.
Qed.

(** Property X7.  The two programs agree on identifiers.  Where the analyzer's
    normalizer raises or finds nothing, so does the resolver's; an
    identifier of the analyzer is the resolver's identifier of the same
    locator, except that the resolver turns down the ones whose
    repository name is empty. *)
Theorem analyzer_and_resolver_agree_on_identifiers url :
  match extract_repo_info_from_url url with
  | Raise => repo_key_of url = Raise
  | Ok None => repo_key_of url = Ok None
  | Ok (Some k) =>
      repo_key_of url = Ok (Some k)
      ∨ (repo_key_of url = Ok None ∧ ∃ owner, segment owner ∧ k = owner +:+ "/")
  end.
Proof.
  rewrite extract_repo_info_from_url_eq. unfold repo_key_of.
  destruct (extract_repo_info url) as [[[owner repo]|]|] eqn:E; cbn [mbind py_bind]; try done.
  apply extract_repo_info_shape in E as (Ho & _).
  assert (To : Py.truthy owner = true) by (apply truthy_true; apply Ho).
  rewrite To. destruct repo as [|c repo]; [right|by left].
  split; [done|]. by exists owner.
Qed.

(** * The resolver on a hosting service without end *)

(** *** Matching a manifest that declares one locator *)


















(** *** The recursion over the endless service *)









(** * The resolver: what it reaches and what it counts *)

Lemma news_refl fetch start st : news fetch start st st.
Proof. split; [done|done|auto]. Qed.

Lemma elem_of_dep_keys k deps :
  k ∈ dep_keys deps ↔ ∃ url, url ∈ deps ∧ repo_key_of url = Ok (Some k).
Proof.
  unfold dep_keys. rewrite list_elem_of_omap. split.
  - intros (url & Hin & H). exists url. split; [done|].
    by destruct (repo_key_of url) as [[?|]|]; simplify_eq.
  - intros (url & Hin & H). exists url. by rewrite H.
Qed.

Lemma resolve_dependencies_true recur k deps :
  (∀ url, url ∈ deps → repo_key_of url ≠ Raise) →
  ∀ st b st', resolve_dependencies recur k deps st = Some (b, st') → b = true.
Proof.
  induction deps as [|dep deps IH]; intros Hc st b st' H; simpl in H; [by simplify_eq|].
  assert (Hd := Hc dep (list_elem_of_here _ _)).
  assert (Hc' : ∀ url, url ∈ deps → repo_key_of url ≠ Raise)
    by (intros; apply Hc; by apply list_elem_of_further).
  destruct (repo_key_of dep) as [[dk|]|]; [|by eapply IH|done].
  destruct (recur dep (add_edge k dk st)) as [[b1 st1]|]; [|done]. by eapply IH.
Qed.

Lemma unprocessed_has_no_edge p st k :
  edges_closed p st → k ∉ processed_repos st → adj (dependency_graph st) k = [].
Proof.
  intros C Hk. destruct (adj (dependency_graph st) k) as [|t l] eqn:E; [done|].
  destruct (C k t) as [? _]; [rewrite E; apply list_elem_of_here|done].
Qed.

Lemma resolve_dependencies_news fetch recur k :
  call_sound recur → call_complete fetch recur →
  ∀ deps st b st',
    resolve_dependencies recur k deps st = Some (b, st') →
    k ∈ processed_repos st → edges_closed None st →
    news fetch (fun k0 => k0 ∈ dep_keys deps) st st'.
Proof.
  intros Hs Hc. induction deps as [|dep deps IH]; intros st b st' H Hk C.
  - simpl in H. simplify_eq. apply news_refl.
  - simpl in H. destruct (repo_key_of dep) as [[dk|]|] eqn:K.
    + destruct (recur dep (add_edge k dk st)) as [[b1 st1]|] eqn:R; [|done].
      destruct (Hs _ _ _ _ R) as (E1 & _ & C1).
      assert (Ca : edges_closed (Some dk) (add_edge k dk st))
        by (by apply edges_closed_add_edge).
      assert (Cb : ∀ k0, Some dk = Some k0 → repo_key_of dep = Ok (Some k0))
        by (by intros ? [= <-]).
      pose proof (Hc _ _ _ _ _ R Ca Cb) as [N1 N2 N3].
      assert (Hk1 : k ∈ processed_repos st1) by (destruct E1; simpl in *; set_solver).
      assert (C1' : edges_closed None st1) by (by eapply C1).
      destruct (IH _ _ _ H Hk1 C1') as [M1 M2 M3].
      destruct (resolve_dependencies_sound _ k Hs _ _ _ _ H Hk1) as ([_ _ _ F] & _ & _).
      split.
      * intros k' Hin Hnot. destruct (decide (k' ∈ processed_repos st1)) as [H1|H1].
        -- destruct (N1 k' H1 Hnot) as [Hm Ha]. split; [done|].
           unfold adj in *. rewrite F; [done|done|]. intros [= ->]. done.
        -- by apply M1.
      * intros k' Hin Hnot. destruct (decide (k' ∈ failed_repos st1)) as [H1|H1].
        -- by apply N2.
        -- by apply M2.
      * intros k' Hr. destruct (M3 k' Hr) as [Hr1|(k0 & Hk0 & Hrtc)].
        -- destruct (N3 k' Hr1) as [Hr0|(k0 & Hk0 & Hrtc)]; [by left|].
           right. exists k0. split; [|done].
           apply elem_of_dep_keys. exists dep. split; [apply list_elem_of_here|done].
        -- right. exists k0. split; [|done].
           apply elem_of_dep_keys in Hk0 as (url & ? & ?).
           apply elem_of_dep_keys. exists url. split; [by apply list_elem_of_further|done].
    + destruct (IH _ _ _ H Hk C) as [M1 M2 M3]. split; [done|done|].
      intros k' Hr. destruct (M3 k' Hr) as [?|(k0 & Hk0 & Hrtc)]; [by left|].
      right. exists k0. split; [|done].
      apply elem_of_dep_keys in Hk0 as (url & ? & ?).
      apply elem_of_dep_keys. exists url. split; [by apply list_elem_of_further|done].
    + simplify_eq. apply news_refl.
Qed.

Lemma download_package_swift_complete fetch fuel :
  no_malformed_locator fetch → call_complete fetch (download_package_swift fetch fuel).
Proof.
  intros Hclean. induction fuel as [|fuel IH]; intros url st b st' p H C Hp; [done|].
  pose proof H as H0.
  simpl in H. destruct (repo_key_of url) as [[k|]|] eqn:K.
  2,3: simplify_eq; by split; [..|auto].
  case_bool_decide as Hres; [simplify_eq; apply news_refl|].
  assert (Hnp : k ∉ processed_repos st) by (intros ?; apply Hres; by left).
  assert (Hnf : k ∉ failed_repos st) by (intros ?; apply Hres; by right).
  assert (Hhere : ∃ k0, Ok (Some k) = Ok (Some k0)
                        ∧ rtc (fun a b => b ∈ declared_by fetch a) k0 k)
    by (exists k; split; [done|apply rtc_refl]).
  destruct (fetch k) as [content| |] eqn:F.
  - destruct (extract_dependencies_from_content content) as [deps|] eqn:X;
      [|destruct (extract_dependencies_from_content_never_raises content) as [? E];
        congruence].
    assert (D : declared_by fetch k = dep_keys deps)
      by (unfold declared_by; by rewrite F, X).
    destruct deps as [|d ds].
    + simplify_eq. split; simpl.
      * intros k' [->%elem_of_singleton|?]%elem_of_union Hnot; [|done].
        split; [eauto|]. rewrite D. by eapply unprocessed_has_no_edge.
      * done.
      * intros k' [[->%elem_of_singleton|?]%elem_of_union|?]; [by right|left; by left|left; by right].
    + set (st2 := found_dependencies k _ _) in H.
      destruct (resolve_dependencies _ k (d :: ds) st2) as [[b3 st3]|] eqn:L; [|done].
      assert (b3 = true) as ->.
      { eapply resolve_dependencies_true; [|exact L]. intros u Hu. by eapply Hclean. }
      simpl in H. simplify_eq.
      assert (Hk2 : k ∈ processed_repos st2) by (simpl; set_solver).
      assert (C2 : edges_closed None st2).
      { apply edges_closed_found_dependencies.
        destruct p as [q|].
        - assert (q = k) as -> by (specialize (Hp _ eq_refl); congruence).
          eapply (edges_closed_resolved None _ k); [|left; simpl; set_solver].
          eapply (edges_closed_mono None); [by apply extends_fetch_processed|done|done].
        - eapply (edges_closed_mono None); [by apply extends_fetch_processed|done|done]. }
      destruct (resolve_dependencies_news fetch _ k (download_package_swift_sound fetch fuel)
                  IH _ _ _ _ L Hk2 C2) as [M1 M2 M3].
      split.
      * intros k' Hin Hnot. destruct (decide (k' = k)) as [->|Hne].
        -- split; [eauto|]. rewrite D.
           rewrite (each_locator_its_own_edge fetch (S fuel) url k st st' content (d :: ds))
             by done.
           by rewrite (unprocessed_has_no_edge p st k).
        -- apply M1; [done|]. simpl. set_solver.
      * intros k' Hin Hnot. by apply M2.
      * intros k' Hr. destruct (M3 k' Hr) as [[Hr2|Hr2]|(k0 & Hk0 & Hrtc)].
        -- simpl in Hr2. apply elem_of_union in Hr2 as [->%elem_of_singleton|?];
             [by right|left; by left].
        -- left; by right.
        -- right. exists k. split; [done|]. eapply rtc_l; [|exact Hrtc]. by rewrite D.
  - simplify_eq. split; simpl.
    + done.
    + intros k' [->%elem_of_singleton|?]%elem_of_union Hnot; [|done]. by rewrite F.
    + intros k' [?|[->%elem_of_singleton|?]%elem_of_union]; [left; by left|by right|left; by right].
  - simplify_eq. split; simpl.
    + done.
    + intros k' [->%elem_of_singleton|?]%elem_of_union Hnot; [|done]. by rewrite F.
    + intros k' [?|[->%elem_of_singleton|?]%elem_of_union]; [left; by left|by right|left; by right].
Qed.

Lemma process_all_repositories_news fetch fuel urls :
  no_malformed_locator fetch →
  ∀ st st', process_all_repositories fetch fuel urls st = Some (Ok st') →
    edges_closed None st →
    news fetch (fun k0 => k0 ∈ dep_keys urls) st st'
    ∧ ∀ k0, k0 ∈ dep_keys urls → resolved st' k0.
Proof.
  intros Hclean. induction urls as [|url urls IH]; intros st st' H C; simpl in H.
  - simplify_eq. split; [apply news_refl|]. by intros k0 ?%elem_of_nil.
  - assert (Hmono : ∀ k0, k0 ∈ dep_keys urls → k0 ∈ dep_keys (url :: urls)).
    { intros k0 (u & ? & ?)%elem_of_dep_keys. apply elem_of_dep_keys.
      exists u. split; [by apply list_elem_of_further|done]. }
    destruct (repo_key_of url) as [[k|]|] eqn:K; [| |done].
    + destruct (download_package_swift fetch fuel url st) as [[b st1]|] eqn:D; [|done].
      destruct (download_package_swift_sound _ _ _ _ _ _ D) as (E1 & R1 & C1).
      assert (Hp : ∀ k0, @None string = Some k0 → repo_key_of url = Ok (Some k0)) by done.
      pose proof (download_package_swift_complete fetch fuel Hclean _ _ _ _ _ D C Hp)
        as [N1 N2 N3].
      assert (C1' : edges_closed None st1) by (by eapply C1).
      destruct (IH _ _ H C1') as ([M1 M2 M3] & Hseeds).
      destruct (process_all_repositories_sound _ _ _ _ _ H) as ([P2 F2 _ G2] & _).
      split; [split|].
      * intros k' Hin Hnot. destruct (decide (k' ∈ processed_repos st1)) as [H1|H1].
        -- destruct (N1 k' H1 Hnot) as [Hm Ha]. split; [done|].
           unfold adj in *. by rewrite G2.
        -- by apply M1.
      * intros k' Hin Hnot. destruct (decide (k' ∈ failed_repos st1)) as [H1|H1].
        -- by apply N2.
        -- by apply M2.
      * intros k' Hr. destruct (M3 k' Hr) as [Hr1|(k0 & Hk0 & Hrtc)].
        -- destruct (N3 k' Hr1) as [?|(k0 & Hk0 & Hrtc)]; [by left|].
           right. exists k0. split; [|done]. apply elem_of_dep_keys.
           exists url. split; [apply list_elem_of_here|]. simpl in Hk0. congruence.
        -- right. exists k0. auto.
      * intros k0 (u & [->|Hu]%elem_of_cons & Hk0)%elem_of_dep_keys.
        -- rewrite K in Hk0. simplify_eq. destruct (R1 k0 K) as [?|?]; [left|right]; set_solver.
        -- apply Hseeds. apply elem_of_dep_keys. eauto.
    + destruct (IH _ _ H C) as ([M1 M2 M3] & Hseeds). split; [split; [done|done|]|].
      * intros k' Hr. destruct (M3 k' Hr) as [?|(k0 & ? & ?)]; [by left|right; eauto].
      * intros k0 (u & [->|Hu]%elem_of_cons & Hk0)%elem_of_dep_keys.
        -- rewrite K in Hk0. done.
        -- apply Hseeds. apply elem_of_dep_keys. eauto.
Qed.

(** Property X2.  The resolver computes the closure of the seeds under declared
    dependencies.  When no manifest holds a locator on which the
    normalizer raises, a run that returns has visited exactly the
    identifiers that can be reached from a seed and have a manifest, has
    put in the failed set exactly the reachable ones that have none, and
    records under every visited identifier the identifiers its manifest
    declares, one edge for each locator, in whatever order the set of
    locators is gone through; under any other identifier it records
    nothing. *)
Theorem resolver_computes_the_reachable_closure fetch fuel urls st :
  no_malformed_locator fetch →
  process_all_repositories fetch fuel urls initial = Some (Ok st) →
  (∀ k, k ∈ processed_repos st ↔ reachable fetch urls k ∧ ∃ c, fetch k = Manifest c)
  ∧ (∀ k, k ∈ failed_repos st ↔ reachable fetch urls k ∧ ∀ c, fetch k ≠ Manifest c)
  ∧ (∀ k, k ∈ processed_repos st → adj (dependency_graph st) k ≡ₚ declared_by fetch k)
  ∧ (∀ k, k ∉ processed_repos st → adj (dependency_graph st) k = []).
Proof.
  intros Hclean H.
  destruct (process_all_repositories_news fetch fuel urls Hclean _ _ H edges_closed_initial)
    as ([N1 N2 N3] & Hseeds).
  destruct (process_all_repositories_sound _ _ _ _ _ H) as (_ & C).
  specialize (C edges_closed_initial).
  assert (Hinit : ∀ k, ¬ resolved initial k).
  { intros k [?|?]; simpl in *; set_solver. }
  assert (Hreach : ∀ k, resolved st k → reachable fetch urls k).
  { intros k Hr. destruct (N3 k Hr) as [?|?]; [by destruct (Hinit k)|done]. }
  assert (Hstep : ∀ a b, resolved st a → b ∈ declared_by fetch a → resolved st b).
  { intros a b Ha Hab.
    assert (Hproc : a ∈ processed_repos st).
    { destruct Ha as [?|Ha]; [done|]. exfalso.
      unfold declared_by in Hab. destruct (fetch a) as [content| |] eqn:F;
        try by apply elem_of_nil in Hab.
      by apply (N2 a Ha (not_elem_of_empty _) content). }
    destruct (N1 a Hproc (not_elem_of_empty _)) as [_ Hadj].
    rewrite <- Hadj in Hab. by destruct (C a b Hab) as [_ [?|?]]. }
  assert (Hclosed : ∀ k, reachable fetch urls k → resolved st k).
  { intros k (k0 & Hk0 & Hrtc). apply Hseeds in Hk0.
    induction Hrtc as [k0|a b c Hab _ IHr]; [done|]. eauto. }
  split; [|split; [|split]].
  - intros k. split.
    + intros Hk. split; [apply Hreach; by left|]. by apply N1; [|apply not_elem_of_empty].
    + intros [Hr [c Hc]]. destruct (Hclosed k Hr) as [?|Hf]; [done|].
      by destruct (N2 k Hf (not_elem_of_empty _) c).
  - intros k. split.
    + intros Hk. split; [apply Hreach; by right|]. by apply N2; [|apply not_elem_of_empty].
    + intros [Hr Hc]. destruct (Hclosed k Hr) as [Hp|?]; [|done].
      destruct (N1 k Hp (not_elem_of_empty _)) as [[c Hm] _]. by destruct (Hc c).
  - intros k Hk. destruct (N1 k Hk (not_elem_of_empty _)) as [_ ->]. done.
  - intros k Hk. by eapply unprocessed_has_no_edge.
Qed.

(** *** Counting the edges of a dictionary *)

Lemma count_edges_empty : count_edges ∅ = 0.
Proof. unfold count_edges. apply map_fold_empty. Qed.

Lemma count_edges_insert g k l :
  g !! k = None → count_edges (<[k := l]> g) = length l + count_edges g.
Proof.
  intros H. unfold count_edges. rewrite map_fold_insert_L; [done| |done].
  intros. lia.
Qed.

Lemma count_edges_lookup g k l :
  g !! k = Some l → count_edges g = length l + count_edges (delete k g).
Proof.
  intros H. rewrite <- (insert_delete_id g k l) at 1 by done.
  apply count_edges_insert, lookup_delete_eq.
Qed.

Lemma count_edges_update g k l :
  count_edges (<[k := l]> g) + length (adj g k) = length l + count_edges g.
Proof.
  unfold adj. destruct (g !! k) as [l0|] eqn:E; simpl.
  - rewrite (count_edges_lookup g k l0 E).
    rewrite <- insert_delete_eq, count_edges_insert by apply lookup_delete_eq. lia.
  - rewrite count_edges_insert by done. lia.
Qed.

Lemma count_edges_append_item g k x :
  count_edges (append_item g k x) = S (count_edges g).
Proof.
  unfold append_item. pose proof (count_edges_update g k (adj g k ++ [x])) as H.
  rewrite length_app in H. simpl in H. lia.
Qed.

Lemma count_edges_alter g k x :
  count_edges (alter (fun deps => deps ++ [x]) k g) ≤ S (count_edges g).
Proof.
  destruct (g !! k) as [l|] eqn:E.
  - assert (alter (fun deps => deps ++ [x]) k g = append_item g k x) as ->.
    { unfold append_item, adj. rewrite E. simpl. apply map_eq. intros j.
      destruct (decide (j = k)) as [->|N].
      - by rewrite lookup_alter_eq, lookup_insert_eq, E.
      - by rewrite lookup_alter_ne, lookup_insert_ne. }
    by rewrite count_edges_append_item.
  - assert (alter (fun deps => deps ++ [x]) k g = g) as ->; [|lia].
    apply map_eq. intros j. destruct (decide (j = k)) as [->|N].
    + by rewrite lookup_alter_eq, E.
    + by rewrite lookup_alter_ne.
Qed.

Lemma resolve_dependencies_counts recur k :
  call_counts recur →
  ∀ deps st b st', resolve_dependencies recur k deps st = Some (b, st') →
    (counted st → counted st') ∧ ∀ m, owing (length deps + m) st → owing m st'.
Proof.
  intros Hrec. induction deps as [|dep deps IH]; intros st b st' H; simpl in H.
  - by simplify_eq.
  - destruct (repo_key_of dep) as [[dk|]|].
    + destruct (recur dep (add_edge k dk st)) as [[b1 st1]|] eqn:R; [|done].
      destruct (Hrec _ _ _ _ R) as [S1 O1]. destruct (IH _ _ _ H) as [S2 O2].
      split; [auto|]. intros m Hm. apply O2, O1.
      unfold owing in *. simpl in *.
      pose proof (count_edges_alter (dependency_graph st) k dk). lia.
    + destruct (IH _ _ _ H) as [S2 O2]. split; [done|].
      intros m Hm. apply O2. unfold owing in *. simpl in *. lia.
    + simplify_eq. split; [done|]. unfold owing. simpl. lia.
Qed.

Lemma download_package_swift_counts fetch fuel :
  call_counts (download_package_swift fetch fuel).
Proof.
  induction fuel as [|fuel IH]; intros url st b st' H; [done|].
  simpl in H. destruct (repo_key_of url) as [[k|]|] eqn:K; [|by simplify_eq..].
  case_bool_decide as Hres; [by simplify_eq|].
  assert (Hnp : k ∉ processed_repos st) by (intros ?; apply Hres; by left).
  assert (Hsize : ∀ n, n = size (processed_repos st) →
            S n = size ({[k]} ∪ processed_repos st)).
  { intros n ->. rewrite size_union by set_solver. by rewrite size_singleton. }
  destruct (fetch k) as [content| |]; [|by simplify_eq..].
  destruct (extract_dependencies_from_content content) as [[|d ds]|].
  - simplify_eq. split; [apply Hsize|done].
  - set (st2 := found_dependencies k _ _) in H.
    destruct (resolve_dependencies _ k (d :: ds) st2) as [[b3 st3]|] eqn:L; [|done].
    destruct (resolve_dependencies_counts _ k IH _ _ _ _ L) as [S3 O3].
    assert (S2 : counted st → counted st2) by apply Hsize.
    assert (O2 : ∀ m, owing m st → owing (length (d :: ds) + m) st2).
    { intros m Hm. unfold owing in *. subst st2. simpl in *.
      destruct (dependency_graph st !! k) eqn:G; [lia|].
      rewrite count_edges_insert by done. simpl. lia. }
    destruct b3; simpl in H; simplify_eq; (split; [|intros m Hm]).
    + auto.
    + by apply O3, O2.
    + intros Hc. apply S2, S3 in Hc. exact Hc.
    + apply O2, O3 in Hm. exact Hm.
  - simplify_eq. split; [apply Hsize|done].
Qed.

Lemma process_all_repositories_counts fetch fuel urls :
  ∀ st st', process_all_repositories fetch fuel urls st = Some (Ok st') →
    (counted st → counted st') ∧ ∀ m, owing m st → owing m st'.
Proof.
  induction urls as [|url urls IH]; intros st st' H; simpl in H; [by simplify_eq|].
  destruct (repo_key_of url) as [[k|]|]; [|by apply IH|done].
  destruct (download_package_swift fetch fuel url st) as [[b st1]|] eqn:D; [|done].
  destruct (download_package_swift_counts _ _ _ _ _ _ D) as [S1 O1].
  destruct (IH _ _ H) as [S2 O2]. split; auto.
Qed.

(** Property X10.  The counters of the final summary agree with the sets.  After a
    run, the number of successful downloads is the number of identifiers
    in the visited set, and the edges recorded in the dependency map are
    at most as many as the dependencies counted as found. *)
Theorem summary_counters_agree_with_the_sets fetch fuel urls st :
  process_all_repositories fetch fuel urls initial = Some (Ok st) →
  successful_downloads st = size (processed_repos st)
  ∧ count_edges (dependency_graph st) ≤ dependencies_found st.
Proof.
  intros H. destruct (process_all_repositories_counts _ _ _ _ _ H) as [S O].
  split.
  - apply S. unfold counted. change (0 = size (∅ : gset string)). by rewrite size_empty.
  - assert (owing 0 initial) as H0.
    { unfold owing. simpl. rewrite count_edges_empty. lia. }
    apply O in H0. unfold owing in H0. lia.
Qed.

Lemma summary_counters_witness :
  ∃ st, process_all_repositories (fetch_of cyclic_world) 3 ["https://github.com/a/a"] initial
          = Some (Ok st)
        ∧ successful_downloads st = size (processed_repos st)
        ∧ count_edges (dependency_graph st) ≤ dependencies_found st.
Proof.
  eexists. split; [vm_compute; reflexivity|].
  apply (summary_counters_agree_with_the_sets (fetch_of cyclic_world) 3
           ["https://github.com/a/a"]).
  vm_compute. reflexivity.
Defined.

Lemma seeds_resolved fetch fuel urls :
  ∀ st st', process_all_repositories fetch fuel urls st = Some (Ok st') →
    ∀ k, k ∈ dep_keys urls → resolved st' k.
Proof.
  induction urls as [|url urls IH]; intros st st' H k Hk; simpl in H.
  - by apply elem_of_nil in Hk.
  - apply elem_of_dep_keys in Hk as (u & [->|Hu]%elem_of_cons & Hk).
    + rewrite Hk in H.
      destruct (download_package_swift fetch fuel url st) as [[b st1]|] eqn:D; [|done].
      destruct (download_package_swift_sound _ _ _ _ _ _ D) as (_ & R1 & _).
      destruct (process_all_repositories_sound _ _ _ _ _ H) as (E & _).
      eapply resolved_mono; eauto.
    + assert (Hk' : k ∈ dep_keys urls) by (apply elem_of_dep_keys; eauto).
      destruct (repo_key_of url) as [[k0|]|]; [|by eapply IH|done].
      destruct (download_package_swift fetch fuel url st) as [[b st1]|]; [|done].
      by eapply IH.
Qed.

(** Property X11.  Running again changes nothing.  After a call of
    [download_package_swift] on a locator, a second call on it returns
    True at once and leaves the state as it is, also when the first call
    failed; and going through the whole seed list again from the state a
    run has reached fetches nothing and ends in that same state. *)
Theorem second_run_changes_nothing fetch fuel fuel' urls st :
  process_all_repositories fetch fuel urls initial = Some (Ok st) →
  process_all_repositories fetch (S fuel') urls st = Some (Ok st)
  ∧ (∀ url k, url ∈ urls → repo_key_of url = Ok (Some k) →
       download_package_swift fetch (S fuel') url st = Some (true, st))
  ∧ (∀ url k st0 b st1,
       repo_key_of url = Ok (Some k) →
       download_package_swift fetch fuel url st0 = Some (b, st1) →
       download_package_swift fetch (S fuel') url st1 = Some (true, st1)).
Proof.
  intros H.
  assert (Hagain : ∀ url k s, repo_key_of url = Ok (Some k) → resolved s k →
            download_package_swift fetch (S fuel') url s = Some (true, s)).
  { intros url k s K R. simpl. rewrite K. by rewrite bool_decide_eq_true_2. }
  pose proof (seeds_resolved _ _ _ _ _ H) as Hs.
  split; [|split].
  - assert (Hok : ∀ url, url ∈ urls → repo_key_of url ≠ Raise).
    { clear Hs Hagain. revert H. generalize initial.
      induction urls as [|u urls IH]; intros s H url Hin; [by apply elem_of_nil in Hin|].
      simpl in H. apply elem_of_cons in Hin as [->|Hin].
      - by destruct (repo_key_of u).
      - destruct (repo_key_of u) as [[k0|]|]; [|by eapply IH|done].
        destruct (download_package_swift fetch fuel u s) as [[b s1]|]; [|done].
        by eapply IH. }
    clear H. induction urls as [|u urls IH]; [done|].
    cbn [process_all_repositories].
    destruct (repo_key_of u) as [[k0|]|] eqn:K.
    + rewrite (Hagain u k0 st K).
      * apply IH.
        -- intros k Hk. apply Hs. apply elem_of_dep_keys in Hk as (x & ? & ?).
           apply elem_of_dep_keys. exists x. split; [by apply list_elem_of_further|done].
        -- intros x Hx. apply Hok. by apply list_elem_of_further.
      * apply Hs. apply elem_of_dep_keys. exists u. split; [apply list_elem_of_here|done].
    + apply IH.
      * intros k Hk. apply Hs. apply elem_of_dep_keys in Hk as (x & ? & ?).
        apply elem_of_dep_keys. exists x. split; [by apply list_elem_of_further|done].
      * intros x Hx. apply Hok. by apply list_elem_of_further.
    + by destruct (Hok u (list_elem_of_here _ _)).
  - intros url k Hin K. apply (Hagain url k st K). apply Hs.
    apply elem_of_dep_keys. eauto.
  - intros url k st0 b st1 K D. apply (Hagain url k st1 K).
    by destruct (download_package_swift_sound _ _ _ _ _ _ D) as (_ & R1 & _); apply R1.
Qed.

Lemma second_run_witness :
  ∃ st, process_all_repositories (fetch_of cyclic_world) 3 ["https://github.com/a/a"] initial
          = Some (Ok st)
        ∧ process_all_repositories (fetch_of cyclic_world) 1 ["https://github.com/a/a"] st
          = Some (Ok st).
Proof.
  eexists. split; [vm_compute; reflexivity|].
  apply (second_run_changes_nothing (fetch_of cyclic_world) 3 0 ["https://github.com/a/a"]).
  vm_compute. reflexivity.
Defined.

Lemma first_package_file_spec repository branches :
  match first_package_file repository branches with
  | None => ∀ b, b ∈ branches → get_contents repository b = None
  | Some (f, b) =>
      ∃ pre post, branches = pre ++ b :: post
                  ∧ get_contents repository b = Some f
                  ∧ ∀ b', b' ∈ pre → get_contents repository b' = None
  end.
Proof.
  induction branches as [|b bs IH]; simpl; [by intros ? ?%elem_of_nil|].
  destruct (get_contents repository b) as [f|] eqn:E.
  - exists [], bs. split; [done|]. split; [done|]. by intros ? ?%elem_of_nil.
  - destruct (first_package_file repository bs) as [[f b0]|].
    + destruct IH as (pre & post & -> & ? & Hpre). exists (b :: pre), post.
      split; [done|]. split; [done|]. intros b' [->|?]%elem_of_cons; auto.
    + intros b' [->|?]%elem_of_cons; auto.
Qed.

Lemma branches_to_try_cases repository :
  (∃ b, default_branch repository = Ok b ∧ b ≠ "" ∧ b ≠ "main" ∧ b ≠ "master"
        ∧ branches_to_try repository = [b; "main"; "master"])
  ∨ ((∀ b, default_branch repository = Ok b → b = "" ∨ b = "main")
     ∧ branches_to_try repository = ["main"; "master"])
  ∨ (default_branch repository = Ok "master"
     ∧ branches_to_try repository = ["master"; "main"]).
Proof.
  unfold branches_to_try, get_default_branch.
  destruct (default_branch repository) as [b|] eqn:D.
  - destruct (decide (b = "")) as [->|N0]; [right; left; split; [by intros ? [= <-]; left|done]|].
    assert (Py.truthy b = true) as -> by (by destruct b).
    destruct (decide (b = "main")) as [->|N1];
      [right; left; split; [by intros ? [= <-]; right|done]|].
    destruct (decide (b = "master")) as [->|N2]; [right; right; done|].
    left. exists b. repeat split; try done. cbn [fold_left].
    assert (bool_decide ("main" ∈ [b]) = false) as ->.
    { apply bool_decide_eq_false_2. intros E%list_elem_of_singleton. congruence. }
    cbn [app].
    assert (bool_decide ("master" ∈ [b; "main"]) = false) as ->; [|done].
    apply bool_decide_eq_false_2.
    intros [E|E%list_elem_of_singleton]%elem_of_cons; congruence.
  - right; left. split; [done|done].
Qed.

(** Property X12.  The manifest is looked for on the default branch, then on
    [main], then on [master], each branch asked once.  The list of
    branches has no repetition and holds [main] and [master]; a default
    branch that is known and not empty comes first; the manifest taken is
    the one of the first branch of the list that has one, and the
    repository counts as having none exactly when no branch of the list
    has. *)
Theorem manifest_taken_from_the_first_branch_that_has_one
    (get_repo : string → py repository) (repo_key : string) (r : repository) :
  get_repo repo_key = Ok r →
  NoDup (branches_to_try r)
  ∧ (∀ b, b ∈ branches_to_try r ↔
       (default_branch r = Ok b ∧ b ≠ "") ∨ b = "main" ∨ b = "master")
  ∧ (∀ b, default_branch r = Ok b → b ≠ "" → head (branches_to_try r) = Some b)
  ∧ (fetch_manifest get_repo repo_key = NoManifest ↔
       ∀ b, b ∈ branches_to_try r → get_contents r b = None)
  ∧ (∀ content, fetch_manifest get_repo repo_key = Manifest content →
       ∃ pre b post, branches_to_try r = pre ++ b :: post
                     ∧ get_contents r b = Some (Ok content)
                     ∧ ∀ b', b' ∈ pre → get_contents r b' = None).
Proof.
  intros G. split; [|split; [|split; [|split]]].
  - destruct (branches_to_try_cases r) as [(b & _ & _ & N1 & N2 & ->)|[[_ ->]|[_ ->]]];
      repeat constructor; set_solver.
  - intros b.
    destruct (branches_to_try_cases r) as [(b0 & D & N0 & N1 & N2 & ->)|[[D ->]|[D ->]]].
    + rewrite D. set_solver.
    + split; [set_solver|]. intros [[Hb N]|?]; [|set_solver].
      destruct (D b Hb); [done|set_solver].
    + rewrite D. set_solver.
  - intros b D N.
    destruct (branches_to_try_cases r) as [(b0 & D0 & _ & _ & _ & ->)|[[D0 ->]|[D0 ->]]].
    + simpl. congruence.
    + destruct (D0 b D) as [->| ->]; done.
    + simpl. congruence.
  - unfold fetch_manifest. rewrite G.
    pose proof (first_package_file_spec r (branches_to_try r)) as S.
    destruct (first_package_file r (branches_to_try r)) as [[[c|] b]|].
    + split; [done|]. intros Hall. destruct S as (pre & post & E & Hc & _).
      rewrite Hall in Hc; [done|]. rewrite E. set_solver.
    + split; [done|]. intros Hall. destruct S as (pre & post & E & Hc & _).
      rewrite Hall in Hc; [done|]. rewrite E. set_solver.
    + done.
  - intros content. unfold fetch_manifest. rewrite G.
    pose proof (first_package_file_spec r (branches_to_try r)) as S.
    destruct (first_package_file r (branches_to_try r)) as [[[c|] b]|]; try done.
    intros [= ->]. destruct S as (pre & post & E & Hc & Hpre). eauto 6.
Qed.

(** * The parsers: the dependencies section *)

Lemma match_here_lit p r :
  ∀ s mark cs x,
    Re.match_here (List.map (fun c => Re.One (Re.chr c)) p ++ r) s mark cs = Some x →
    ∃ s', s = p ++ s' ∧ Re.match_here r s' mark cs = Some x.
Proof.
  induction p as [|a p IH]; intros s mark cs x H; [by exists s|].
  simpl in H. destruct s as [|c s]; [done|].
  unfold Re.chr in H at 1. destruct (Py.eqc a c) eqn:E; [|done].
  apply eqc_true in E as ->. destruct (IH _ _ _ _ H) as (s' & -> & H').
  by exists s'.
Qed.

Lemma greedy_result {R} p s (k : list ascii → option R) r :
  Re.greedy p s k = Some r → ∃ t, t `suffix_of` s ∧ k t = Some r.
Proof.
  induction s as [|c s IH]; simpl; [by exists []|].
  destruct (p c).
  - destruct (Re.greedy p s k) as [r'|] eqn:G.
    + intros [= <-]. destruct (IH eq_refl) as (t & Ht & Hk).
      exists t. split; [by apply suffix_cons_r|done].
    + intros Hk. by exists (c :: s).
  - intros Hk. by exists (c :: s).
Qed.

(** A lazy repetition stops at the first place where what follows
    matches. *)
Lemma lazy_result {R} p s (k : list ascii → option R) r :
  Re.lazy p s k = Some r →
  ∃ pre t, s = pre ++ t ∧ k t = Some r
           ∧ ∀ i, i < length pre → k (drop i s) = None.
Proof.
  revert r. induction s as [|c s IH]; intros r; simpl.
  - destruct (k []) eqn:K; [|done]. intros [= <-]. exists [], [].
    split; [done|]. split; [done|]. simpl. lia.
  - destruct (k (c :: s)) eqn:K.
    + intros [= <-]. exists [], (c :: s). split; [done|]. split; [done|]. simpl. lia.
    + destruct (p c); [|done]. intros H. destruct (IH _ H) as (pre & t & -> & Hk & Hnone).
      exists (c :: pre), t. split; [done|]. split; [done|].
      intros [|i] Hi; [done|]. simpl in *. apply Hnone. lia.
Qed.

Lemma search_from_result p s m :
  Re.search_from p s = Some m →
  ∃ pre t x, s = pre ++ t ∧ Re.match_alts p t = Some x ∧ m = Re.found_at t x.
Proof.
  induction s as [|c s IH]; simpl.
  - destruct (Re.match_alts p []) as [x|] eqn:E; [|done]. intros [= <-].
    by exists [], [], x.
  - destruct (Re.match_alts p (c :: s)) as [x|] eqn:E.
    + intros [= <-]. by exists [], (c :: s), x.
    + intros H. destruct (IH H) as (pre & t & x & -> & Hx & ->).
      by exists (c :: pre), t, x.
Qed.

(** Property X18.  The dependencies section ends at the first closing bracket.
    Where the pattern for the section matches, the text it hands to both
    parsers stands in the manifest between an opening bracket and a
    closing one and holds no closing bracket itself: what a manifest
    lists after a bracket closed inside its dependencies is not
    seen. *)
Theorem dependencies_section_ends_at_the_first_bracket content m :
  Re.search Pat.dependencies content = Some m →
  ∃ section before,
    Re.group 1 (Re.groups m) = Some section
    ∧ "]"%char ∉ Py.chars section
    ∧ Py.chars content
      = before ++ "["%char :: Py.chars section ++ "]"%char :: Re.rest m.
Proof.
  unfold Re.search. intros H.
  apply search_from_result in H as (pre & t & x & E & Hx & ->).
  unfold Pat.dependencies in Hx. cbn [Re.match_alts] in Hx.
  destruct (Re.match_here _ t t []) as [y|] eqn:M; [|done]. injection Hx as <-.
  unfold Re.lit in M. apply match_here_lit in M as (s1 & -> & M).
  cbn [Re.match_here Re.star] in M.
  apply greedy_result in M as (s2 & [ws Hs2] & M).
  destruct s2 as [|c s2]; [done|]. unfold Re.chr in M at 1.
  destruct (Py.eqc "[" c) eqn:Ec; [|done]. apply eqc_true in Ec as <-.
  cbn [Re.star_lazy] in M.
  apply lazy_result in M as (sec & t' & Hsec & M & Hfirst).
  destruct t' as [|c' t']; [done|]. unfold Re.chr in M at 1.
  destruct (Py.eqc "]" c') eqn:Ec'; [|done]. apply eqc_true in Ec' as <-.
  injection M as <-.
  assert (Hgroup : take (length s2 - S (length t')) s2 = sec).
  { rewrite Hsec, length_app. simpl.
    replace (length sec + S (length t') - S (length t')) with (length sec) by lia.
    by rewrite take_app_length. }
  exists (Py.str sec), (pre ++ Py.chars "dependencies:" ++ ws).
  cbn [Re.found_at Re.groups Re.rest Re.group Nat.eqb fst snd].
  rewrite Hgroup, chars_str. split; [done|]. split.
  - intros [i Hi]%list_elem_of_lookup.
    assert (i < length sec) as Hlt by (by eapply lookup_lt_Some).
    specialize (Hfirst i Hlt). rewrite Hsec, drop_app_le in Hfirst by lia.
    rewrite (drop_S _ "]"%char i) in Hfirst by done.
    cbn [app] in Hfirst. unfold Re.chr in Hfirst. by rewrite eqc_refl in Hfirst.
  - rewrite E, Hs2, Hsec. by rewrite <- !app_assoc.
Qed.

(** Property X8.  The analyzer finds again what the resolver recorded.  For a
    manifest the analyzer can parse, the identifiers it takes as
    dependencies are the identifiers the resolver records as edges for
    the same manifest, together with the identifiers of empty
    repository name, which the resolver passes over. *)
Theorem rescan_finds_the_edges_of_the_resolver content deps :
  extract_dependencies_from_content content = Ok deps →
  has_package_swift (parse_package_swift (Some content)) = true →
  ∀ k, k ∈ dependencies (parse_package_swift (Some content)) ↔
    k ∈ dep_keys deps
    ∨ ∃ url owner, url ∈ deps ∧ repo_key_of url = Ok None
                   ∧ extract_repo_info url = Ok (Some (owner, ""))
                   ∧ k = owner +:+ "/".
Proof.
  intros X P k.
  destruct (extract_dependencies_from_content_spec _ _ X) as [_ Hdeps].
  destruct (parse_package_swift_spec _ P) as [_ Hkeys].
  rewrite Hkeys, elem_of_dep_keys. split.
  - intros (url & Hin & Hg & Hk).
    assert (Hd : url ∈ deps) by (by apply Hdeps).
    rewrite extract_repo_info_from_url_eq in Hk.
    destruct (extract_repo_info url) as [[[owner repo]|]|] eqn:E; try done.
    cbn [mbind py_bind] in Hk. injection Hk as <-.
    destruct (extract_repo_info_shape _ _ _ E) as ((Ho & _) & _).
    apply truthy_true in Ho.
    destruct repo as [|c repo]; [right|left].
    + exists url, owner. split; [done|]. split; [|done].
      unfold repo_key_of. rewrite E. cbn [mbind py_bind]. by rewrite Ho.
    + exists url. split; [done|].
      unfold repo_key_of. rewrite E. cbn [mbind py_bind]. by rewrite Ho.
  - intros [(url & Hd & Hk)|(url & owner & Hd & _ & E & ->)].
    + exists url. apply Hdeps in Hd as [? ?]. split; [done|]. split; [done|].
      apply repo_key_of_shape in Hk as (o & r & -> & _ & _ & E).
      by rewrite extract_repo_info_from_url_eq, E.
    + exists url. apply Hdeps in Hd as [? ?]. split; [done|]. split; [done|].
      by rewrite extract_repo_info_from_url_eq, E.
Qed.

Lemma rescan_finds_the_edges_witness :
  extract_dependencies_from_content two_spellings
    = Ok ["https://github.com/foo/bar.git"; "https://github.com/foo/bar"]
  ∧ has_package_swift (parse_package_swift (Some two_spellings)) = true
  ∧ ∀ k, k ∈ dependencies (parse_package_swift (Some two_spellings)) ↔
      k ∈ dep_keys ["https://github.com/foo/bar.git"; "https://github.com/foo/bar"]
      ∨ ∃ url owner,
          url ∈ ["https://github.com/foo/bar.git"; "https://github.com/foo/bar"]
          ∧ repo_key_of url = Ok None
          ∧ extract_repo_info url = Ok (Some (owner, ""))
          ∧ k = owner +:+ "/".
Proof.
  split; [reflexivity|]. split; [reflexivity|].
  apply (rescan_finds_the_edges_of_the_resolver two_spellings); reflexivity.
Defined.

Lemma resolve_dependencies_false recur k deps :
  ∀ st st', resolve_dependencies recur k deps st = Some (false, st') →
    ∃ dep, dep ∈ deps ∧ repo_key_of dep = Raise.
Proof.
  induction deps as [|dep deps IH]; intros st st' H; simpl in H; [done|].
  destruct (repo_key_of dep) as [[dk|]|] eqn:K.
  - destruct (recur dep (add_edge k dk st)) as [[b1 st1]|]; [|done].
    destruct (IH _ _ H) as (u & ? & ?). exists u. split; [by apply list_elem_of_further|done].
  - destruct (IH _ _ H) as (u & ? & ?). exists u. split; [by apply list_elem_of_further|done].
  - exists dep. split; [apply list_elem_of_here|done].
Qed.

(** Property X9.  Reporting the version constraints cannot fail.  The two
    branches of [analyze_version_constraint] that convert text to a
    number are never reached, so neither it nor
    [extract_dependencies_from_content] raises, whatever text they are
    given; a manifest that was fetched is therefore never counted as a
    failure because of its contents, but only because of a locator on
    which the normalizer raises. *)
Theorem version_report_never_raises :
  (∀ package_declaration, analyze_version_constraint package_declaration ≠ Raise)
  ∧ (∀ content, extract_dependencies_from_content content ≠ Raise)
  ∧ (∀ fetch fuel url k content st b st',
       repo_key_of url = Ok (Some k) → ¬ resolved st k →
       fetch k = Manifest content →
       download_package_swift fetch fuel url st = Some (b, st') →
       b = false →
       ∃ deps dep, extract_dependencies_from_content content = Ok deps
                   ∧ dep ∈ deps ∧ repo_key_of dep = Raise).
Proof.
  split; [|split].
  - intros decl H. destruct (analyze_version_constraint_never_raises decl) as [t Ht].
    congruence.
  - intros content H.
    destruct (extract_dependencies_from_content_never_raises content) as [d Hd]. congruence.
  - intros fetch fuel url k content st b st' K R F H ->.
    destruct fuel as [|fuel]; [done|]. simpl in H.
    rewrite K, bool_decide_eq_false_2, F in H by done.
    destruct (extract_dependencies_from_content_never_raises content) as [deps X].
    rewrite X in H. exists deps. destruct deps as [|d ds]; [done|].
    set (st2 := found_dependencies k _ _) in H.
    destruct (resolve_dependencies _ k (d :: ds) st2) as [[b3 st3]|] eqn:L; [|done].
    destruct b3; [done|].
    destruct (resolve_dependencies_false _ _ _ _ _ L) as (dep & ? & ?). eauto.
Qed.

(** * The analyzer: what the scan builds and what the metrics say *)

Lemma walk_first g s v n :
  walk g s v (S n) → ∃ u, u ∈ adj g s ∧ walk g u v n.
Proof.
  revert v. induction n as [|n IH]; intros v H; inversion H as [|u ? ? Hw He]; subst.
  - inversion Hw; subst. exists v. split; [done|constructor].
  - destruct (IH _ Hw) as (u0 & H0 & W0). exists u0. split; [done|].
    by eapply walk_step.
Qed.

Lemma walk_stays_settled g st u w n :
  settled g st → cycles st = [] →
  u ∈ visited st → u ∉ rec_stack st → walk g u w n →
  w ∈ visited st ∧ w ∉ rec_stack st.
Proof.
  intros S Y Hu Hs W. induction W as [|x y n W IH E]; [done|].
  destruct IH as [Hx Hxs]. by apply (S Y x Hx Hxs).
Qed.

Lemma dfs_neighbors_done g recur path :
  (∀ n st st', recur n path st = Some (Ok st') → dfs_done g n st st') →
  ∀ neighbors st st',
    dfs_neighbors recur neighbors path st = Some (Ok st') →
    rec_stack st' = rec_stack st
    ∧ visited st ⊆ visited st'
    ∧ (cycles st' = [] →
       cycles st = [] ∧ ∀ n, n ∈ neighbors → n ∉ rec_stack st ∧ n ∈ visited st')
    ∧ (settled g st → settled g st').
Proof.
  intros Hrec. induction neighbors as [|n ns IH]; intros st st' H; simpl in H.
  - simplify_eq. split; [done|]. split; [done|]. split; [|done].
    intros Y. split; [done|]. by intros ? ?%elem_of_nil.
  - destruct (recur n path st) as [[st1|]|] eqn:R; try done.
    destruct (Hrec _ _ _ R) as [S1 V1 Q1 T1].
    destruct (IH _ _ H) as (S2 & V2 & Q2 & T2).
    split; [congruence|]. split; [set_solver|]. split; [|auto].
    intros Y. destruct (Q2 Y) as [Y1 Hns]. destruct (Q1 Y1) as (Y0 & Hn & Hv).
    split; [done|]. intros m [->|Hm]%elem_of_cons; [split; [done|set_solver]|].
    rewrite <- S1. auto.
Qed.

Lemma dfs_done_spec g fuel :
  ∀ node path st st', dfs g fuel node path st = Some (Ok st') → dfs_done g node st st'.
Proof.
  induction fuel as [|fuel IH]; intros node path st st' H; [done|].
  simpl in H. case_bool_decide as Hstack.
  { destruct (index_of node path); [|done]. simplify_eq.
    split; simpl; [done|done| |].
    - intros Y. by apply app_nil in Y as [_ ?].
    - intros _ Y. by apply app_nil in Y as [_ ?]. }
  case_bool_decide as Hvis.
  { simplify_eq. split; [done|done| |done]. intros Y. done. }
  set (st1 := {| visited := {[node]} ∪ visited st;
                 rec_stack := {[node]} ∪ rec_stack st; cycles := cycles st |}) in H.
  destruct (dfs_neighbors (dfs g fuel) (adj g node) (path ++ [node]) st1)
    as [[st2|]|] eqn:N; try done.
  case_bool_decide as Hin; [|done]. simplify_eq.
  destruct (dfs_neighbors_done g (dfs g fuel) (path ++ [node])
              (fun n s s' => IH n (path ++ [node]) s s') _ _ _ N) as (S2 & V2 & Q2 & T2).
  simpl in *.
  assert (T1 : settled g st → settled g st1).
  { intros T Y u Hu Hus. simpl in *.
    assert (u ≠ node) by set_solver.
    destruct (T Y u) as [Hsucc Hcyc]; [set_solver|set_solver|].
    split; [|done]. intros v Hv. destruct (Hsucc v Hv). set_solver. }
  split; simpl.
  - rewrite S2. set_solver.
  - set_solver.
  - intros Y. destruct (Q2 Y) as [Y0 _]. split; [done|]. split; [done|set_solver].
  - intros T Y u Hu Hus. simpl in *.
    destruct (Q2 Y) as [Y1 Hnb]. specialize (T2 (T1 T)).
    destruct (decide (u = node)) as [->|Hne].
    + split.
      * intros v Hv. destruct (Hnb v Hv) as [Hvs Hvv]. split; [done|].
        rewrite S2. set_solver.
      * intros [n W]. apply walk_first in W as (v & Hv & W).
        destruct (Hnb v Hv) as [Hvs Hvv].
        destruct (walk_stays_settled g st2 v node n T2 Y Hvv) as [_ Hbad]; [by rewrite S2|done|].
        apply Hbad. rewrite S2. set_solver.
    + destruct (T2 Y u Hu) as [Hsucc Hcyc]; [rewrite S2 in *; set_solver|].
      split; [|done]. intros v Hv. destruct (Hsucc v Hv). split; [done|set_solver].
Qed.

Lemma dfs_from_all_done g fuel :
  ∀ ns st st', dfs_from_all g fuel ns st = Some (Ok st') →
    rec_stack st' = rec_stack st
    ∧ visited st ⊆ visited st'
    ∧ (cycles st' = [] → cycles st = [] ∧ ∀ n, n ∈ ns → n ∈ visited st')
    ∧ (settled g st → settled g st').
Proof.
  induction ns as [|n ns IH]; intros st st' H; simpl in H.
  - simplify_eq. split; [done|]. split; [done|]. split; [|done].
    intros Y. split; [done|]. by intros ? ?%elem_of_nil.
  - case_bool_decide as Hv.
    + destruct (IH _ _ H) as (S2 & V2 & Q2 & T2).
      split; [done|]. split; [done|]. split; [|done].
      intros Y. destruct (Q2 Y) as [Y0 Hns]. split; [done|].
      intros m [->|Hm]%elem_of_cons; [set_solver|auto].
    + destruct (dfs g fuel n [] st) as [[st1|]|] eqn:D; try done.
      destruct (dfs_done_spec _ _ _ _ _ _ D) as [S1 V1 Q1 T1].
      destruct (IH _ _ H) as (S2 & V2 & Q2 & T2).
      split; [congruence|]. split; [set_solver|]. split; [|auto].
      intros Y. destruct (Q2 Y) as [Y1 Hns]. destruct (Q1 Y1) as (Y0 & _ & Hn).
      split; [done|]. intros m [->|Hm]%elem_of_cons; [set_solver|auto].
Qed.

Lemma chain_walk g l :
  ∀ u w, (∀ i a b, (u :: l) !! i = Some a → (u :: l) !! S i = Some b → b ∈ adj g a) →
    last (u :: l) = Some w → walk g u w (length l).
Proof.
  induction l as [|x l IH] using rev_ind; intros u w C L.
  - simpl in L. simplify_eq. constructor.
  - rewrite app_comm_cons, last_snoc in L. simplify_eq.
    rewrite length_app. simpl. rewrite Nat.add_1_r.
    destruct (last (u :: l)) as [y|] eqn:Ly; [|by apply last_None in Ly].
    apply (walk_step _ _ y).
    + apply IH; [|done]. intros i a b Ha Hb. apply (C i).
      * rewrite app_comm_cons. by apply lookup_app_l_Some.
      * rewrite app_comm_cons. by apply (lookup_app_l_Some (u :: l)).
    + apply (C (length l)).
      * rewrite app_comm_cons. apply lookup_app_l_Some.
        rewrite last_lookup in Ly. simpl in Ly. done.
      * rewrite app_comm_cons. simpl.
        by rewrite (list_lookup_middle l [] w (length l)).
Qed.

Lemma closed_walk_on_cycle g c :
  closed_walk g c → ∃ u v, head c = Some u ∧ v ∈ adj g u ∧ on_cycle g u.
Proof.
  intros (L & H & C). destruct c as [|u [|v c]]; simpl in L; try lia.
  exists u, v. split; [done|]. split; [by apply (C 0)|].
  exists (length c). apply (chain_walk g (v :: c) u u); [done|by rewrite <- H].
Qed.

Lemma walk_chain g u w n :
  walk g u w n →
  ∃ l, length l = n ∧ last (u :: l) = Some w
       ∧ ∀ i a b, (u :: l) !! i = Some a → (u :: l) !! S i = Some b → b ∈ adj g a.
Proof.
  induction 1 as [|x y n W (l & Hl & Hlast & C) E].
  - exists []. split; [done|]. split; [done|]. intros i a b Ha Hb. by destruct i.
  - exists (l ++ [y]). split; [rewrite length_app; simpl; lia|].
    split; [by rewrite app_comm_cons, last_snoc|].
    intros i a b Ha Hb. rewrite app_comm_cons in Ha, Hb.
    destruct (decide (S i < length (u :: l))) as [Hlt|Hge].
    + rewrite lookup_app_l in Ha by lia. rewrite lookup_app_l in Hb by lia. by eapply C.
    + assert (S i = length (u :: l)) as Hi.
      { apply lookup_lt_Some in Hb. rewrite length_app in Hb. simpl in *. lia. }
      rewrite lookup_app_l in Ha by lia. rewrite Hi in Hb.
      rewrite (list_lookup_middle (u :: l) [] y) in Hb by done. simplify_eq.
      rewrite last_lookup in Hlast. simpl in Hi. injection Hi as Hi. subst i.
      simpl in Hlast. congruence.
Qed.

Lemma on_cycle_closed_walk g u : on_cycle g u → ∃ c, closed_walk g c.
Proof.
  intros [n W]. destruct (walk_chain _ _ _ _ W) as (l & Hl & Hlast & C).
  exists (u :: l). split; [simpl; lia|]. split; [by rewrite Hlast|done].
Qed.

Lemma detect_circular_dependencies_complete g ns fuel :
  (∀ src tgt, tgt ∈ adj g src → src ∈ ns) →
  detect_circular_dependencies fuel g ns = Some (Ok []) →
  ∀ u, ¬ on_cycle g u.
Proof.
  intros Hns H u Hu. unfold detect_circular_dependencies in H.
  set (st0 := {| visited := ∅; rec_stack := ∅; cycles := [] |}) in H.
  destruct (dfs_from_all g fuel ns st0) as [[st|]|] eqn:D; try done.
  injection H as Y.
  destruct (dfs_from_all_done _ _ _ _ _ D) as (S & _ & Q & T).
  destruct (Q Y) as [_ Hvis].
  assert (T0 : settled g st0) by (intros _ x Hx; set_solver).
  destruct Hu as [n W]. pose proof W as W'.
  apply walk_first in W' as (v & Hv & _).
  destruct (T T0 Y u) as [_ Hc]; [by eapply Hvis, Hns|rewrite S; set_solver|].
  apply Hc. by exists n.
Qed.

Lemma select_empty_filter ns :
  ∀ d, (select_empty d ns).1 = filter (fun n => adj d n = []) ns.
Proof.
  induction ns as [|n ns IH]; intros d; [done|]. simpl.
  destruct (getitem_spec d n) as [Hl [_ Hadj]].
  destruct (getitem d n) as [l d1]. simpl in *.
  specialize (IH d1). destruct (select_empty d1 ns) as [sel d2]. simpl in *.
  rewrite filter_cons. subst l sel.
  assert (filter (fun n => adj d1 n = []) ns = filter (fun n => adj d n = []) ns) as ->.
  { apply list_filter_iff. intros x. by rewrite Hadj. }
  destruct (adj d n) eqn:E; by rewrite decide_bool_decide; case_bool_decide.
Qed.

(** The statistics of a run of [calculate_graph_metrics], and the graph
    [detect_circular_dependencies] has gone through. *)
Lemma calculate_graph_metrics_stats (a : analyzer) :
  ∃ fuel0 a' g2,
    (∀ fuel, fuel0 ≤ fuel → calculate_graph_metrics fuel a = Some (Ok a'))
    ∧ (∀ k, adj g2 k = adj (graph a) k)
    ∧ (∀ fuel, fuel0 ≤ fuel →
         detect_circular_dependencies fuel g2 (nodes a)
           = Some (Ok (circular_dependencies (stats a'))))
    ∧ nodes a' = nodes a
    ∧ total_nodes (stats a') = length (nodes a)
    ∧ total_edges (stats a') = count_edges (graph a)
    ∧ root_packages (stats a')
      = length (filter (fun n => adj (reverse_graph a) n = []) (nodes a))
    ∧ leaf_packages (stats a')
      = length (filter (fun n => adj (graph a) n = []) (nodes a)).
Proof.
  unfold calculate_graph_metrics.
  pose proof (select_empty_filter (nodes a) (reverse_graph a)) as FR.
  destruct (select_empty (reverse_graph a) (nodes a)) as [roots rg1]. simpl in FR.
  pose proof (select_empty_filter (nodes a) (graph a)) as FL.
  destruct (select_empty_spec (nodes a) (graph a)) as [EL _].
  destruct (select_empty (graph a) (nodes a)) as [leaves g1]. simpl in FL, EL.
  destruct (depth_over_roots_spec (graph a) roots g1 0 EL)
    as (fuel1 & depth & g2 & H1 & E2 & _).
  destruct (detect_circular_dependencies_total g2 (nodes a) (S (size (graph_nodes g2 (nodes a)))))
    as (cs & H2 & _); [lia|].
  eexists (Nat.max fuel1 (S (size (graph_nodes g2 (nodes a))))), _, g2.
  split; [|split; [|split]].
  - intros fuel Hf. rewrite H1 by lia.
    assert (S (size (graph_nodes g2 (nodes a))) ≤ fuel) as Hle by lia.
    rewrite (detect_circular_dependencies_mono _ _ _ _ _ Hle H2). reflexivity.
  - apply E2.
  - intros fuel Hf. simpl.
    apply (detect_circular_dependencies_mono _ (S (size (graph_nodes g2 (nodes a))))); [lia|done].
  - simpl. by rewrite FR, FL.
Qed.

Lemma depth_over_roots_mono fuel fuel' roots :
  fuel ≤ fuel' →
  ∀ g md r, depth_over_roots fuel g roots md = Some r →
    depth_over_roots fuel' g roots md = Some r.
Proof.
  intros Hle. induction roots as [|root roots IH]; intros g md r H; simpl in *; [done|].
  destruct (calculate_depth_from_node fuel g root) as [[d g']|] eqn:E; [|done].
  assert (calculate_depth_from_node fuel' g root = Some (d, g')) as ->; [|by apply IH].
  unfold calculate_depth_from_node in *.
  destruct (g !! root); [|done]. by eapply bfs_loop_mono.
Qed.

(** More fuel does not change what [calculate_graph_metrics] returns. *)
Lemma calculate_graph_metrics_mono fuel fuel' a r :
  fuel ≤ fuel' →
  calculate_graph_metrics fuel a = Some r → calculate_graph_metrics fuel' a = Some r.
Proof.
  intros Hle. unfold calculate_graph_metrics.
  destruct (select_empty (reverse_graph a) (nodes a)) as [roots rg1].
  destruct (select_empty (graph a) (nodes a)) as [leaves g1].
  destruct (depth_over_roots fuel g1 roots 0) as [[depth g2]|] eqn:D; [|done].
  rewrite (depth_over_roots_mono _ _ _ Hle _ _ _ D).
  destruct (detect_circular_dependencies fuel g2 (nodes a)) as [found|] eqn:C; [|done].
  by rewrite (detect_circular_dependencies_mono _ _ _ _ _ Hle C).
Qed.

(** A run of [calculate_graph_metrics] that returns gives what every
    run with enough fuel gives. *)
Lemma calculate_graph_metrics_agree fuel fuel0 a a' a0 :
  calculate_graph_metrics fuel a = Some (Ok a') →
  (∀ fuel1, fuel0 ≤ fuel1 → calculate_graph_metrics fuel1 a = Some (Ok a0)) →
  a0 = a'.
Proof.
  intros H H0.
  assert (Hm := calculate_graph_metrics_mono fuel (Nat.max fuel fuel0) a _ ltac:(lia) H).
  rewrite H0 in Hm by lia. by injection Hm.
Qed.

(** Property X1.  The cycle report is complete.  When every identifier with an
    outgoing edge is in the node set, as it is after a scan, and
    [calculate_graph_metrics] returns, the list of circular dependencies
    it has stored is empty exactly when the graph has no closed walk at
    all.  (The search is recursive: on a chain of dependencies deeper
    than the recursion the interpreter allows it does not return, which
    here is running out of fuel.) *)
Theorem no_cycle_reported_means_no_cycle (a : analyzer) fuel a' :
  (∀ src tgt, tgt ∈ adj (graph a) src → src ∈ nodes a) →
  calculate_graph_metrics fuel a = Some (Ok a') →
  (circular_dependencies (stats a') = [] ↔ ∀ c, ¬ closed_walk (graph a) c).
Proof.
  intros Hsrc Hrun.
  destruct (calculate_graph_metrics_stats a) as (fuel0 & a0 & g2 & H & E & D & _).
  destruct (calculate_graph_metrics_spec a) as (fuel1 & a1 & H1 & _ & _ & _ & _ & _ & Y).
  assert (a0 = a') as -> by (by eapply calculate_graph_metrics_agree).
  assert (a1 = a') as -> by (by eapply calculate_graph_metrics_agree).
  split.
  - intros Hnone c Hc.
    apply closed_walk_on_cycle in Hc as (u & v & _ & _ & n & W).
    apply (detect_circular_dependencies_complete g2 (nodes a) fuel0) with (u := u).
    + intros src tgt. rewrite E. apply Hsrc.
    + rewrite D by lia. by rewrite Hnone.
    + exists n. eapply walk_same_edges; [|exact W]. done.
  - intros Hnone. destruct (circular_dependencies (stats a')) as [|c cs]; [done|].
    apply Forall_cons in Y as [Y _]. by destruct (Hnone c).
Qed.





Lemma repeated_or_NoDup (l : list string) :
  NoDup l ∨ ∃ i j x, i < j ∧ l !! i = Some x ∧ l !! j = Some x.
Proof.
  induction l as [|a l IH]; [left; constructor|].
  destruct (decide (a ∈ l)) as [Hin|Hnot].
  - right. apply list_elem_of_lookup in Hin as [j Hj].
    exists 0, (S j), a. split; [lia|done].
  - destruct IH as [N|(i & j & x & Hij & Hi & Hj)].
    + left. by constructor.
    + right. exists (S i), (S j), x. split; [lia|done].
Qed.

Lemma segment_on_cycle g (l : list string) i j x :
  (∀ k a b, l !! k = Some a → l !! S k = Some b → b ∈ adj g a) →
  i < j → l !! i = Some x → l !! j = Some x → on_cycle g x.
Proof.
  intros C Hij Hi Hj.
  assert (Hlen : j < length l) by (by eapply lookup_lt_Some).
  set (seg := drop (S i) (take (S j) l)).
  assert (Hseg : ∀ k, k < j - i → seg !! k = l !! (S i + k)).
  { intros k Hk. unfold seg. rewrite lookup_drop, lookup_take_lt by lia. done. }
  assert (Lseg : length seg = j - i).
  { unfold seg. rewrite length_drop, length_take. lia. }
  exists (j - i - 1). replace (S (j - i - 1)) with (length seg) by lia.
  apply chain_walk.
  - intros k a b Ha Hb. apply (C (i + k)).
    + destruct k as [|k]; simpl in Ha.
      * rewrite Nat.add_0_r. congruence.
      * rewrite <- Ha, Hseg; [f_equal; lia|].
        apply lookup_lt_Some in Ha. lia.
    + simpl in Hb. rewrite <- Hb, Hseg; [f_equal; lia|].
      apply lookup_lt_Some in Hb. lia.
  - rewrite last_lookup. simpl. rewrite Lseg.
    destruct (j - i) as [|d] eqn:E; [lia|]. simpl.
    rewrite Hseg by lia. rewrite <- Hj. f_equal. lia.
Qed.

Lemma no_sink_gives_cycle g (ns : list string) u :
  u ∈ ns → (∀ x y, y ∈ adj g x → y ∈ ns) → (∀ x, x ∈ ns → adj g x ≠ []) →
  ∃ x, on_cycle g x.
Proof.
  intros Hu Hcl Hsucc.
  assert (Hwalk : ∀ n, ∃ w, walk g u w n ∧ w ∈ ns).
  { induction n as [|n (w & W & Hw)]; [exists u; split; [constructor|done]|].
    destruct (adj g w) as [|y l] eqn:E; [by destruct (Hsucc w Hw)|].
    assert (Hy : y ∈ adj g w) by (rewrite E; apply list_elem_of_here).
    exists y. split; [by eapply walk_step|by eapply Hcl]. }
  destruct (Hwalk (length ns)) as (w & W & _).
  destruct (walk_chain _ _ _ _ W) as (l & Hl & _ & C).
  assert (Hall : ∀ k x, (u :: l) !! k = Some x → x ∈ ns).
  { induction k as [|k IHk]; intros x Hx; [simpl in Hx; congruence|].
    assert (is_Some ((u :: l) !! k)) as [a Ha].
    { apply lookup_lt_is_Some. apply lookup_lt_Some in Hx. lia. }
    eapply Hcl, C; eauto. }
  destruct (repeated_or_NoDup (u :: l)) as [N|(i & j & x & Hij & Hi & Hj)].
  - assert (u :: l ⊆+ ns) as Hsub.
    { apply NoDup_submseteq; [done|]. intros x [k Hk]%list_elem_of_lookup. eauto. }
    apply submseteq_length in Hsub. simpl in Hsub. lia.
  - exists x. by eapply segment_on_cycle.
Qed.

Lemma walk_prepend g y x u n : x ∈ adj g y → walk g x u n → walk g y u (S n).
Proof.
  intros E W. induction W as [|a b n W IH Eab].
  - eapply walk_step; [constructor|done].
  - by eapply walk_step.
Qed.

Lemma walk_reverse g rg u w n :
  (∀ s t, t ∈ adj rg s → s ∈ adj g t) → walk rg u w n → walk g w u n.
Proof.
  intros Hrev W. induction W as [|a b n W IH E]; [constructor|].
  eapply walk_prepend; [by apply Hrev|done].
Qed.

Lemma filter_nil_none (P : string → Prop) `{∀ x, Decision (P x)} (l : list string) :
  filter P l = [] → ∀ x, x ∈ l → ¬ P x.
Proof.
  intros E x Hx HP. assert (x ∈ filter P l) as Hin by (by apply list_elem_of_filter).
  rewrite E in Hin. by apply elem_of_nil in Hin.
Qed.

(** Property X15.  A graph without cycle has a root and a leaf.  For an analyzer
    whose edges join members of its node set and whose two adjacency
    maps mirror each other, as after a scan, and whose node set is not
    empty: if [calculate_graph_metrics] reports no circular dependency,
    it counts at least one root package and at least one leaf
    package. *)
Theorem without_cycle_there_is_a_root_and_a_leaf (a : analyzer) :
  no_dangling a → reverse_consistent a → nodes a ≠ [] →
  ∃ fuel0, ∀ fuel, fuel0 ≤ fuel →
    ∃ a', calculate_graph_metrics fuel a = Some (Ok a')
          ∧ (circular_dependencies (stats a') = [] →
             1 ≤ root_packages (stats a') ∧ 1 ≤ leaf_packages (stats a')).
Proof.
  intros [F R] C Hne.
  destruct (calculate_graph_metrics_stats a)
    as (fuel0 & a' & g2 & H & E & D & _ & _ & _ & HR & HL).
  exists fuel0. intros fuel Hf. exists a'. split; [by apply H|]. intros Y.
  assert (Hacyclic : ∀ u, ¬ on_cycle (graph a) u).
  { intros u [n W].
    apply (detect_circular_dependencies_complete g2 (nodes a) fuel) with (u := u).
    - intros src tgt. rewrite E. intros Hst. by destruct (F _ _ Hst).
    - rewrite D by done. by rewrite Y.
    - exists n. eapply walk_same_edges; [|exact W]. done. }
  destruct (nodes a) as [|u ns] eqn:Hn; [done|]. rewrite <- Hn in *.
  assert (Hu : u ∈ nodes a) by (rewrite Hn; apply list_elem_of_here).
  rewrite HR, HL. split.
  - destruct (filter (fun n => adj (reverse_graph a) n = []) (nodes a)) eqn:Fl;
      [|simpl; lia].
    exfalso. destruct (no_sink_gives_cycle (reverse_graph a) (nodes a) u) as [x [n W]].
    + done.
    + intros x y Hy. by destruct (R _ _ Hy).
    + intros x Hx. exact (filter_nil_none _ _ Fl x Hx).
    + apply (Hacyclic x). exists n. eapply walk_reverse; [|exact W].
      intros s t Ht. by apply C.
  - destruct (filter (fun n => adj (graph a) n = []) (nodes a)) eqn:Fl; [|simpl; lia].
    exfalso. destruct (no_sink_gives_cycle (graph a) (nodes a) u) as [x Hx].
    + done.
    + intros x y Hy. by destruct (F _ _ Hy).
    + intros x Hx. exact (filter_nil_none _ _ Fl x Hx).
    + by apply (Hacyclic x).
Qed.

Lemma scan_package_add a e :
  scan_package a e = match stored_package e with
                     | Some p => add_package a p
                     | None => a
                     end.
Proof.
  unfold scan_package, stored_package. destruct (entry_isdir e); [|done].
  by destruct (entry_manifest e).
Qed.

Lemma fold_scan_package es :
  ∀ a, fold_left scan_package es a = fold_left add_package (omap stored_package es) a.
Proof.
  induction es as [|e es IH]; intros a; [done|]. simpl. rewrite scan_package_add.
  destruct (stored_package e); simpl; apply IH.
Qed.

Lemma scan_directory_structure_fold base_dir a :
  scan_directory_structure base_dir a = fold_left add_package (stored_packages base_dir) a.
Proof.
  unfold scan_directory_structure, stored_packages. destruct base_dir as [listing|]; [|done].
  generalize (List.filter
    (fun d => root_isdir d && negb (Py.starts_with (Py.chars ".") (Py.chars (root_name d))))
    listing).
  intros roots. revert a. induction roots as [|r roots IH]; intros a; [done|].
  simpl. rewrite fold_left_app, <- fold_scan_package. apply IH.
Qed.

Lemma stored_packages_NoDup base_dir :
  Forall (fun p => NoDup (dependencies p.2)) (stored_packages base_dir).
Proof.
  apply Forall_forall. intros p Hp. unfold stored_packages in Hp.
  destruct base_dir as [listing|]; [|by apply elem_of_nil in Hp].
  apply list_elem_of_In, in_flat_map in Hp as (d & _ & Hp).
  apply list_elem_of_In, list_elem_of_omap in Hp as (e & _ & He).
  unfold stored_package in He. destruct (entry_isdir e); [|done].
  destruct (entry_manifest e) as [file|]; [|done]. simpl in He. injection He as <-.
  apply parse_package_swift_NoDup.
Qed.

(** *** What a stored package adds *)

Lemma add_dependencies_graph k deps :
  ∀ a k', adj (graph (fold_left (add_dependency k) deps a)) k'
          = adj (graph a) k' ++ (if decide (k = k') then deps else []).
Proof.
  induction deps as [|dep deps IH]; intros a k'; simpl.
  - destruct (decide (k = k')); by rewrite app_nil_r.
  - rewrite IH. simpl. rewrite adj_append_item.
    destruct (decide (k = k')) as [->|]; [by rewrite <- app_assoc|done].
Qed.

Lemma add_dependencies_reverse k deps :
  ∀ a k', adj (reverse_graph (fold_left (add_dependency k) deps a)) k'
          = adj (reverse_graph a) k'
            ++ flat_map (fun d => if decide (d = k') then [k] else []) deps.
Proof.
  induction deps as [|dep deps IH]; intros a k'; simpl.
  - by rewrite app_nil_r.
  - rewrite IH. simpl. rewrite adj_append_item.
    destruct (decide (dep = k')) as [->|]; [by rewrite <- app_assoc|done].
Qed.

Lemma flat_map_once (k x : string) l :
  NoDup l →
  flat_map (fun d => if decide (d = x) then [k] else []) l
    = if decide (x ∈ l) then [k] else [].
Proof.
  induction 1 as [|d l Hd N IH]; cbn [flat_map].
  - by rewrite decide_False by apply not_elem_of_nil.
  - rewrite IH. destruct (decide (d = x)) as [->|Hne].
    + rewrite decide_False by done. rewrite decide_True by apply list_elem_of_here. done.
    + cbn [app]. destruct (decide (x ∈ l)).
      * by rewrite decide_True by (by apply list_elem_of_further).
      * rewrite decide_False; [done|]. intros [->|?]%elem_of_cons; done.
Qed.

Lemma add_dependencies_nodes k deps :
  ∀ a, (NoDup (nodes a) → NoDup (nodes (fold_left (add_dependency k) deps a)))
       ∧ ∀ x, x ∈ nodes (fold_left (add_dependency k) deps a) ↔ x ∈ nodes a ∨ x ∈ deps.
Proof.
  induction deps as [|dep deps IH]; intros a; simpl.
  - split; [done|]. intros x. rewrite elem_of_nil. tauto.
  - destruct (IH (add_dependency k a dep)) as [N E]. split.
    + intros Ha. apply N. simpl. by apply set_add_NoDup.
    + intros x. rewrite E. simpl. rewrite set_add_elem, elem_of_cons. tauto.
Qed.

Lemma add_dependencies_info k deps :
  ∀ a, package_info (fold_left (add_dependency k) deps a) = package_info a.
Proof. induction deps as [|dep deps IH]; intros a; [done|]. simpl. by rewrite IH. Qed.

Lemma add_dependencies_count k deps :
  ∀ a, count_edges (graph (fold_left (add_dependency k) deps a))
       = count_edges (graph a) + length deps
       ∧ count_edges (reverse_graph (fold_left (add_dependency k) deps a))
         = count_edges (reverse_graph a) + length deps.
Proof.
  induction deps as [|dep deps IH]; intros a; simpl; [lia|].
  destruct (IH (add_dependency k a dep)) as [-> ->]. simpl.
  rewrite !count_edges_append_item. lia.
Qed.

Lemma fold_add_package ps :
  Forall (fun p => NoDup (dependencies p.2)) ps →
  ∀ a,
    let a' := fold_left add_package ps a in
    (∀ k, adj (graph a') k = adj (graph a) k ++ declared_in ps k)
    ∧ (∀ k, adj (reverse_graph a') k = adj (reverse_graph a) k ++ dependents_in ps k)
    ∧ (NoDup (nodes a) → NoDup (nodes a'))
    ∧ (∀ x, x ∈ nodes a' ↔
         x ∈ nodes a ∨ ∃ p, p ∈ ps ∧ (x = p.1 ∨ x ∈ dependencies p.2))
    ∧ (∀ k, package_info a' !! k =
         match last (filter (fun p => p.1 = k) ps) with
         | Some p => Some p.2
         | None => package_info a !! k
         end)
    ∧ count_edges (graph a')
      = count_edges (graph a) + sum_list (List.map (fun p => length (dependencies p.2)) ps)
    ∧ count_edges (reverse_graph a')
      = count_edges (reverse_graph a)
        + sum_list (List.map (fun p => length (dependencies p.2)) ps).
Proof.
  induction 1 as [|p ps Hp _ IH]; intros a; cbn zeta.
  - simpl. repeat split; try (intros; by rewrite ?app_nil_r); try lia; try done.
    + intros Hx. by left.
    + intros [?|(p & ?%elem_of_nil & _)]; done.
  - simpl fold_left. specialize (IH (add_package a p)). cbn zeta in IH.
    destruct IH as (G & R & N & E & I & C1 & C2).
    set (a1 := {| graph := graph a; reverse_graph := reverse_graph a;
                  nodes := set_add p.1 (nodes a);
                  package_info := <[p.1 := p.2]> (package_info a);
                  stats := stats a |}).
    assert (Ha : add_package a p = fold_left (add_dependency p.1) (dependencies p.2) a1)
      by done.
    destruct (add_dependencies_nodes p.1 (dependencies p.2) a1) as [N1 E1].
    destruct (add_dependencies_count p.1 (dependencies p.2) a1) as [K1 K2].
    split; [|split; [|split; [|split; [|split; [|split]]]]].
    + intros k. rewrite G, Ha, add_dependencies_graph. unfold declared_in. simpl.
      by rewrite <- app_assoc.
    + intros k. rewrite R, Ha, add_dependencies_reverse. unfold dependents_in. simpl.
      rewrite flat_map_once by done. by rewrite <- app_assoc.
    + intros Hn. apply N. rewrite Ha. apply N1. simpl. by apply set_add_NoDup.
    + intros x. rewrite E, Ha, E1. simpl. rewrite set_add_elem. split.
      * intros [[[->|?]|?]|(q & Hq & Hx)]; [right|by left|right|right].
        -- exists p. split; [apply list_elem_of_here|by left].
        -- exists p. split; [apply list_elem_of_here|by right].
        -- exists q. split; [by apply list_elem_of_further|done].
      * intros [?|(q & [->|Hq]%elem_of_cons & Hx)]; [by left; left; right| |right; eauto].
        destruct Hx; [by left; left; left|by left; right].
    + intros k. rewrite I, Ha, add_dependencies_info. simpl.
      rewrite filter_cons. destruct (decide (p.1 = k)) as [<-|Hne].
      * rewrite lookup_insert_eq.
        destruct (filter (fun q => q.1 = p.1) ps) as [|q qs] eqn:F; [done|].
        rewrite last_cons_cons. destruct (last (q :: qs)) eqn:L; [done|].
        by apply last_None in L.
      * by rewrite lookup_insert_ne.
    + rewrite C1, Ha, K1. simpl. lia.
    + rewrite C2, Ha, K2. simpl. lia.
Qed.

Lemma scan_directory_structure_spec base_dir :
  let a := scan_directory_structure base_dir new_analyzer in
  let ps := stored_packages base_dir in
  (∀ k, adj (graph a) k = declared_in ps k)
  ∧ (∀ k, adj (reverse_graph a) k = dependents_in ps k)
  ∧ NoDup (nodes a)
  ∧ (∀ x, x ∈ nodes a ↔ ∃ p, p ∈ ps ∧ (x = p.1 ∨ x ∈ dependencies p.2))
  ∧ (∀ k, package_info a !! k = snd <$> last (filter (fun p => p.1 = k) ps))
  ∧ count_edges (graph a) = sum_list (List.map (fun p => length (dependencies p.2)) ps)
  ∧ count_edges (reverse_graph a) = count_edges (graph a).
Proof.
  cbn zeta. rewrite scan_directory_structure_fold.
  destruct (fold_add_package (stored_packages base_dir) (stored_packages_NoDup base_dir)
              new_analyzer) as (G & R & N & E & I & C1 & C2).
  split; [|split; [|split; [|split; [|split; [|split]]]]].
  - intros k. by rewrite G.
  - intros k. by rewrite R.
  - apply N. constructor.
  - intros x. rewrite E. split; [|by right]. intros [H|H]; [|done].
    by apply elem_of_nil in H.
  - intros k. rewrite I. by destruct (last _).
  - rewrite C1. simpl. rewrite count_edges_empty. lia.
  - rewrite C1, C2. done.
Qed.

(** Property X13.  What a scan builds.  After scanning a stored tree from a fresh
    analyzer, the dependencies listed under an identifier are those of
    every stored copy of the package with that identifier, one copy
    after the other in the order of the scan, so that a package stored
    under several roots has each of its edges once for every copy; the
    dependents of an identifier are the packages that declare it, once
    for every copy; the node set holds each stored identifier and each
    declared dependency exactly once; the manifest kept for an
    identifier is the one of its last copy; and the edges are as many as
    the dependencies of all the stored copies together. *)
Theorem scan_records_every_stored_copy base_dir :
  (∀ k, adj (graph (scan_directory_structure base_dir new_analyzer)) k
        = flat_map (fun p => if decide (p.1 = k) then dependencies p.2 else [])
            (stored_packages base_dir))
  ∧ (∀ k, adj (reverse_graph (scan_directory_structure base_dir new_analyzer)) k
          = flat_map (fun p => if decide (k ∈ dependencies p.2) then [p.1] else [])
              (stored_packages base_dir))
  ∧ NoDup (nodes (scan_directory_structure base_dir new_analyzer))
  ∧ (∀ x, x ∈ nodes (scan_directory_structure base_dir new_analyzer) ↔
       ∃ p, p ∈ stored_packages base_dir ∧ (x = p.1 ∨ x ∈ dependencies p.2))
  ∧ (∀ k, package_info (scan_directory_structure base_dir new_analyzer) !! k
          = snd <$> last (filter (fun p => p.1 = k) (stored_packages base_dir)))
  ∧ count_edges (graph (scan_directory_structure base_dir new_analyzer))
    = sum_list (List.map (fun p => length (dependencies p.2)) (stored_packages base_dir)).
Proof.
  destruct (scan_directory_structure_spec base_dir) as (G & R & N & E & I & C & _).
  split; [exact G|]. split; [exact R|]. split; [exact N|]. split; [exact E|].
  split; [exact I|exact C].
Qed.

(** * The analyzer: the exported graph and the report *)

(** *** The order of texts is a total order *)

Lemma ascii_compare_eq a b : Ascii.compare a b = Eq → a = b.
Proof. apply Ascii.compare_eq_iff. Qed.

Lemma ascii_compare_lt_trans a b c :
  Ascii.compare a b = Lt → Ascii.compare b c = Lt → Ascii.compare a c = Lt.
Proof.
  unfold Ascii.compare. rewrite !N.compare_lt_iff. apply N.lt_trans.
Qed.

Lemma ascii_compare_refl a : Ascii.compare a a = Eq.
Proof. unfold Ascii.compare. apply N.compare_refl. Qed.

Lemma string_compare_trans s1 :
  ∀ s2 s3, String.compare s1 s2 ≠ Gt → String.compare s2 s3 ≠ Gt →
           String.compare s1 s3 ≠ Gt.
Proof.
  induction s1 as [|c1 s1 IH]; intros s2 s3 H12 H23; [by destruct s3|].
  destruct s2 as [|c2 s2]; [done|]. destruct s3 as [|c3 s3]; [by destruct s2|].
  simpl in *.
  destruct (Ascii.compare c1 c2) eqn:E12; [| |done].
  - apply ascii_compare_eq in E12 as ->.
    destruct (Ascii.compare c2 c3) eqn:E23; [|done|done]. by eapply IH.
  - destruct (Ascii.compare c2 c3) eqn:E23; [| |done].
    + apply ascii_compare_eq in E23 as ->. by rewrite E12.
    + by rewrite (ascii_compare_lt_trans _ _ _ E12 E23).
Qed.

Lemma str_le_iff a b : str_le a b ↔ String.compare a b ≠ Gt.
Proof. unfold str_le, String.leb. by destruct (String.compare a b). Qed.

#[global] Instance str_le_trans : Transitive str_le.
Proof. intros a b c. rewrite !str_le_iff. apply string_compare_trans. Qed.

#[global] Instance str_le_total : Total str_le.
Proof. intros a b. apply String.leb_total. Qed.

#[global] Instance str_le_antisymm : AntiSymm eq str_le.
Proof. intros a b. apply String.leb_antisym. Qed.

Lemma sorted_Permutation l : sorted l ≡ₚ l.
Proof. apply merge_sort_Permutation. Qed.

Lemma sorted_StronglySorted l : StronglySorted str_le (sorted l).
Proof. apply StronglySorted_merge_sort; apply _. Qed.

Lemma sorted_elem x l : x ∈ sorted l ↔ x ∈ l.
Proof. by rewrite sorted_Permutation. Qed.

(** *** The number of edges as a sum over the keys *)

Lemma sum_app (l k : list nat) : sum_list (l ++ k) = sum_list l + sum_list k.
Proof. induction l as [|x l IH]; simpl; [done|]. rewrite IH. lia. Qed.

Lemma sum_absent (d : gmap string (list string)) i x ks :
  d !! i = None → i ∉ ks →
  sum_list (List.map (fun k => length (adj (<[i := x]> d) k)) ks)
    = sum_list (List.map (fun k => length (adj d k)) ks).
Proof.
  intros Hi. induction ks as [|k ks IH]; intros Hk; [done|].
  apply not_elem_of_cons in Hk as [Hne Hk]. simpl. rewrite IH by done.
  unfold adj. by rewrite lookup_insert_ne.
Qed.

Lemma count_edges_sum (d : gmap string (list string)) :
  ∀ ks, NoDup ks → (∀ k, adj d k ≠ [] → k ∈ ks) →
    count_edges d = sum_list (List.map (fun k => length (adj d k)) ks).
Proof.
  induction d as [|i x m Hi IH] using map_ind; intros ks N Hdom.
  - rewrite count_edges_empty. clear N Hdom. induction ks as [|k ks IHk]; [done|].
    simpl. unfold adj at 1. rewrite lookup_empty. simpl. apply IHk.
  - rewrite count_edges_insert by done.
    assert (Hm : ∀ k, adj m k ≠ [] → k ∈ ks).
    { intros k Hk. apply Hdom. unfold adj in *.
      destruct (decide (k = i)) as [->|Hne]; [by rewrite Hi in Hk|].
      by rewrite lookup_insert_ne. }
    rewrite (IH ks N Hm).
    destruct (decide (i ∈ ks)) as [Hin|Hnot].
    + apply list_elem_of_split in Hin as (k1 & k2 & ->).
      apply NoDup_app in N as (N1 & N12 & N2). apply NoDup_cons in N2 as [Hi2 N2].
      assert (Hi1 : i ∉ k1) by (intros ?; eapply N12; [done|apply list_elem_of_here]).
      rewrite !List.map_app, !sum_app. simpl.
      rewrite !sum_absent by done.
      assert (adj (<[i:=x]> m) i = x) as -> by (unfold adj; by rewrite lookup_insert_eq).
      assert (adj m i = []) as -> by (unfold adj; by rewrite Hi).
      simpl. lia.
    + rewrite sum_absent by done.
      assert (x = []) as ->; [|done].
      destruct x as [|y x]; [done|]. exfalso. apply Hnot, Hdom.
      unfold adj. by rewrite lookup_insert_eq.
Qed.

Lemma count_edges_same_edges d d' : same_edges d d' → count_edges d' = count_edges d.
Proof.
  intros [Hsub Hadj].
  rewrite (count_edges_sum d' (elements (dom d'))).
  - rewrite (count_edges_sum d (elements (dom d'))).
    + f_equal. apply List.map_ext. intros k. by rewrite Hadj.
    + apply NoDup_elements.
    + intros k Hk. apply elem_of_elements, elem_of_dom. rewrite <- Hadj in Hk.
      unfold adj in Hk. by destruct (d' !! k).
  - apply NoDup_elements.
  - intros k Hk. apply elem_of_elements, elem_of_dom.
    unfold adj in Hk. by destruct (d' !! k).
Qed.

Lemma same_analyzer_refl a : same_analyzer a a.
Proof. repeat split; done || apply same_edges_refl. Qed.

Lemma same_analyzer_trans a b c : same_analyzer a b → same_analyzer b c → same_analyzer a c.
Proof.
  intros (G1 & R1 & N1 & P1 & S1) (G2 & R2 & N2 & P2 & S2).
  split; [by eapply same_edges_trans|]. split; [by eapply same_edges_trans|].
  split; [congruence|]. split; congruence.
Qed.

Lemma node_view_same a a' n : same_analyzer a a' → node_view a' n = node_view a n.
Proof.
  intros ([_ G] & [_ R] & _ & P & _). unfold node_view. by rewrite G, R, P.
Qed.

Lemma node_info_spec a n :
  (node_info a n).1 = node_view a n ∧ same_analyzer a (node_info a n).2.
Proof.
  unfold node_info.
  destruct (getitem_spec (graph a) n) as [G1 G2].
  destruct (getitem_spec (reverse_graph a) n) as [R1 R2].
  destruct (getitem (graph a) n) as [deps g].
  destruct (getitem (reverse_graph a) n) as [dependents rg]. simpl in *. subst.
  split; [reflexivity|]. unfold same_analyzer. simpl. done.
Qed.

Lemma nodes_data_spec ns :
  ∀ a, (nodes_data ns a).1 = List.map (node_view a) ns
       ∧ same_analyzer a (nodes_data ns a).2.
Proof.
  induction ns as [|n ns IH]; intros a; [split; [done|apply same_analyzer_refl]|].
  simpl. destruct (node_info_spec a n) as [V S].
  destruct (node_info a n) as [info a1]. simpl in V, S.
  destruct (IH a1) as [V2 S2]. destruct (nodes_data ns a1) as [infos a2]. simpl in *.
  split; [|by eapply same_analyzer_trans]. rewrite V, V2. f_equal.
  apply List.map_ext. intros x. by apply node_view_same.
Qed.

Lemma edges_to_spec source targets :
  ∀ edge_id acc,
    edges_to source targets edge_id acc
    = (acc ++ imap (fun i target => {| Edge.id := edge_id + i; Edge.source := source;
                                       Edge.target := target |}) targets,
       edge_id + length targets).
Proof.
  induction targets as [|t ts IH]; intros edge_id acc; simpl.
  - by rewrite app_nil_r, Nat.add_0_r.
  - rewrite IH, <- app_assoc. simpl. rewrite Nat.add_0_r. f_equal; [|lia].
    f_equal. f_equal. apply imap_ext. intros i x _. simpl. f_equal. lia.
Qed.

Lemma edges_data_spec items :
  ∀ edge_id acc,
    edges_data items edge_id acc
    = acc ++ imap (fun i p => {| Edge.id := edge_id + i; Edge.source := p.1;
                                 Edge.target := p.2 |}) (edge_pairs items).
Proof.
  induction items as [|[source targets] items IH]; intros edge_id acc; simpl.
  - by rewrite app_nil_r.
  - rewrite edges_to_spec, IH. unfold edge_pairs. simpl. fold (edge_pairs items).
    rewrite imap_app, <- app_assoc. f_equal. f_equal.
    + rewrite imap_fmap. apply imap_ext. by intros i x _.
    + rewrite length_map. apply imap_ext. intros i x _. simpl. f_equal. lia.
Qed.

Lemma length_edge_pairs items :
  length (edge_pairs items) = sum_list (List.map (fun p => length p.2) items).
Proof.
  induction items as [|p items IH]; [done|]. unfold edge_pairs. simpl.
  fold (edge_pairs items). by rewrite length_app, length_map, IH.
Qed.

Lemma map_fmap {A B} (f : A → B) (l : list A) : List.map f l = f <$> l.
Proof. induction l as [|x l IH]; [done|]. simpl. by rewrite IH. Qed.

Lemma count_edges_items (d : gmap string (list string)) :
  count_edges d = sum_list (List.map (fun p => length p.2) (map_to_list d)).
Proof.
  rewrite (count_edges_sum d ((map_to_list d).*1)).
  - rewrite <- (map_fmap fst (map_to_list d)), List.map_map. f_equal.
    apply List.map_ext_in. intros [k l] Hin%list_elem_of_In%elem_of_map_to_list.
    simpl. unfold adj. by rewrite Hin.
  - apply NoDup_fst_map_to_list.
  - intros k Hk. unfold adj in Hk. destruct (d !! k) as [l|] eqn:E; [|done].
    apply list_elem_of_fmap. exists (k, l).
    split; [done|]. by apply elem_of_map_to_list.
Qed.

Lemma elem_of_edge_pairs s t items :
  (s, t) ∈ edge_pairs items ↔ ∃ ts, (s, ts) ∈ items ∧ t ∈ ts.
Proof.
  unfold edge_pairs. rewrite list_elem_of_In, in_flat_map. split.
  - intros ([s' ts] & Hin & Hp). simpl in Hp.
    apply list_elem_of_In, list_elem_of_fmap in Hp as (t' & [= <- <-] & Ht).
    exists ts. split; [by apply list_elem_of_In|done].
  - intros (ts & Hin & Ht). exists (s, ts). split; [by apply list_elem_of_In|].
    simpl. apply list_elem_of_In, list_elem_of_fmap. eauto.
Qed.

Lemma calculate_graph_metrics_full (a : analyzer) :
  ∃ fuel0 a',
    (∀ fuel, fuel0 ≤ fuel → calculate_graph_metrics fuel a = Some (Ok a'))
    ∧ same_edges (graph a) (graph a')
    ∧ same_edges (reverse_graph a) (reverse_graph a')
    ∧ nodes a' = nodes a ∧ package_info a' = package_info a
    ∧ total_nodes (stats a') = length (nodes a)
    ∧ total_edges (stats a') = count_edges (graph a)
    ∧ root_packages (stats a')
      = length (filter (fun n => adj (reverse_graph a) n = []) (nodes a))
    ∧ leaf_packages (stats a')
      = length (filter (fun n => adj (graph a) n = []) (nodes a)).
Proof.
  destruct (calculate_graph_metrics_stats a)
    as (fuel0 & a' & g2 & H & _ & _ & _ & T & E & HR & HL).
  destruct (calculate_graph_metrics_spec a)
    as (fuel1 & a1 & H1 & N & P & G & R & _ & _).
  assert (a1 = a') as ->.
  { specialize (H (Nat.max fuel0 fuel1)). specialize (H1 (Nat.max fuel0 fuel1)).
    rewrite H in H1 by lia. symmetry. by injection (H1 ltac:(lia)). }
  exists fuel0, a'. done.
Qed.

Lemma length_filter_fmap {A B} (f : A → B) (P : B → Prop) `{∀ x, Decision (P x)}
    (l : list A) :
  length (filter P (f <$> l)) = length (filter (fun x => P (f x)) l).
Proof.
  induction l as [|x l IH]; [done|]. rewrite fmap_cons, !filter_cons.
  destruct (decide (P (f x))); cbn [length]; by rewrite IH.
Qed.

Lemma length_filter_Permutation {A} (P : A → Prop) `{∀ x, Decision (P x)} (l k : list A) :
  l ≡ₚ k → length (filter P l) = length (filter P k).
Proof. intros E. by rewrite E. Qed.

(** Property X16.  The exported graph agrees with itself.  When the
    directory is not there the run raises, on opening the file.
    Whenever [run_analysis] returns for a stored tree, in the data
    written to the JSON file the nodes are the node set in ascending order, each once;
    the edges are numbered from 0 on without a gap; their number is the
    total in the statistics, and so are the sum of the
    [dependencies_count] and the sum of the [dependents_count] of the
    nodes; both ends of every edge are among the nodes; and the nodes
    flagged [is_root] and [is_leaf] are as many as the statistics
    count. *)
Theorem exported_graph_is_consistent (generated : string) fuel listing data report a' :
  run_analysis fuel generated (Some listing) = Some (Ok (data, report, a')) →
  run_analysis fuel generated None = Some Raise
  ∧ Node.id <$> Json.nodes data
    = sorted (nodes (scan_directory_structure (Some listing) new_analyzer))
  ∧ NoDup (Node.id <$> Json.nodes data)
  ∧ Edge.id <$> Json.edges data = seq 0 (length (Json.edges data))
  ∧ length (Json.nodes data) = total_nodes (Json.statistics data)
  ∧ length (Json.edges data) = total_edges (Json.statistics data)
  ∧ sum_list (Node.dependencies_count <$> Json.nodes data)
    = total_edges (Json.statistics data)
  ∧ sum_list (Node.dependents_count <$> Json.nodes data)
    = total_edges (Json.statistics data)
  ∧ (∀ e, e ∈ Json.edges data →
       Edge.source e ∈ Node.id <$> Json.nodes data
       ∧ Edge.target e ∈ Node.id <$> Json.nodes data)
  ∧ length (filter (fun n => Node.is_root n = true) (Json.nodes data))
    = root_packages (Json.statistics data)
  ∧ length (filter (fun n => Node.is_leaf n = true) (Json.nodes data))
    = leaf_packages (Json.statistics data).
Proof.
  intros Hrun.
  split; [by destruct fuel|].
  set (a := scan_directory_structure (Some listing) new_analyzer).
  destruct (scan_directory_structure_spec (Some listing)) as (_ & _ & ND & _ & _ & _ & CR).
  fold a in ND, CR.
  destruct (scan_directory_structure_sound (Some listing) new_analyzer)
    as [[DF DR] _]; [apply new_analyzer_sound..|]. fold a in DF, DR.
  destruct (calculate_graph_metrics_full a)
    as (fuel0 & a1 & H & G1 & R1 & N1 & P1 & TN & TE & HR & HL).
  unfold run_analysis in Hrun. fold a in Hrun.
  destruct (calculate_graph_metrics fuel a) as [[a0|]|] eqn:Hc; [|done..].
  assert (a1 = a0) as <- by (by eapply calculate_graph_metrics_agree).
  unfold generate_graph_json in Hrun. rewrite bool_decide_eq_true_2 in Hrun by eauto.
  destruct (nodes_data_spec (sorted (nodes a1)) a1) as [V (G2 & R2 & N2 & P2 & S2)].
  destruct (nodes_data (sorted (nodes a1)) a1) as [infos a2]. simpl in V, G2, R2, N2, P2, S2.
  cbn [mbind py_bind fst snd] in Hrun.
  destruct (generate_summary_report generated a2) as [report' a3].
  injection Hrun as <- <- <-. cbn [Json.nodes Json.edges Json.statistics].
  rewrite S2, N1 in *. clear N2 S2.
  assert (Hids : Node.id <$> infos = sorted (nodes a)).
  { rewrite V, <- map_fmap, List.map_map. simpl. apply List.map_id. }
  assert (NDs : NoDup (sorted (nodes a))) by (by rewrite sorted_Permutation).
  assert (Gadj : ∀ k, adj (graph a1) k = adj (graph a) k) by apply G1.
  assert (Radj : ∀ k, adj (reverse_graph a1) k = adj (reverse_graph a) k) by apply R1.
  assert (G12 : same_edges (graph a) (graph a2)) by (by eapply same_edges_trans).
  rewrite edges_data_spec. cbn [app].
  split; [done|]. split; [by rewrite Hids|]. split.
  { rewrite fmap_imap, length_imap. unfold compose. simpl.
    by rewrite (imap_seq_0 _ (fun i => i)), list_fmap_id. }
  split; [by rewrite V, length_map, TN, (Permutation_length (sorted_Permutation _))|].
  split.
  { rewrite length_imap, length_edge_pairs, <- count_edges_items, TE.
    by apply count_edges_same_edges. }
  split.
  { rewrite V, <- !map_fmap, List.map_map. simpl. rewrite TE.
    rewrite (count_edges_sum (graph a) (sorted (nodes a))); [|done|].
    - f_equal. apply List.map_ext. intros k. by rewrite Gadj.
    - intros k Hk. apply sorted_elem. destruct (adj (graph a) k) as [|t l] eqn:E; [done|].
      apply (DF k t). rewrite E. apply list_elem_of_here. }
  split.
  { rewrite V, <- !map_fmap, List.map_map. simpl. rewrite TE, <- CR.
    rewrite (count_edges_sum (reverse_graph a) (sorted (nodes a))); [|done|].
    - f_equal. apply List.map_ext. intros k. by rewrite Radj.
    - intros k Hk. apply sorted_elem.
      destruct (adj (reverse_graph a) k) as [|t l] eqn:E; [done|].
      apply (DR k t). rewrite E. apply list_elem_of_here. }
  split.
  { intros e (i & [s t] & -> & Hp)%elem_of_lookup_imap. simpl.
    apply list_elem_of_lookup_2, elem_of_edge_pairs in Hp as (ts & Hin & Ht).
    apply elem_of_map_to_list in Hin.
    assert (t ∈ adj (graph a) s) as Hst.
    { destruct G12 as [_ <-]. unfold adj. by rewrite Hin. }
    rewrite Hids, !sorted_elem. apply (DF _ _ Hst). }
  split.
  { rewrite V, (map_fmap (node_view a1)), length_filter_fmap. simpl. rewrite HR.
    rewrite (length_filter_Permutation _ _ _ (sorted_Permutation (nodes a))).
    f_equal. apply list_filter_iff. intros n. rewrite bool_decide_eq_true, Radj.
    by rewrite length_zero_iff_nil. }
  { rewrite V, (map_fmap (node_view a1)), length_filter_fmap. simpl. rewrite HL.
    rewrite (length_filter_Permutation _ _ _ (sorted_Permutation (nodes a))).
    f_equal. apply list_filter_iff. intros n. rewrite bool_decide_eq_true, Gadj.
    by rewrite length_zero_iff_nil. }
Qed.

Lemma insert_by_count_Permutation x l : insert_by_count x l ≡ₚ x :: l.
Proof.
  induction l as [|y l IH]; [done|]. simpl. destruct (y.2 <=? x.2); [done|].
  rewrite IH. apply Permutation_swap.
Qed.

Lemma insert_by_count_sorted x l :
  StronglySorted count_ge l → StronglySorted count_ge (insert_by_count x l).
Proof.
  induction 1 as [|y l S IH F]; simpl; [by repeat constructor|].
  destruct (y.2 <=? x.2) eqn:E.
  - apply Nat.leb_le in E. constructor; [by constructor|].
    constructor; [done|]. eapply Forall_impl; [exact F|].
    intros z Hz. unfold count_ge in *. lia.
  - apply Nat.leb_gt in E. constructor; [done|].
    rewrite insert_by_count_Permutation. constructor; [|done].
    unfold count_ge. lia.
Qed.

Lemma sort_by_count_Permutation l : sort_by_count l ≡ₚ l.
Proof.
  induction l as [|x l IH]; [done|]. simpl.
  by rewrite insert_by_count_Permutation, IH.
Qed.

Lemma sort_by_count_sorted l : StronglySorted count_ge (sort_by_count l).
Proof.
  induction l as [|x l IH]; [constructor|]. simpl. by apply insert_by_count_sorted.
Qed.

Lemma StronglySorted_lookup {A} (R : relation A) (l : list A) i j x y :
  StronglySorted R l → i < j → l !! i = Some x → l !! j = Some y → R x y.
Proof.
  intros S. revert i j. induction S as [|a l S IH F]; intros i j Hij Hi Hj; [done|].
  destruct j as [|j]; [lia|]. simpl in Hj. destruct i as [|i]; simpl in Hi.
  - simplify_eq. rewrite Forall_forall in F. apply F. by eapply list_elem_of_lookup_2.
  - apply (IH i j); [lia|done|done].
Qed.

(** Property X17.  The top-ten lists of the report hold the largest counts.  The
    list built from an adjacency map has ten entries, or as many as the
    map has keys when these are fewer; every entry is a key with the
    length of its list; the entries come by decreasing count, no key
    twice; and no key left out has a longer list than a key in the
    list. *)
Theorem top_ten_holds_the_largest_counts (d : gmap string (list string)) :
  length (top_ten d) = Nat.min 10 (size d)
  ∧ (∀ node count, (node, count) ∈ top_ten d →
       ∃ deps, d !! node = Some deps ∧ count = length deps)
  ∧ (∀ i j x y, i < j → top_ten d !! i = Some x → top_ten d !! j = Some y → y.2 ≤ x.2)
  ∧ NoDup (top_ten d).*1
  ∧ (∀ node deps, d !! node = Some deps → (node, length deps) ∉ top_ten d →
       ∀ x, x ∈ top_ten d → length deps ≤ x.2).
Proof.
  unfold top_ten.
  set (items := List.map (fun '(node, deps) => (node, length deps)) (map_to_list d)).
  pose proof (sort_by_count_Permutation items) as P.
  pose proof (sort_by_count_sorted items) as S.
  assert (Hitems : ∀ node count, (node, count) ∈ items ↔
            ∃ deps, d !! node = Some deps ∧ count = length deps).
  { intros node count. unfold items. rewrite map_fmap, list_elem_of_fmap. split.
    - intros ([n deps] & [= -> ->] & Hin%elem_of_map_to_list). eauto.
    - intros (deps & Hd & ->). exists (node, deps). split; [done|].
      by apply elem_of_map_to_list. }
  assert (Hkeys : items.*1 = (map_to_list d).*1).
  { unfold items. rewrite (map_fmap _ (map_to_list d)), <- list_fmap_compose.
    apply list_fmap_ext.
    by intros i [n deps] _. }
  rewrite <- (take_drop 10 (sort_by_count items)) in S, P.
  apply StronglySorted_app in S as (Sapp & S1 & _).
  split; [|split; [|split; [|split]]].
  - rewrite length_take, (Permutation_length (sort_by_count_Permutation items)).
    unfold items. rewrite length_map, length_map_to_list. lia.
  - intros node count Hin. apply Hitems. rewrite <- P. apply elem_of_app. by left.
  - intros i j x y Hij Hi Hj. by apply (StronglySorted_lookup _ _ _ _ _ _ S1 Hij Hi Hj).
  - assert (NoDup (take 10 (sort_by_count items) ++ drop 10 (sort_by_count items)).*1) as N.
    { rewrite P, Hkeys. apply NoDup_fst_map_to_list. }
    rewrite fmap_app in N. by apply NoDup_app in N as [? _].
  - intros node deps Hd Hnot x Hx. apply (Sapp x (node, length deps) Hx).
    assert ((node, length deps) ∈ items) as Hin by (apply Hitems; eauto).
    rewrite <- P in Hin. apply elem_of_app in Hin as [?|?]; done.
Qed.

(** * Concrete inputs of the further properties *)

Lemma no_malformed_locator_cyclic_world : no_malformed_locator (fetch_of cyclic_world).
Proof.
  intros k content deps url F X Hin. unfold fetch_of, cyclic_world in F.
  destruct (decide (k = "a/a")) as [->|Na].
  - rewrite lookup_insert_eq in F. simpl in F. injection F as <-.
    vm_compute in X. injection X as <-.
    repeat (apply elem_of_cons in Hin as [->|Hin]; [by vm_compute|]).
    by apply elem_of_nil in Hin.
  - rewrite lookup_insert_ne in F by done.
    destruct (decide (k = "b/b")) as [->|Nb].
    + rewrite lookup_insert_eq in F. simpl in F. injection F as <-.
      vm_compute in X. injection X as <-.
      repeat (apply elem_of_cons in Hin as [->|Hin]; [by vm_compute|]).
      by apply elem_of_nil in Hin.
    + rewrite lookup_insert_ne in F by done. by rewrite lookup_empty in F.
Qed.

Lemma reachable_closure_witness :
  ∃ st, process_all_repositories (fetch_of cyclic_world) 3 ["https://github.com/a/a"] initial
          = Some (Ok st)
        ∧ ∀ k, k ∈ processed_repos st →
            adj (dependency_graph st) k ≡ₚ declared_by (fetch_of cyclic_world) k.
Proof.
  eexists. split; [vm_compute; reflexivity|].
  apply (resolver_computes_the_reachable_closure (fetch_of cyclic_world) 3
           ["https://github.com/a/a"]).
  - exact no_malformed_locator_cyclic_world.
  - vm_compute. reflexivity.
Defined.

Lemma self_tree_sound :
  no_dangling (scan_directory_structure self_tree new_analyzer)
  ∧ reverse_consistent (scan_directory_structure self_tree new_analyzer).
Proof. apply scan_directory_structure_sound; apply new_analyzer_sound. Qed.

Lemma cycle_report_witness :
  ∃ a', calculate_graph_metrics 2 (scan_directory_structure self_tree new_analyzer)
          = Some (Ok a')
        ∧ (circular_dependencies (stats a') = [] ↔
           ∀ c, ¬ closed_walk (graph (scan_directory_structure self_tree new_analyzer)) c).
Proof.
  eexists. split; [vm_compute; reflexivity|].
  apply (no_cycle_reported_means_no_cycle
           (scan_directory_structure self_tree new_analyzer) 2).
  - intros src tgt H. by destruct (proj1 (proj1 self_tree_sound) src tgt H).
  - vm_compute. reflexivity.
Defined.


Lemma root_and_leaf_witness :
  ∃ fuel0, ∀ fuel, fuel0 ≤ fuel →
    ∃ a', calculate_graph_metrics fuel (scan_directory_structure spelled_tree new_analyzer)
            = Some (Ok a')
          ∧ (circular_dependencies (stats a') = [] →
             1 ≤ root_packages (stats a') ∧ 1 ≤ leaf_packages (stats a')).
Proof.
  destruct (scan_directory_structure_sound spelled_tree new_analyzer) as [D C];
    [apply new_analyzer_sound..|].
  apply (without_cycle_there_is_a_root_and_a_leaf
           (scan_directory_structure spelled_tree new_analyzer) D C).
  by vm_compute.
Defined.

Lemma first_branch_witness :
  fetch_manifest (fun _ => Ok on_main) "foo/bar" = Manifest example_manifest
  ∧ NoDup (branches_to_try on_main).
Proof.
  split; [reflexivity|].
  apply (manifest_taken_from_the_first_branch_that_has_one
           (fun _ => Ok on_main) "foo/bar" on_main). reflexivity.
Defined.

Lemma section_witness :
  ∃ m, Re.search Pat.dependencies example_manifest = Some m
       ∧ ∃ section before,
           Re.group 1 (Re.groups m) = Some section
           ∧ "]"%char ∉ Py.chars section
           ∧ Py.chars example_manifest
             = before ++ "["%char :: Py.chars section ++ "]"%char :: Re.rest m.
Proof.
  eexists. split; [vm_compute; reflexivity|].
  apply (dependencies_section_ends_at_the_first_bracket example_manifest).
  vm_compute. reflexivity.
Defined.

Lemma exported_graph_witness :
  ∃ data report a',
    run_analysis 3 "2025-01-01 00:00:00" spelled_tree = Some (Ok (data, report, a'))
    ∧ Node.id <$> Json.nodes data = ["foo/bar"; "x/y"]
    ∧ length (Json.edges data) = total_edges (Json.statistics data).
Proof.
  eexists _, _, _. split; [vm_compute; reflexivity|].
  destruct (exported_graph_is_consistent "2025-01-01 00:00:00" 3
              [ {| root_name := "x_y"; root_isdir := true;
                   root_listing := [ {| entry_name := "x_y"; entry_isdir := true;
                                        entry_manifest := Some (Some two_spellings) |} ] |} ]
              _ _ _ ltac:(vm_compute; reflexivity))
    as (_ & Hn & _ & _ & _ & He & _).
  split; [|exact He]. rewrite Hn. vm_compute. reflexivity.
Defined.
